(** * prom-label-proxy: the request enforcement pipeline of [injectproxy/routes.go]

    A shallow embedding of the strict router, the bypass check, the query and
    selector rewriting handlers and the proxy error handler, followed by the
    properties proved about them.

    Conventions.
    - Go strings are [string] (a sequence of bytes), slices are [list],
      [map[string]struct{}] is [gset string], [url.Values] is
      [gmap string (list string)].
    - A handler is a function from the effects performed so far and the
      request to the effects performed when it returns; [None] is a panic.
    - Libraries the file calls but does not define (net/url, net/http form
      parsing, regexp, strconv, the PromQL parser and enforcer) are fields of
      the class [External]; every general theorem holds for all of them. *)

From Stdlib Require Import String Ascii List Bool ZArith Lia.
From stdpp Require Import base option gmap strings list sorting.

Open Scope string_scope.
Open Scope list_scope.

(** ** Go's [strings] package *)

Module strings.

(** [strings.HasPrefix(s, prefix)]. *)
Definition HasPrefix (s prefix : string) : bool := String.prefix prefix s.

(** [strings.TrimSuffix(s, suffix)]: [s] without the trailing [suffix], or
    [s] itself when it does not end with it.  The suffix can only start at
    one position; the recursion walks to it. *)
Fixpoint TrimSuffix (s suffix : string) : string :=
  if String.eqb s suffix then EmptyString
  else match s with
       | EmptyString => EmptyString
       | String c s' => String c (TrimSuffix s' suffix)
       end.

(** [strings.Join(elems, sep)]. *)
Fixpoint Join (elems : list string) (sep : string) : string :=
  match elems with
  | [] => EmptyString
  | [e] => e
  | e :: rest => e +:+ sep +:+ Join rest sep
  end.

End strings.

(** ** The strict router (routes.go, lines 131-177) *)

(** The two errors [strictMux.Handle] returns.  The second message also names
    the registered pattern found first by the iteration over the [seen] map;
    Go leaves that order unspecified, so the pattern is not recorded here. *)
Inductive HandleError : Type :=
| ErrAlreadyRegistered (sanitized : string)
| ErrSharesRegistered (sanitized : string).

Section StrictMux.

(** The handlers are opaque to the router. *)
Context {Hdl : Type}.

(** [strictMux]: the wrapped [mux], kept as the list of the registrations
    it holds, in order, and the set of sanitized patterns seen so far. *)
Record strictMux : Type := mkStrictMux {
  mux : list (string * Hdl);
  seen : gset string
}.

Definition newStrictMux : strictMux := mkStrictMux [] ∅.

(** The loop of line 159,
    [for next := TrimSuffix(sanitized, "/"); next != sanitized; sanitized = next {}]:
    [next] is computed once, in the init statement; each turn tests
    [next != sanitized] and, after the empty body, assigns
    [sanitized = next].  [None] only when the fuel runs out. *)
Fixpoint sanitize_loop (fuel : nat) (next sanitized : string) : option string :=
  if String.eqb next sanitized then Some sanitized
  else match fuel with
       | O => None
       | S fuel' => sanitize_loop fuel' next next
       end.

Definition sanitize (pattern : string) : string :=
  default pattern (sanitize_loop 1 (strings.TrimSuffix pattern "/") pattern).

(** The range loop of lines 166-170: some seen pattern [p] has [p + "/"] as a
    prefix of [sanitized + "/"]. *)
Definition shares (seen : gset string) (sanitized : string) : bool :=
  existsb (fun p => strings.HasPrefix (sanitized +:+ "/") (p +:+ "/")) (elements seen).

(** [http.ServeMux.Handle], the mux the program wraps (line 376), on the
    registrations made so far: it panics on an empty pattern and on a
    pattern it holds already ([None]). *)
Definition ServeMux_Handle (registered : list (string * Hdl)) (pattern : string)
    (handler : Hdl) : option (list (string * Hdl)) :=
  if String.eqb pattern "" then None
  else if existsb (String.eqb pattern) registered.*1 then None
  else Some (registered ++ [(pattern, handler)]).

(** [strictMux.Handle]: the router after the call and the error returned;
    [None] when the wrapped mux panics. *)
Definition Handle (s : strictMux) (pattern : string) (handler : Hdl)
  : option (strictMux * option HandleError) :=
  let sanitized := sanitize pattern in
  if bool_decide (sanitized ∈ seen s) then Some (s, Some (ErrAlreadyRegistered sanitized))
  else if shares (seen s) sanitized then Some (s, Some (ErrSharesRegistered sanitized))
  else
    m ← ServeMux_Handle (mux s) sanitized handler;
    m ← ServeMux_Handle m (sanitized +:+ "/") handler;
    Some (mkStrictMux m ({[ sanitized ]} ∪ seen s), None).

(** A sequence of registrations, stopping at the first error or panic. *)
Fixpoint HandleAll (s : strictMux) (regs : list (string * Hdl))
  : option (strictMux * option HandleError) :=
  match regs with
  | [] => Some (s, None)
  | (pattern, handler) :: rest =>
      r ← Handle s pattern handler;
      match r with
      | (s', None) => HandleAll s' rest
      | (s', Some e) => Some (s', Some e)
      end
  end.

End StrictMux.

Arguments strictMux : clear implicits.
Arguments newStrictMux : clear implicits.


(** ** Errors *)

(** The package-level error variables the handlers test with [errors.Is].
    Their declarations are outside routes.go; only their identity matters. *)
Inductive Sentinel : Type :=
| errModifyResponseFailed
| ErrIllegalLabelMatcher
| ErrQueryParse
| ErrEnforceLabel.

#[global] Instance Sentinel_eq_dec : EqDecision Sentinel.
Proof. solve_decision. Defined.

(** A Go [error] value: its message and the sentinel errors found in its
    chain of wrapped errors. *)
Record error : Type := mkError {
  Error : string;
  chain : list Sentinel
}.

(** [errors.New(msg)], and [fmt.Errorf] without [%w]. *)
Definition errors_New (msg : string) : error := mkError msg [].

(** [fmt.Errorf(prefix + "%w", err)]. *)
Definition fmt_Errorf_w (prefix : string) (err : error) : error :=
  mkError (prefix +:+ Error err) (chain err).

(** [errors.Is(err, target)] for a sentinel target. *)
Definition errors_Is (err : error) (target : Sentinel) : bool :=
  bool_decide (target ∈ chain err).

(** A Go result pair [(value, err)] with exactly one side set. *)
Inductive result (A : Type) : Type :=
| Ok (a : A)
| Err (err : error).
Arguments Ok {A} a.
Arguments Err {A} err.

(** ** Label matchers ([prometheus/model/labels]) *)

Inductive MatchType : Type := MatchEqual | MatchNotEqual | MatchRegexp | MatchNotRegexp.

Record Matcher : Type := mkMatcher {
  Name : string;
  Type_ : MatchType;
  Value : string
}.

Definition MatchType_String (t : MatchType) : string :=
  match t with
  | MatchEqual => "="
  | MatchNotEqual => "!="
  | MatchRegexp => "=~"
  | MatchNotRegexp => "!~"
  end.

(** ** [url.Values] *)

Abbreviation Values := (gmap string (list string)).

(** [v[key]]: a missing key reads as the nil slice. *)
Definition Values_index (v : Values) (key : string) : list string :=
  default [] (v !! key).

(** [v.Get(key)]: the first value of the key, or the empty string. *)
Definition Values_Get (v : Values) (key : string) : string :=
  match Values_index v key with
  | [] => ""
  | x :: _ => x
  end.

(** [v.Set(key, value)]. *)
Definition Values_Set (v : Values) (key value : string) : Values :=
  <[ key := [value] ]> v.

(** ** Requests and effects *)

(** An [io.Reader] read to its end: the bytes it yields, then EOF or an
    error. *)
Record Reader : Type := mkReader {
  data : string;
  failure : option error
}.

(** [strings.NewReader(s)] (wrapped in [io.NopCloser]). *)
Definition strings_NewReader (s : string) : Reader := mkReader s None.

(** [io.ReadAll(r)]: the bytes read, the error if any, and the drained
    reader. *)
Definition io_ReadAll (r : Reader) : string * option error * Reader :=
  (data r, failure r, mkReader "" (failure r)).

(** The fields of [http.Request] the handlers read or write.
    [labelValues] is [ctx.Value(keyLabel)]; [PostForm] reads as empty when it
    is nil. *)
Record Request : Type := mkRequest {
  Method : string;
  RawQuery : string;
  Header : gmap string (list string);
  Body : option Reader;
  ContentLength : Z;
  PostForm : Values;
  labelValues : option (list string)
}.

Definition set_RawQuery (req : Request) (q : string) : Request :=
  mkRequest (Method req) q (Header req) (Body req) (ContentLength req)
            (PostForm req) (labelValues req).

Definition set_Body (req : Request) (b : option Reader) : Request :=
  mkRequest (Method req) (RawQuery req) (Header req) b (ContentLength req)
            (PostForm req) (labelValues req).

Definition set_ContentLength (req : Request) (n : Z) : Request :=
  mkRequest (Method req) (RawQuery req) (Header req) (Body req) n
            (PostForm req) (labelValues req).

Definition set_PostForm (req : Request) (v : Values) : Request :=
  mkRequest (Method req) (RawQuery req) (Header req) (Body req)
            (ContentLength req) v (labelValues req).

(** [r.WithContext(WithLabelValues(r.Context(), labels))]. *)
Definition WithLabelValues (req : Request) (labels : list string) : Request :=
  mkRequest (Method req) (RawQuery req) (Header req) (Body req)
            (ContentLength req) (PostForm req) (Some labels).

(** What a handler does that can be observed: calls on the
    [http.ResponseWriter], and handing the request to [r.handler], the
    reverse proxy to the upstream. *)
Inductive effect : Type :=
| WriteHeader (code : nat)
| Write (body : string)
| ServeUpstream (req : Request).

(** The effects so far, oldest first. *)
Abbreviation ResponseWriter := (list effect).

(** An [http.Handler]; [None] is a panic. *)
Definition Handler : Type := ResponseWriter -> Request -> option ResponseWriter.

(** The status net/http sends: the first [WriteHeader] wins, later calls are
    ignored as superfluous; a [Write] before any [WriteHeader] implies 200;
    [None] when the handler wrote nothing itself (the server then sends 200
    with an empty body, or the upstream's response when the request was
    forwarded). *)
Fixpoint status (w : ResponseWriter) : option nat :=
  match w with
  | [] => None
  | WriteHeader code :: _ => Some code
  | Write _ :: _ => Some 200
  | ServeUpstream _ :: rest => status rest
  end.

(** The requests handed to the upstream. *)
Definition forwarded (w : ResponseWriter) : list Request :=
  omap (fun e => match e with ServeUpstream req => Some req | _ => None end) w.

Definition StatusBadRequest : nat := 400.
Definition StatusNotFound : nat := 404.
Definition StatusInternalServerError : nat := 500.
Definition StatusNotImplemented : nat := 501.
Definition StatusBadGateway : nat := 502.
Definition MethodPost : string := "POST".

Definition queryParam : string := "query".
Definition matchersParam : string := "match[]".

(** A location (the URL query string, the form body) holds a query when
    [v.Get(queryParam)] is not the empty string. *)
Definition has_query (v : Values) : bool :=
  negb (String.eqb (Values_Get v queryParam) "").

(** Modelled from the spec: [prometheusAPIError] is declared outside
    routes.go.  Section 7 maps each error kind to the status code the caller
    passes, with a message; the JSON envelope around the message is not
    modelled. *)
Definition prometheusAPIError (w : ResponseWriter) (errorMessage : string) (code : nat)
  : ResponseWriter :=
  w ++ [WriteHeader code; Write errorMessage].

(** A handler's result is a rejection with [code]: all it did was report an
    error with that status. *)
Definition rejected (code : nat) (w : ResponseWriter) (res : option ResponseWriter) : Prop :=
  exists errorMessage, res = Some (prometheusAPIError w errorMessage code).

(** [r.handler.ServeHTTP(w, req)]: [r.handler] is the reverse proxy. *)
Definition upstream_ServeHTTP : Handler :=
  fun w req => Some (w ++ [ServeUpstream req]).

(** ** The libraries routes.go calls *)

Class External : Type := {
  (** [url.ParseQuery]: the values parsed and the first error met. *)
  url_ParseQuery : string -> Values * option error;
  (** [url.Values.Encode]. *)
  url_Encode : Values -> string;
  (** [Request.ParseForm] of net/http: the request with [PostForm] populated and
      the body consumed, and the error. *)
  http_ParseForm : Request -> Request * option error;
  (** [regexp.Compile] and [Regexp.MatchString]. *)
  Regexp : Type;
  regexp_Compile : string -> result Regexp;
  regexp_MatchString : Regexp -> string -> bool;
  (** [strconv.Quote], used by [labels.Matcher.String]. *)
  strconv_Quote : string -> string;
  (** [labels.NewMatcher(t, name, value)]. *)
  labels_NewMatcher : MatchType -> string -> string -> result Matcher;
  (** [parser.ParseMetricSelector]. *)
  parser_ParseMetricSelector : string -> result (list Matcher);
  (** [NewPromQLEnforcer(errorOnReplace, matcher).Enforce(q)], declared in
      this package outside routes.go. *)
  Enforce : bool -> Matcher -> string -> result string
}.

(** [regexp.QuoteMeta]: a backslash before every byte of [\.+*?()|[]{}^$]. *)
Definition special (b : ascii) : bool :=
  existsb (Ascii.eqb b) (list_ascii_of_string "\.+*?()|[]{}^$").

Fixpoint regexp_QuoteMeta (s : string) : string :=
  match s with
  | EmptyString => EmptyString
  | String b s' =>
      if special b then String "\" (String b (regexp_QuoteMeta s'))
      else String b (regexp_QuoteMeta s')
  end.

(** Go's order on strings, byte by byte. *)
Definition string_le (s1 s2 : string) : Prop := String.leb s1 s2 = true.

#[global] Instance string_le_dec (s1 s2 : string) : Decision (string_le s1 s2).
Proof. unfold string_le. apply _. Defined.

(** [sort.Strings]. *)
Definition sort_Strings (l : list string) : list string := merge_sort string_le l.

(** ** The handlers of routes.go *)

(** The configuration fields of [routes]; [handler] is [upstream_ServeHTTP]. *)
Record routes : Type := mkRoutes {
  label : string;
  errorOnReplace : bool;
  regexMatch : bool;
  rulesWithActiveAlerts : bool;
  bypassQueries : list string
}.

(** [MustLabelValues]: panics when the context holds no label values or an
    empty slice; returns them sorted (it sorts the stored slice in place, so
    a later call sees the same values). *)
Definition MustLabelValues (req : Request) : option (list string) :=
  match labelValues req with
  | None => None
  | Some [] => None
  | Some labels => Some (sort_Strings labels)
  end.

(** [MustLabelValue]: [MustLabelValues(ctx)[0]]. *)
Definition MustLabelValue (req : Request) : option string :=
  v ← MustLabelValues req; head v.

Section Handlers.

Context `{External}.

(** [labels.Matcher.String]: name, operator, quoted value. *)
Definition Matcher_String (m : Matcher) : string :=
  Name m +:+ MatchType_String (Type_ m) +:+ strconv_Quote (Value m).

(** [matchersToString] (lines 769-775). *)
Definition matchersToString (ms : list Matcher) : string :=
  "{" +:+ strings.Join (map Matcher_String ms) "," +:+ "}".

(** [labelValuesToRegexpString] (lines 539-546). *)
Definition labelValuesToRegexpString (labelValues : list string) : string :=
  strings.Join (map regexp_QuoteMeta labelValues) "|".

(** *** The bypass check (lines 205-253) *)

(** [req.URL.Query()]: the parse error is dropped. *)
Definition URL_Query (req : Request) : Values := fst (url_ParseQuery (RawQuery req)).

(** [extractQueryParam]: the request as the call leaves it (the body replaced
    by a reader over the bytes read) and the result. *)
Definition extractQueryParam (req : Request) : Request * result string :=
  let q := Values_Get (URL_Query req) "query" in
  if negb (String.eqb q "") then (req, Ok q)
  else
    match String.eqb (Method req) MethodPost, Body req with
    | true, Some body =>
        let '(bodyBytes, rerr, drained) := io_ReadAll body in
        match rerr with
        | Some err =>
            (set_Body req (Some drained),
             Err (fmt_Errorf_w "failed to read request body: " err))
        | None =>
            let req := set_Body req (Some (strings_NewReader bodyBytes)) in
            match url_ParseQuery bodyBytes with
            | (_, Some err) => (req, Err (fmt_Errorf_w "failed to parse form data: " err))
            | (form, None) =>
                let q := Values_Get form "query" in
                if negb (String.eqb q "") then (req, Ok q)
                else (req, Err (errors_New "no query parameter found in URL or form data"))
            end
        end
    | _, _ => (req, Err (errors_New "no query parameter found in URL or form data"))
    end.

(** [slices.Contains]. *)
Definition slices_Contains (l : list string) (x : string) : bool :=
  existsb (String.eqb x) l.

(** [bypassHandler]. *)
Definition bypassHandler (bypassQueries : list string) (upstream enforcerChain : Handler)
  : Handler :=
  fun w r =>
    if (0 <? length bypassQueries)%nat then
      match extractQueryParam r with
      | (r, Ok qry) =>
          if slices_Contains bypassQueries qry then upstream w r
          else enforcerChain w r
      | (r, Err _) => enforcerChain w r
      end
    else enforcerChain w r.

(** *** The proxy error handler (lines 477-484) *)

(** [routes.errorHandler]: no [return] follows the first [WriteHeader]. *)
Definition errorHandler (rw : ResponseWriter) (err : error) : ResponseWriter :=
  let rw := if errors_Is err errModifyResponseFailed
            then rw ++ [WriteHeader StatusBadRequest] else rw in
  rw ++ [WriteHeader StatusBadGateway].

(** [enforceMethods] (lines 486-496); [http.NotFound] writes a 404. *)
Definition enforceMethods (h : Handler) (methods : list string) : Handler :=
  fun w req =>
    if existsb (String.eqb (Method req)) methods then h w req
    else Some (w ++ [WriteHeader StatusNotFound; Write "404 page not found"]).

(** [StaticLabelEnforcer.ExtractLabel] (lines 343-351). *)
Definition StaticLabelEnforcer_ExtractLabel (sle : list string) (next : Handler) : Handler :=
  fun w r => next w (WithLabelValues r sle).

(** *** Query-expression endpoints (lines 557-666) *)

(** The matcher built at lines 558-592, or the rejection written instead. *)
Inductive built : Type :=
| Reject (errorMessage : string) (code : nat)
| Inject (matcher : Matcher).

Definition queryMatcher (r : routes) (req : Request) : option built :=
  vs ← MustLabelValues req;
  if (1 <? length vs)%nat then
    if regexMatch r then
      Some (Reject "Only one label value allowed with regex match" StatusBadRequest)
    else
      vs ← MustLabelValues req;
      Some (Inject (mkMatcher (label r) MatchRegexp (labelValuesToRegexpString vs)))
  else
    matcherValue ← MustLabelValue req;
    if regexMatch r then
      match regexp_Compile matcherValue with
      | Err err => Some (Reject (Error err) StatusBadRequest)
      | Ok compiledRegex =>
          if regexp_MatchString compiledRegex "" then
            Some (Reject "Regex should not match empty string" StatusBadRequest)
          else Some (Inject (mkMatcher (label r) MatchRegexp matcherValue))
      end
    else Some (Inject (mkMatcher (label r) MatchEqual matcherValue)).

(** [enforceQueryValues]: the map as the call leaves it ([v.Set] writes into
    it), the encoded values, whether a query was found, and the error. *)
Definition enforceQueryValues (e : string -> result string) (v : Values)
  : Values * string * bool * option error :=
  if String.eqb (Values_Get v queryParam) "" then (v, url_Encode v, false, None)
  else
    match e (Values_Get v queryParam) with
    | Err err => (v, "", true, Some err)
    | Ok q =>
        let v := Values_Set v queryParam q in
        (v, url_Encode v, true, None)
    end.

(** The [switch] of lines 603-610 and 624-631: it has no default case. *)
Definition enforceFailed (w : ResponseWriter) (err : error) : ResponseWriter :=
  if errors_Is err ErrIllegalLabelMatcher then prometheusAPIError w (Error err) StatusBadRequest
  else if errors_Is err ErrQueryParse then prometheusAPIError w (Error err) StatusBadRequest
  else if errors_Is err ErrEnforceLabel then
    prometheusAPIError w (Error err) StatusInternalServerError
  else w.

(** Lines 594-648 of [routes.query]: enforcing [matcher] in the URL query
    and, for a POST, in the form body, then forwarding.
    [req.Body.Close()] has no effect here: the body of a server request is
    never nil. *)
Definition queryEnforce (r : routes) (matcher : Matcher) : Handler :=
  fun w req =>
    let e := Enforce (errorOnReplace r) matcher in
    match enforceQueryValues e (URL_Query req) with
    | (_, _, _, Some err) => Some (enforceFailed w err)
    | (_, q, found1, None) =>
        let req := set_RawQuery req q in
        (* lines 642-647, reached with [found2] false when not a POST *)
        let finish (w : ResponseWriter) (req : Request) (found2 : bool) :=
          if negb found1 && negb found2 then Some w
          else upstream_ServeHTTP w req in
        if String.eqb (Method req) MethodPost then
          let '(req, perr) := http_ParseForm req in
          (* no [return] follows this error *)
          let w := match perr with
                   | Some err => prometheusAPIError w (Error err) StatusBadRequest
                   | None => w
                   end in
          match enforceQueryValues e (PostForm req) with
          | (_, _, _, Some err) => Some (enforceFailed w err)
          | (form, q, found2, None) =>
              let req := set_PostForm req form in
              let req := set_Body req (Some (strings_NewReader q)) in
              let req := set_ContentLength req (Z.of_nat (String.length q)) in
              finish w req found2
          end
        else finish w req false
    end.

(** [routes.query]. *)
Definition query (r : routes) : Handler :=
  fun w req =>
    b ← queryMatcher r req;
    match b with
    | Reject errorMessage code => Some (prometheusAPIError w errorMessage code)
    | Inject matcher => queryEnforce r matcher w req
    end.

(** *** Selector-list endpoints (lines 668-775) *)

(** [routes.newLabelMatcher]. *)
Definition newLabelMatcher (r : routes) (vals : list string) : result Matcher :=
  if regexMatch r then
    match vals with
    | [re] =>
        match regexp_Compile re with
        | Err err => Err (fmt_Errorf_w "invalid regex: " err)
        | Ok compiledRegex =>
            if regexp_MatchString compiledRegex "" then
              Err (errors_New "regex should not match empty string")
            else labels_NewMatcher MatchRegexp (label r) re
        end
    | _ => Err (errors_New "only one label value allowed with regex match")
    end
  else
    match vals with
    | [v] => Ok (mkMatcher (label r) MatchEqual v)
    | _ => labels_NewMatcher MatchRegexp (label r) (labelValuesToRegexpString vals)
    end.

(** The loop of lines 756-763 over the occurrences not yet rewritten: the
    occurrences as the loop leaves them and the error that stopped it.  The
    slice is the one stored in [q], so what was rewritten before an error
    stays rewritten. *)
Fixpoint injectEach (matchers : list string) (matcher : Matcher)
  : list string * option error :=
  match matchers with
  | [] => ([], None)
  | m :: rest =>
      match parser_ParseMetricSelector m with
      | Err err => (m :: rest, Some err)
      | Ok ms =>
          let '(rest', err) := injectEach rest matcher in
          (matchersToString (ms ++ [matcher]) :: rest', err)
      end
  end.

(** [injectMatcher]: [q] as the call leaves it and the error. *)
Definition injectMatcher (q : Values) (matcher : Matcher) : Values * option error :=
  let matchers := Values_index q matchersParam in
  if (length matchers =? 0)%nat then
    (Values_Set q matchersParam (matchersToString [matcher]), None)
  else
    let '(matchers, err) := injectEach matchers matcher in
    (<[ matchersParam := matchers ]> q, err).

(** [routes.matcher]. *)
Definition matcher (r : routes) : Handler :=
  fun w req =>
    vals ← MustLabelValues req;
    match newLabelMatcher r vals with
    | Err err => Some (prometheusAPIError w (Error err) StatusBadRequest)
    | Ok matcher =>
        match injectMatcher (URL_Query req) matcher with
        | (_, Some err) => Some (prometheusAPIError w (Error err) StatusBadRequest)
        | (q, None) =>
            let req := set_RawQuery req (url_Encode q) in
            if String.eqb (Method req) MethodPost then
              match http_ParseForm req with
              | (_, Some _) => Some w
              | (req, None) =>
                  match injectMatcher (PostForm req) matcher with
                  | (_, Some _) => Some w
                  | (q, None) =>
                      let req := set_PostForm req q in
                      let newBody := url_Encode q in
                      let req := set_Body req (Some (strings_NewReader newBody)) in
                      let req := set_ContentLength req (Z.of_nat (String.length newBody)) in
                      upstream_ServeHTTP w req
                  end
              end
            else upstream_ServeHTTP w req
        end
    end.

End Handlers.

(** ** Executable stand-ins for the libraries

    Small implementations of the fields of [External], used to run the
    handlers on concrete requests.  Each follows the Go library on the
    fragment its comment names and reports an error outside it. *)

Module Sample.

Definition dquote : ascii := "034"%char.
Definition backslash : ascii := "\"%char.

Definition in_range (lo hi c : ascii) : bool :=
  (nat_of_ascii lo <=? nat_of_ascii c)%nat && (nat_of_ascii c <=? nat_of_ascii hi)%nat.

Definition is_digit (c : ascii) : bool := in_range "0" "9" c.
Definition is_alpha (c : ascii) : bool := in_range "a" "z" c || in_range "A" "Z" c.

(** [strings.Cut(s, sep)] for a one-byte separator, without the [found]
    flag. *)
Fixpoint cut (sep : ascii) (s : string) : string * string :=
  match s with
  | EmptyString => (EmptyString, EmptyString)
  | String c rest =>
      if Ascii.eqb c sep then (EmptyString, rest)
      else let '(before, after) := cut sep rest in (String c before, after)
  end.

Definition contains (c : ascii) (s : string) : bool :=
  existsb (Ascii.eqb c) (list_ascii_of_string s).

(** *** net/url, on byte strings *)

Definition ishex (c : ascii) : bool :=
  is_digit c || in_range "a" "f" c || in_range "A" "F" c.

Definition unhex (c : ascii) : nat :=
  if is_digit c then nat_of_ascii c - nat_of_ascii "0"
  else if in_range "a" "f" c then nat_of_ascii c - nat_of_ascii "a" + 10
  else nat_of_ascii c - nat_of_ascii "A" + 10.

(** [url.QueryUnescape]. *)
Fixpoint QueryUnescape (s : string) : option string :=
  match s with
  | EmptyString => Some EmptyString
  | String c rest =>
      if Ascii.eqb c "%" then
        match rest with
        | String a (String b rest') =>
            if ishex a && ishex b then
              String (ascii_of_nat (16 * unhex a + unhex b)) <$> QueryUnescape rest'
            else None
        | _ => None
        end
      else if Ascii.eqb c "+" then String " " <$> QueryUnescape rest
      else String c <$> QueryUnescape rest
  end.

Definition upperhex (n : nat) : ascii :=
  default "0"%char (list_ascii_of_string "0123456789ABCDEF" !! n).

(** [shouldEscape(c, encodeQueryComponent)]. *)
Definition shouldEscape (c : ascii) : bool :=
  negb (is_alpha c || is_digit c || contains c "-_.~").

(** [url.QueryEscape]. *)
Fixpoint QueryEscape (s : string) : string :=
  match s with
  | EmptyString => EmptyString
  | String c rest =>
      if Ascii.eqb c " " then String "+" (QueryEscape rest)
      else if shouldEscape c then
        String "%" (String (upperhex (nat_of_ascii c / 16))
                           (String (upperhex (nat_of_ascii c mod 16)) (QueryEscape rest)))
      else String c (QueryEscape rest)
  end.

(** The loop of [url.parseQuery]; every turn shortens [query]. *)
Fixpoint parseQuery (fuel : nat) (m : Values) (err : option error) (query : string)
  : Values * option error :=
  match fuel with
  | O => (m, err)
  | S fuel =>
      if String.eqb query "" then (m, err)
      else
        let '(key, query) := cut "&" query in
        if contains ";" key then
          parseQuery fuel m (Some (errors_New "invalid semicolon separator in query")) query
        else if String.eqb key "" then parseQuery fuel m err query
        else
          let '(key, value) := cut "=" key in
          match QueryUnescape key, QueryUnescape value with
          | Some key, Some value =>
              parseQuery fuel (<[ key := Values_index m key ++ [value] ]> m) err query
          | _, _ =>
              parseQuery fuel m
                (Some (default (errors_New "invalid URL escape") err)) query
          end
  end.

Definition ParseQuery (query : string) : Values * option error :=
  parseQuery (S (String.length query)) ∅ None query.

Definition key_le (a b : string * list string) : Prop := string_le (fst a) (fst b).

#[local] Instance key_le_dec (a b : string * list string) : Decision (key_le a b).
Proof. unfold key_le. apply _. Defined.

(** [url.Values.Encode]: keys in sorted order, [key=value] joined by [&]. *)
Definition Encode (v : Values) : string :=
  strings.Join
    (flat_map (fun '(k, vs) => map (fun x => QueryEscape k +:+ "=" +:+ QueryEscape x) vs)
              (merge_sort key_le (map_to_list v)))
    "&".

(** *** net/http, for url-encoded forms *)

(** [Request.ParseForm] for a request whose post form was not parsed yet:
    for POST, PUT and PATCH with the url-encoded content type the body is
    read and parsed into [PostForm]. *)
Definition ParseForm (req : Request) : Request * option error :=
  if existsb (String.eqb (Method req)) ["POST"; "PUT"; "PATCH"] then
    match Body req with
    | None => (req, Some (errors_New "missing form body"))
    | Some body =>
        if String.eqb (Values_Get (Header req) "Content-Type")
                      "application/x-www-form-urlencoded" then
          let '(b, rerr, drained) := io_ReadAll body in
          match rerr with
          | Some err => (set_Body req (Some drained), Some err)
          | None =>
              let '(vs, perr) := ParseQuery b in
              (set_PostForm (set_Body req (Some drained)) vs, perr)
          end
        else (set_PostForm req ∅, None)
    end
  else (set_PostForm req ∅, None).

(** *** regexp, for patterns of literals, [.], [|] and one postfix
    [*], [+] or [?] per atom *)

Inductive re : Type :=
| Void
| Eps
| Byte (b : ascii)
| Dot
| Wild
| Cat (r1 r2 : re)
| Alt (r1 r2 : re)
| Star (r : re).

Fixpoint nullable (r : re) : bool :=
  match r with
  | Void | Byte _ | Dot | Wild => false
  | Eps | Star _ => true
  | Cat r1 r2 => nullable r1 && nullable r2
  | Alt r1 r2 => nullable r1 || nullable r2
  end.

(** The derivative of [r] by the byte [c]; [Dot] is any byte but a newline,
    [Wild] any byte. *)
Fixpoint deriv (c : ascii) (r : re) : re :=
  match r with
  | Void | Eps => Void
  | Byte b => if Ascii.eqb b c then Eps else Void
  | Dot => if Ascii.eqb c "010" then Void else Eps
  | Wild => Eps
  | Cat r1 r2 =>
      if nullable r1 then Alt (Cat (deriv c r1) r2) (deriv c r2)
      else Cat (deriv c r1) r2
  | Alt r1 r2 => Alt (deriv c r1) (deriv c r2)
  | Star r1 => Cat (deriv c r1) (Star r1)
  end.

Fixpoint matches (r : re) (s : string) : bool :=
  match s with
  | EmptyString => nullable r
  | String c rest => matches (deriv c r) rest
  end.

(** [MatchString] is not anchored. *)
Definition MatchString (r : re) (s : string) : bool :=
  matches (Cat (Star Wild) (Cat r (Star Wild))) s.

Definition is_quantifier (c : ascii) : bool := contains c "*+?".

Definition atom_of (c : ascii) : option re :=
  if contains c "\()[]{}^$|*+?" then None
  else if Ascii.eqb c "." then Some Dot
  else Some (Byte c).

Definition quantify (q : ascii) (a : re) : re :=
  if Ascii.eqb q "*" then Star a
  else if Ascii.eqb q "+" then Cat a (Star a)
  else Alt a Eps.

(** One alternative: atoms, each with at most one quantifier. *)
Fixpoint parse_concat (s : string) : option re :=
  match s with
  | EmptyString => Some Eps
  | String c rest =>
      a ← atom_of c;
      match rest with
      | String q rest' =>
          if is_quantifier q then
            match rest' with
            | String q' _ => if is_quantifier q' then None
                             else Cat (quantify q a) <$> parse_concat rest'
            | EmptyString => Some (quantify q a)
            end
          else Cat a <$> parse_concat rest
      | EmptyString => Some a
      end
  end.

(** The alternatives, split at [|]; every turn shortens [s]. *)
Fixpoint parse_alt (fuel : nat) (s : string) : option re :=
  match fuel with
  | O => None
  | S fuel =>
      let '(first, rest) := cut "|" s in
      r ← parse_concat first;
      if contains "|" s then Alt r <$> parse_alt fuel rest else Some r
  end.

Definition Compile (expr : string) : result re :=
  match parse_alt (S (String.length expr)) expr with
  | Some r => Ok r
  | None => Err (errors_New ("error parsing regexp: " +:+ expr))
  end.

(** *** strconv and labels *)

(** [strconv.Quote] for printable ASCII. *)
Fixpoint quote_body (s : string) : string :=
  match s with
  | EmptyString => EmptyString
  | String c rest =>
      if Ascii.eqb c dquote || Ascii.eqb c backslash
      then String backslash (String c (quote_body rest))
      else String c (quote_body rest)
  end.

Definition Quote (s : string) : string :=
  String dquote (quote_body s) +:+ String dquote EmptyString.

(** [labels.NewMatcher]: a regular-expression matcher needs a value that
    compiles. *)
Definition NewMatcher (t : MatchType) (n v : string) : result Matcher :=
  match t with
  | MatchRegexp | MatchNotRegexp =>
      match Compile v with
      | Ok _ => Ok (mkMatcher n t v)
      | Err err => Err err
      end
  | _ => Ok (mkMatcher n t v)
  end.

(** *** The selector parser, for [name], [name{...}] and [{...}] without
    blanks *)

Fixpoint span (p : ascii -> bool) (s : string) : string * string :=
  match s with
  | EmptyString => (EmptyString, EmptyString)
  | String c rest =>
      if p c then let '(a, b) := span p rest in (String c a, b)
      else (EmptyString, s)
  end.

Definition is_name_char (c : ascii) : bool :=
  is_alpha c || is_digit c || contains c "_:".

Definition is_label_char (c : ascii) : bool :=
  is_alpha c || is_digit c || contains c "_".

Definition starts_with_digit (s : string) : bool :=
  match s with
  | String c _ => is_digit c
  | EmptyString => false
  end.

(** The rest of a quoted string after its opening quote: the value and what
    follows the closing quote. *)
Fixpoint string_lit (s : string) : option (string * string) :=
  match s with
  | EmptyString => None
  | String c rest =>
      if Ascii.eqb c dquote then Some (EmptyString, rest)
      else if Ascii.eqb c backslash then
        match rest with
        | String e rest' =>
            if Ascii.eqb e dquote || Ascii.eqb e backslash then
              '(v, after) ← string_lit rest'; Some (String e v, after)
            else None
        | EmptyString => None
        end
      else '(v, after) ← string_lit rest; Some (String c v, after)
  end.

Definition parse_op (s : string) : option (MatchType * string) :=
  match s with
  | String a (String b rest) =>
      if Ascii.eqb a "=" && Ascii.eqb b "~" then Some (MatchRegexp, rest)
      else if Ascii.eqb a "!" && Ascii.eqb b "=" then Some (MatchNotEqual, rest)
      else if Ascii.eqb a "!" && Ascii.eqb b "~" then Some (MatchNotRegexp, rest)
      else if Ascii.eqb a "=" then Some (MatchEqual, String b rest)
      else None
  | _ => None
  end.

(** The matchers after the opening brace, up to the closing one.  Every turn
    shortens [s]. *)
Fixpoint parse_matchers (fuel : nat) (s : string) (acc : list Matcher)
  : option (list Matcher * string) :=
  match fuel with
  | O => None
  | S fuel =>
      match s with
      | String c rest =>
          if Ascii.eqb c "}" then Some (acc, rest)
          else
            let '(name, s1) := span is_label_char s in
            if String.eqb name "" || starts_with_digit name then None
            else
              '(op, s2) ← parse_op s1;
              match s2 with
              | String d s3 =>
                  if Ascii.eqb d dquote then
                    '(v, s4) ← string_lit s3;
                    let acc := acc ++ [mkMatcher name op v] in
                    match op, Compile v with
                    | (MatchRegexp | MatchNotRegexp), Err _ => None
                    | _, _ =>
                        match s4 with
                        | String e s5 =>
                            if Ascii.eqb e "," then parse_matchers fuel s5 acc
                            else if Ascii.eqb e "}" then Some (acc, s5)
                            else None
                        | EmptyString => None
                        end
                    end
                  else None
              | EmptyString => None
              end
      | EmptyString => None
      end
  end.

(** A selector: the metric name (possibly empty) and the matchers in
    braces. *)
Definition parse_selector (s : string) : option (string * list Matcher) :=
  let '(name, rest) := span is_name_char s in
  if starts_with_digit name then None
  else
    match rest with
    | EmptyString => if String.eqb name "" then None else Some (name, [])
    | String c rest' =>
        if Ascii.eqb c "{" then
          match parse_matchers (S (String.length rest')) rest' [] with
          | Some (ms, EmptyString) =>
              if String.eqb name "" && (length ms =? 0)%nat then None
              else Some (name, ms)
          | _ => None
          end
        else None
    end.

(** [parser.ParseMetricSelector]: the matchers in braces, then the matcher
    on [__name__] for the metric name. *)
Definition ParseMetricSelector (s : string) : result (list Matcher) :=
  match parse_selector s with
  | Some (name, ms) =>
      Ok (ms ++ if String.eqb name "" then [] else [mkMatcher "__name__" MatchEqual name])
  | None => Err (errors_New ("parse error: " +:+ s))
  end.

Definition Matcher_eqb (a b : Matcher) : bool :=
  String.eqb (Name a) (Name b)
  && String.eqb (MatchType_String (Type_ a)) (MatchType_String (Type_ b))
  && String.eqb (Value a) (Value b).

(** Modelled from the spec: the enforcer's walk over one selector
    (section 4.3 (a); [NewPromQLEnforcer] and [Enforce] are declared outside
    routes.go).  The tenant matcher is appended; a matcher already present on
    the tenant label is replaced, or, with error-on-replace, a conflicting
    one fails with the illegal-matcher error. *)
Definition enforce_selector (errorOnReplace : bool) (m : Matcher) (ms : list Matcher)
  : result (list Matcher) :=
  let on_label t := String.eqb (Name t) (Name m) in
  if errorOnReplace && existsb (fun t => on_label t && negb (Matcher_eqb t m)) ms then
    Err (mkError "label matcher value conflicts with injected value" [ErrIllegalLabelMatcher])
  else Ok (filter (fun t => negb (on_label t)) ms ++ [m]).

(** Modelled from the spec: [Enforce] for a query that is one selector:
    parse, enforce, print back as the metric name followed by the
    brace-delimited matcher list. *)
Definition Enforce_selector (quote : string -> string) (errorOnReplace : bool)
    (m : Matcher) (q : string) : result string :=
  match parse_selector q with
  | None => Err (mkError ("parse error: " +:+ q) [ErrQueryParse])
  | Some (name, ms) =>
      match enforce_selector errorOnReplace m ms with
      | Err err => Err err
      | Ok ms' =>
          Ok (name +:+ "{"
              +:+ strings.Join
                    (map (fun t => Name t +:+ MatchType_String (Type_ t) +:+ quote (Value t)) ms')
                    ","
              +:+ "}")
      end
  end.

Definition external : External := {|
  url_ParseQuery := ParseQuery;
  url_Encode := Encode;
  http_ParseForm := ParseForm;
  Regexp := re;
  regexp_Compile := Compile;
  regexp_MatchString := MatchString;
  strconv_Quote := Quote;
  labels_NewMatcher := NewMatcher;
  parser_ParseMetricSelector := ParseMetricSelector;
  Enforce := Enforce_selector Quote
|}.

(** Requests as the server hands them to a handler, after the label
    extractor stored [labels] in the context. *)
Definition GET (rawQuery : string) (labels : list string) : Request :=
  mkRequest "GET" rawQuery ∅ (Some (strings_NewReader "")) 0 ∅ (Some labels).

Definition POST (rawQuery body : string) (labels : list string) : Request :=
  mkRequest "POST" rawQuery
            {[ "Content-Type" := ["application/x-www-form-urlencoded"] ]}
            (Some (strings_NewReader body)) (Z.of_nat (String.length body)) ∅
            (Some labels).

End Sample.

(** ** More of Go's [strings] package *)

(** [s[n:]]. *)
Fixpoint string_skip (n : nat) (s : string) : string :=
  match n, s with
  | O, _ => s
  | S n', String _ s' => string_skip n' s'
  | S _, EmptyString => EmptyString
  end.

(** [strings.Cut(s, sep)]: the text before and after the first occurrence of
    [sep], [None] when there is none. *)
Fixpoint strings_Cut (s sep : string) : option (string * string) :=
  if strings.HasPrefix s sep then Some (EmptyString, string_skip (String.length sep) s)
  else match s with
       | EmptyString => None
       | String c s' =>
           '(before, after) ← strings_Cut s' sep; Some (String c before, after)
       end.

(** The pieces of [strings.Split(s, sep)] for a non-empty [sep], cut from the
    left; every cut shortens [s]. *)
Fixpoint Split_pieces (fuel : nat) (s sep : string) : list string :=
  match fuel with
  | O => [s]
  | S fuel =>
      match strings_Cut s sep with
      | None => [s]
      | Some (before, after) => before :: Split_pieces fuel after sep
      end
  end.

(** [strings.Split(s, sep)], for a non-empty separator. *)
Definition strings_Split (s sep : string) : list string :=
  Split_pieces (String.length s) s sep.

(** Splitting at one byte, by structural recursion: what [strings_Split]
    computes for a one-byte separator. *)
Fixpoint split_byte (c : ascii) (s : string) : list string :=
  match s with
  | EmptyString => [EmptyString]
  | String x s' =>
      if Ascii.eqb x c then EmptyString :: split_byte c s'
      else match split_byte c s' with
           | piece :: pieces => String x piece :: pieces
           | [] => [String x EmptyString]
           end
  end.

(** ** Go slices of strings

    A slice that starts at the first element of its backing array: the array
    up to the slice's capacity, and the slice's length. *)
Record slice : Type := mkSlice {
  array : list string;
  len : nat
}.

(** The elements of the slice, and its capacity. *)
Definition elems (s : slice) : list string := take (len s) (array s).
Definition cap (s : slice) : nat := length (array s).

(** The slice a helper works on, and the array of its caller's slice once
    the helper's slice has moved to an array of its own ([None] while both
    are on the same array). *)
Record tracked : Type := mkTracked {
  cur : slice;
  behind : option (list string)
}.

(** The array the caller's slice is on. *)
Definition caller_array (t : tracked) : list string :=
  default (array (cur t)) (behind t).

(** What the libraries choose: the text functions whose result depends on
    Unicode tables, [url.Parse], the capacity [append] gives a new array and
    the capacity net/http left in a header's slice of values. *)
Class Library : Type := {
  (** [strings.ToUpper]. *)
  strings_ToUpper : string -> string;
  (** [strings.TrimSpace]. *)
  strings_TrimSpace : string -> string;
  (** [url.Parse(rawURL)]: the [Path] of the parsed URL, or the error. *)
  url_Parse_Path : string -> result string;
  (** The capacity of the array [append] allocates, from the old capacity
      and the length needed; it is never taken below that length. *)
  growslice : nat -> nat -> nat;
  (** [cap(r.Header[name]) - len(r.Header[name])]. *)
  Header_spare : Request -> string -> nat
}.

(** ** The slice helpers (routes.go, lines 777-816) *)

Section TextHelpers.

Context `{Library}.

(** [append(slice[:i], xs...)]: in the slice's array when its capacity
    allows, and otherwise in a new array, which leaves the caller's array
    behind. *)
Definition append_at (t : tracked) (i : nat) (xs : list string) : tracked :=
  let s := cur t in
  let n := (i + length xs)%nat in
  if (n <=? cap s)%nat then
    mkTracked (mkSlice (take i (array s) ++ xs ++ drop n (array s)) n) (behind t)
  else
    mkTracked (mkSlice (take i (array s) ++ xs
                        ++ replicate (growslice (cap s) n - n) EmptyString) n)
              (Some (caller_array t)).

(** The loop of [splitValues]: [i] is the index of the next element to
    split.  The inner [append(splitResult, slice[i+1:]...)] builds its
    result away from the slice's array. *)
Fixpoint splitValues_loop (fuel : nat) (i : nat) (t : tracked) (sep : string)
  : option tracked :=
  match fuel with
  | O => None
  | S fuel =>
      if (i <? len (cur t))%nat then
        x ← elems (cur t) !! i;
        let splitResult := strings_Split x sep in
        splitValues_loop fuel (i + length splitResult)
                         (append_at t i (splitResult ++ drop (S i) (elems (cur t)))) sep
      else Some t
  end.

(** [splitValues]; [None] only when the fuel runs out. *)
Definition splitValues (t : tracked) (sep : string) : option tracked :=
  splitValues_loop (S (len (cur t))) 0 t sep.

(** The loop of [removeEmptyValues]: the index is a Go [int]; after a removal
    [i--] and the loop's [i++] leave it where it was.  Indexing below zero
    panics. *)
Fixpoint removeEmptyValues_loop (fuel : nat) (i : Z) (t : tracked) : option tracked :=
  match fuel with
  | O => None
  | S fuel =>
      if (i <? Z.of_nat (len (cur t)))%Z then
        if (i <? 0)%Z then None
        else
          x ← elems (cur t) !! Z.to_nat i;
          if String.eqb x "" then
            removeEmptyValues_loop fuel (i - 1 + 1)%Z
              (append_at t (Z.to_nat i) (drop (Z.to_nat (i + 1)) (elems (cur t))))
          else removeEmptyValues_loop fuel (i + 1)%Z t
      else Some t
  end.

(** [removeEmptyValues]; [None] when the fuel runs out or on a panic. *)
Definition removeEmptyValues (t : tracked) : option tracked :=
  removeEmptyValues_loop (S (len (cur t))) 0 t.

(** The loop of [trimValues]: [slice[i] = ...] writes into the array. *)
Fixpoint trimValues_loop (fuel : nat) (i : nat) (t : tracked) : option tracked :=
  match fuel with
  | O => None
  | S fuel =>
      if (i <? len (cur t))%nat then
        x ← elems (cur t) !! i;
        trimValues_loop fuel (S i)
          (mkTracked (mkSlice (<[ i := strings_TrimSpace x ]> (array (cur t))) (len (cur t)))
                     (behind t))
      else Some t
  end.

(** [trimValues]; [None] only when the fuel runs out. *)
Definition trimValues (t : tracked) : option tracked :=
  trimValues_loop (S (len (cur t))) 0 t.

(** [humanFriendlyErrorMessage] (lines 777-785): [errMsg[:1]] panics on an
    empty message; [None] is that panic. *)
Definition humanFriendlyErrorMessage (err : option error) : option string :=
  match err with
  | None => Some EmptyString
  | Some err =>
      match Error err with
      | EmptyString => None
      | String c rest => Some (strings_ToUpper (String c EmptyString) +:+ rest +:+ ".")
      end
  end.

End TextHelpers.

(** ** The header label extractor (routes.go, lines 308-341) *)

Definition set_Header (req : Request) (h : gmap string (list string)) : Request :=
  mkRequest (Method req) (RawQuery req) h (Body req) (ContentLength req)
            (PostForm req) (labelValues req).

Module HTTPHeaderEnforcer.

Record HTTPHeaderEnforcer : Type := mk {
  Name : string;
  ParseListSyntax : bool
}.

Section Methods.

Context `{External} `{Library}.

(** The slice [r.Header[hhe.Name]], a plain map index: its values, on an
    array with the spare capacity net/http left. *)
Definition header_slice (hhe : HTTPHeaderEnforcer) (r : Request) : tracked :=
  let headerValues := Values_index (Header r) (Name hhe) in
  mkTracked (mkSlice (headerValues ++ replicate (Header_spare r (Name hhe)) EmptyString)
                     (length headerValues))
            None.

(** [HTTPHeaderEnforcer.getLabelValues]: the result, and the values
    [r.Header[hhe.Name]] holds when the call returns: the helpers work on the
    header's own slice, whose length in the map stays what it was.  [None]
    when a helper runs out of fuel. *)
Definition getLabelValues (hhe : HTTPHeaderEnforcer) (r : Request)
  : option (result (list string) * list string) :=
  let headerValues := header_slice hhe r in
  headerValues ← (if ParseListSyntax hhe
                  then split ← splitValues headerValues ","; trimValues split
                  else Some headerValues);
  headerValues ← removeEmptyValues headerValues;
  let after := take (len (cur (header_slice hhe r))) (caller_array headerValues) in
  if (len (cur headerValues) =? 0)%nat then
    Some (Err (errors_New ("missing HTTP header " +:+ strconv_Quote (Name hhe))), after)
  else Some (Ok (elems (cur headerValues)), after).

(** The values [getLabelValues] keeps: the header values, split at commas and
    trimmed when the list syntax is on, without the empty ones. *)
Definition header_values (hhe : HTTPHeaderEnforcer) (r : Request) : list string :=
  filter (fun x => x <> "")
         (if ParseListSyntax hhe
          then map strings_TrimSpace
                   (flat_map (split_byte ",") (Values_index (Header r) (Name hhe)))
          else Values_index (Header r) (Name hhe)).

(** [HTTPHeaderEnforcer.ExtractLabel]: the request goes on with the header
    as [getLabelValues] left it. *)
Definition ExtractLabel (hhe : HTTPHeaderEnforcer) (next : Handler) : Handler :=
  fun w r =>
    '(res, after) ← getLabelValues hhe r;
    match res with
    | Err err =>
        msg ← humanFriendlyErrorMessage (Some err);
        Some (prometheusAPIError w msg StatusBadRequest)
    | Ok labelValues =>
        let r := set_Header r (alter (fun _ => after) (Name hhe) (Header r)) in
        next w (WithLabelValues r labelValues)
    end.

End Methods.

End HTTPHeaderEnforcer.

(** ** What the upstream must receive on selector-list endpoints *)

(** Every occurrence of the matcher parameter in [q] is a serialized matcher
    list that ends with [m], and there is at least one. *)
Definition tenant_enforced `{External} (m : Matcher) (q : Values) : Prop :=
  Values_index q matchersParam <> []
  /\ Forall (fun s => exists sel, s = matchersToString (sel ++ [m]))
            (Values_index q matchersParam).

(** What [enforceQueryValues] leaves in a location when it returns no error:
    the values as they were when the location holds no query, and otherwise
    the values with the query parameter set to the one enforced query. *)
Definition enforced_in (e : string -> result string) (before after : Values) : Prop :=
  (has_query before = false /\ after = before)
  \/ (has_query before = true
      /\ exists q, e (Values_Get before queryParam) = Ok q
                   /\ after = <[ queryParam := [q] ]> before).

(** What net/http's [ParseForm] leaves alone: it reads the body and fills the
    form fields, nothing else. *)
Definition ParseForm_frame `{External} : Prop :=
  forall r0 r1 err, http_ParseForm r0 = (r1, err) ->
    Method r1 = Method r0 /\ RawQuery r1 = RawQuery r0
    /\ Header r1 = Header r0 /\ labelValues r1 = labelValues r0.

(** ** Reading an alternation of quoted values back *)

Definition prepend (c : ascii) (pieces : list string) : list string :=
  match pieces with
  | piece :: rest => String c piece :: rest
  | [] => [String c EmptyString]
  end.

(** The alternatives of a pattern written by [labelValuesToRegexpString]:
    cut at every [|] that no backslash escapes, the escaping backslashes
    dropped. *)
Fixpoint alternatives (pattern : string) : list string :=
  match pattern with
  | EmptyString => [EmptyString]
  | String c rest =>
      if Ascii.eqb c "\" then
        match rest with
        | String d rest' => prepend d (alternatives rest')
        | EmptyString => [String c EmptyString]
        end
      else if Ascii.eqb c "|" then EmptyString :: alternatives rest
      else prepend c (alternatives rest)
  end.

(** ** Route construction (routes.go, lines 59-129, 353-461, 498-507) *)

(** [options], without the metrics registerer. *)
Module options.

Record options : Type := mk {
  enableLabelAPIs : bool;
  passthroughPaths : list string;
  errorOnReplace : bool;
  regexMatch : bool;
  rulesWithActiveAlerts : bool;
  bypassQueries : list string
}.

(** [options{}]: a nil slice reads as the empty list. *)
Definition zero : options := mk false [] false false false [].

End options.

(** An [Option] applies itself to the options. *)
Definition Option : Type := options.options -> options.options.

Definition WithEnabledLabelsAPI : Option :=
  fun o => options.mk true (options.passthroughPaths o) (options.errorOnReplace o)
                      (options.regexMatch o) (options.rulesWithActiveAlerts o)
                      (options.bypassQueries o).

Definition WithPassthroughPaths (paths : list string) : Option :=
  fun o => options.mk (options.enableLabelAPIs o) paths (options.errorOnReplace o)
                      (options.regexMatch o) (options.rulesWithActiveAlerts o)
                      (options.bypassQueries o).

Definition WithErrorOnReplace : Option :=
  fun o => options.mk (options.enableLabelAPIs o) (options.passthroughPaths o) true
                      (options.regexMatch o) (options.rulesWithActiveAlerts o)
                      (options.bypassQueries o).

Definition WithActiveAlerts : Option :=
  fun o => options.mk (options.enableLabelAPIs o) (options.passthroughPaths o)
                      (options.errorOnReplace o) (options.regexMatch o) true
                      (options.bypassQueries o).

Definition WithRegexMatch : Option :=
  fun o => options.mk (options.enableLabelAPIs o) (options.passthroughPaths o)
                      (options.errorOnReplace o) true (options.rulesWithActiveAlerts o)
                      (options.bypassQueries o).

Definition WithBypassQueries (queries : list string) : Option :=
  fun o => options.mk (options.enableLabelAPIs o) (options.passthroughPaths o)
                      (options.errorOnReplace o) (options.regexMatch o)
                      (options.rulesWithActiveAlerts o) queries.

(** The handlers and wrappers of the package that routes.go uses and does
    not declare. *)
Class Package : Type := {
  silences : routes -> Handler;
  deleteSilence : routes -> Handler;
  alerts : routes -> Handler;
  enforceFilterParameter : routes -> Handler;
  assertSingleLabelValue : Handler -> Handler
}.

(** Why [NewRoutes] failed. *)
Inductive NewRoutesError : Type :=
| RegistrationFailed (errs : list HandleError)
| NotAValidPath (path : string)
| PathNotAllowed (path : string).

(** [merrors.New(mux.Handle(...), ...)]: every registration is attempted, in
    order, and the errors are collected; [None] when the wrapped mux
    panics. *)
Fixpoint HandleEach {Hdl : Type} (s : strictMux Hdl) (regs : list (string * Hdl))
  : option (strictMux Hdl * list HandleError) :=
  match regs with
  | [] => Some (s, [])
  | (pattern, handler) :: rest =>
      '(s, e) ← Handle s pattern handler;
      '(s, errs) ← HandleEach s rest;
      Some (s, match e with Some e => e :: errs | None => errs end)
  end.

(** The body [{"ok":true}] and the newline [json.Encoder] writes. *)
Definition healthz_body : string :=
  "{" +:+ String "034" ("ok" +:+ String "034" (":true}" +:+ String "010" EmptyString)).

Section NewRoutes.

Context `{External} `{Library} `{Package}.

(** [routes.errorIfRegexpMatch] (lines 498-507). *)
Definition errorIfRegexpMatch (r : routes) (next : Handler) : Handler :=
  fun w req =>
    if regexMatch r then
      Some (prometheusAPIError w "support for regex match not implemented"
                               StatusNotImplemented)
    else next w req.

(** [routes.passthrough] (lines 553-555). *)
Definition passthrough : Handler := upstream_ServeHTTP.

(** The handler of [/healthz] (lines 421-423). *)
Definition healthz : Handler := fun w _ => Some (w ++ [Write healthz_body]).

(** The registrations of lines 378-424, in order; [el] is
    [r.el.ExtractLabel]. *)
Definition routeTable (r : routes) (el : Handler -> Handler) (enableLabelAPIs : bool)
  : list (string * Handler) :=
  [ ("/federate", el (enforceMethods (matcher r) ["GET"]));
    ("/api/v1/query",
     bypassHandler (bypassQueries r) upstream_ServeHTTP
                   (el (enforceMethods (query r) ["GET"; "POST"])));
    ("/api/v1/query_range",
     bypassHandler (bypassQueries r) upstream_ServeHTTP
                   (el (enforceMethods (query r) ["GET"; "POST"])));
    ("/api/v1/alerts", el (enforceMethods passthrough ["GET"]));
    ("/api/v1/rules", el (enforceMethods passthrough ["GET"]));
    ("/api/v1/series", el (enforceMethods (matcher r) ["GET"; "POST"]));
    ("/api/v1/query_exemplars", el (enforceMethods (query r) ["GET"; "POST"])) ]
  ++ (if enableLabelAPIs then
        [ ("/api/v1/labels", el (enforceMethods (matcher r) ["GET"; "POST"]));
          ("/api/v1/label/", el (enforceMethods (matcher r) ["GET"])) ]
      else [])
  ++ [ ("/api/v2/silences",
        el (errorIfRegexpMatch r
              (enforceMethods (assertSingleLabelValue (silences r)) ["GET"; "POST"])));
       ("/api/v2/silence/",
        el (errorIfRegexpMatch r
              (enforceMethods (assertSingleLabelValue (deleteSilence r)) ["DELETE"])));
       ("/api/v2/alerts/groups", el (enforceMethods (enforceFilterParameter r) ["GET"]));
       ("/api/v2/alerts", el (enforceMethods (alerts r) ["GET"]));
       ("/healthz", healthz) ].

(** The validation loop of lines 431-442: the first path that fails. *)
Fixpoint validatePaths (paths : list string) : option NewRoutesError :=
  match paths with
  | [] => None
  | path :: rest =>
      match url_Parse_Path ("http://example.com" +:+ path) with
      | Err _ => Some (NotAValidPath path)
      | Ok u_Path =>
          if negb (String.eqb u_Path path) then Some (NotAValidPath path)
          else if String.eqb u_Path "" || String.eqb u_Path "/" then
            Some (PathNotAllowed u_Path)
          else validatePaths rest
      end
  end.

(** [NewRoutes]: the routes and the router it serves with, or the error;
    [None] when the wrapped mux panics on a registration.  The upstream URL,
    the metrics instrumentation and the response modifiers are left out. *)
Definition NewRoutes (label : string) (el : Handler -> Handler) (opts : list Option)
  : option (routes * strictMux Handler + NewRoutesError) :=
  let opt := fold_left (fun o apply => apply o) opts options.zero in
  let r := mkRoutes label (options.errorOnReplace opt) (options.regexMatch opt)
                    (options.rulesWithActiveAlerts opt) (options.bypassQueries opt) in
  '(mux, errs) ← HandleEach (newStrictMux Handler)
                            (routeTable r el (options.enableLabelAPIs opt));
  match errs with
  | _ :: _ => Some (inr (RegistrationFailed errs))
  | [] =>
      match validatePaths (options.passthroughPaths opt) with
      | Some err => Some (inr err)
      | None =>
          registered ← HandleAll mux (map (fun path => (path, passthrough))
                                          (options.passthroughPaths opt));
          match registered with
          | (_, Some e) => Some (inr (RegistrationFailed [e]))
          | (mux, None) => Some (inl (r, mux))
          end
      end
  end.

End NewRoutes.

(** The sanitized pattern [q] is [p] or lies below it: what the range loop of
    [strictMux.Handle] tests against a seen pattern [p]. *)
Definition at_or_below (q p : string) : Prop :=
  strings.HasPrefix (q +:+ "/") (p +:+ "/") = true.

(** No pattern of the sequence is, once sanitized, at or below the sanitized
    form of a pattern that comes before it. *)
Definition apart (patterns : list string) : Prop :=
  forall i j p q, (i < j)%nat -> patterns !! i = Some p -> patterns !! j = Some q ->
    ~ at_or_below (sanitize q) (sanitize p).

(** The two calls [strictMux.Handle] makes on the wrapped mux for a
    registration it accepts (lines 172-173), and the patterns it hands
    over. *)
Definition registrations {Hdl : Type} (reg : string * Hdl) : list (string * Hdl) :=
  [(sanitize (fst reg), snd reg); (sanitize (fst reg) +:+ "/", snd reg)].

Definition handed (pattern : string) : list string :=
  [sanitize pattern; sanitize pattern +:+ "/"].

(** ** Stand-ins for [Library] on ASCII text *)

Module SampleText.

Definition is_space (c : ascii) : bool :=
  existsb (Ascii.eqb c) [" "%char; "009"%char; "010"%char; "011"%char; "012"%char; "013"%char].

Fixpoint trim_left (s : string) : string :=
  match s with
  | String c rest => if is_space c then trim_left rest else s
  | EmptyString => EmptyString
  end.

Fixpoint trim_right (s : string) : string :=
  match s with
  | EmptyString => EmptyString
  | String c rest =>
      match trim_right rest with
      | EmptyString => if is_space c then EmptyString else String c EmptyString
      | kept => String c kept
      end
  end.

Definition TrimSpace (s : string) : string := trim_right (trim_left s).

Definition upper (c : ascii) : ascii :=
  if Sample.in_range "a" "z" c then ascii_of_nat (nat_of_ascii c - 32) else c.

Fixpoint ToUpper (s : string) : string :=
  match s with
  | EmptyString => EmptyString
  | String c rest => String (upper c) (ToUpper rest)
  end.

(** [url.Parse] and [Path] for [http://example.com] followed by a path of
    letters, digits and [/-_.~]: the path ends at [?] or [#]; anything else is
    reported as an error. *)
Definition Parse_Path (rawURL : string) : result string :=
  if strings.HasPrefix rawURL "http://example.com" then
    let rest := string_skip (String.length "http://example.com") rawURL in
    let path := fst (Sample.span (fun c => negb (Sample.contains c "?#")) rest) in
    if forallb (fun c => Sample.is_alpha c || Sample.is_digit c || Sample.contains c "/-_.~")
               (list_ascii_of_string path)
    then Ok path
    else Err (errors_New "invalid URL")
  else Err (errors_New "invalid URL").

(** A new array gets twice the old capacity when that is enough, and a
    header's slice of values has no spare capacity. *)
Definition library : Library := {|
  strings_ToUpper := ToUpper;
  strings_TrimSpace := TrimSpace;
  url_Parse_Path := Parse_Path;
  growslice := fun old needed => Nat.max needed (2 * old);
  Header_spare := fun _ _ => 0%nat
|}.

(** No other handler of the package is run by the examples. *)
Definition package : Package := {|
  silences := fun _ w _ => Some w;
  deleteSilence := fun _ w _ => Some w;
  alerts := fun _ w _ => Some w;
  enforceFilterParameter := fun _ w _ => Some w;
  assertSingleLabelValue := fun next => next
|}.

End SampleText.

(** * Properties *)

(** ** Strings *)

Lemma append_String (c : ascii) (s t : string) : String c s +:+ t = String c (s +:+ t).
Proof. reflexivity. Qed.

Lemma append_empty_l (s : string) : "" +:+ s = s.
Proof. reflexivity. Qed.

Lemma append_empty_r (s : string) : s +:+ "" = s.
Proof.
  induction s as [|c s IH]; [reflexivity|].
  rewrite append_String. now rewrite IH.
Qed.

Lemma append_assoc (a b c : string) : (a +:+ b) +:+ c = a +:+ (b +:+ c).
Proof.
  induction a as [|x a IH]; [reflexivity|].
  rewrite !append_String. now rewrite IH.
Qed.

Lemma length_append (a b : string) :
  String.length (a +:+ b) = String.length a + String.length b.
Proof.
  induction a as [|x a IH]; [reflexivity|].
  rewrite append_String. simpl. now rewrite IH.
Qed.

Lemma HasPrefix_spec (s p : string) :
  strings.HasPrefix s p = true <-> exists rest, s = p +:+ rest.
Proof.
  unfold strings.HasPrefix. revert s.
  induction p as [|c p IH]; intros s.
  - split; [intros _; exists s; reflexivity | destruct s; reflexivity].
  - destruct s as [|d s]; simpl.
    + split; [discriminate | intros [rest Hr]; discriminate].
    + destruct (ascii_dec c d) as [->|Hne].
      * rewrite IH. split; intros [rest Hr]; exists rest.
        -- rewrite append_String. now f_equal.
        -- rewrite append_String in Hr. congruence.
      * split; [discriminate | intros [rest Hr]].
        rewrite append_String in Hr. congruence.
Qed.

(** [TrimSuffix] removes a suffix that is there ... *)
Lemma TrimSuffix_append (s suffix : string) :
  strings.TrimSuffix (s +:+ suffix) suffix = s.
Proof.
  induction s as [|c s IH].
  - rewrite append_empty_l. destruct suffix as [|a u]; [reflexivity|].
    cbn [strings.TrimSuffix]. now rewrite String.eqb_refl.
  - rewrite append_String. cbn [strings.TrimSuffix].
    destruct (String.eqb_spec (String c (s +:+ suffix)) suffix) as [Heq|_].
    + apply (f_equal String.length) in Heq. simpl in Heq.
      rewrite length_append in Heq. lia.
    + now rewrite IH.
Qed.

(** ... and leaves alone a string that does not end with it. *)
Lemma TrimSuffix_absent (s suffix : string) :
  (forall s0, s <> s0 +:+ suffix) -> strings.TrimSuffix s suffix = s.
Proof.
  induction s as [|c s IH]; intros Hno; cbn [strings.TrimSuffix].
  - destruct (String.eqb_spec "" suffix); reflexivity.
  - destruct (String.eqb_spec (String c s) suffix) as [Heq|_].
    + exfalso. apply (Hno ""). rewrite append_empty_l. exact Heq.
    + f_equal. apply IH. intros s0 ->. apply (Hno (String c s0)). reflexivity.
Qed.

(** ** The strict router *)

Section StrictMuxFacts.

Context {Hdl : Type}.
Implicit Types (s : strictMux Hdl) (h : Hdl).

(** The loop of line 159 runs its body at most once: sanitizing is a single
    [TrimSuffix], whatever the fuel. *)
Lemma sanitize_loop_once (fuel : nat) (next sanitized : string) :
  sanitize_loop (S fuel) next sanitized = Some next.
Proof.
  simpl. destruct (String.eqb_spec next sanitized) as [->|_].
  - reflexivity.
  - destruct fuel; simpl; now rewrite String.eqb_refl.
Qed.

Lemma sanitize_TrimSuffix (pattern : string) :
  sanitize pattern = strings.TrimSuffix pattern "/".
Proof. unfold sanitize. now rewrite sanitize_loop_once. Qed.

Lemma sanitize_slash (p : string) : sanitize (p +:+ "/") = p.
Proof. rewrite sanitize_TrimSuffix. apply TrimSuffix_append. Qed.

Lemma sanitize_no_slash (p : string) :
  (forall p0, p <> p0 +:+ "/") -> sanitize p = p.
Proof. intros Hno. rewrite sanitize_TrimSuffix. now apply TrimSuffix_absent. Qed.

Lemma shares_spec (seen : gset string) (sanitized : string) :
  shares seen sanitized = true <->
  exists p rest, p ∈ seen /\ sanitized +:+ "/" = (p +:+ "/") +:+ rest.
Proof.
  unfold shares. rewrite existsb_exists. split.
  - intros (p & Hin & Hp). apply HasPrefix_spec in Hp as [rest Hr].
    exists p, rest. split; [|exact Hr].
    apply elem_of_elements, list_elem_of_In, Hin.
  - intros (p & rest & Hin & Hr). exists p. split.
    + apply list_elem_of_In, elem_of_elements, Hin.
    + apply HasPrefix_spec. now exists rest.
Qed.

Lemma append_slash_inj (a b : string) : a +:+ "/" = b +:+ "/" -> a = b.
Proof. intros Heq. rewrite <- (sanitize_slash a), Heq. apply sanitize_slash. Qed.

Lemma append_slash_neq (a : string) : a <> a +:+ "/".
Proof.
  intros Heq. apply (f_equal String.length) in Heq.
  rewrite length_append in Heq. simpl in Heq. lia.
Qed.

(** The wrapped mux takes a pattern that is not empty and that it does not
    hold, and panics otherwise. *)
Lemma ServeMux_Handle_Some (m m' : list (string * Hdl)) (p : string) h :
  ServeMux_Handle m p h = Some m' <-> p <> "" /\ (p ∉ m.*1) /\ m' = m ++ [(p, h)].
Proof.
  unfold ServeMux_Handle. destruct (String.eqb_spec p "") as [->|Hp].
  - split; [discriminate | intros [Hne _]; congruence].
  - destruct (existsb (String.eqb p) m.*1) eqn:Hex.
    + split; [discriminate|]. intros (_ & Hnot & _). exfalso. apply Hnot.
      apply existsb_exists in Hex as (x & Hin & Hx). apply String.eqb_eq in Hx as <-.
      now apply list_elem_of_In.
    + split.
      * intros [= <-]. split; [exact Hp|]. split; [|reflexivity]. intros Hin.
        assert (existsb (String.eqb p) m.*1 = true) as Htrue.
        { apply existsb_exists. exists p. split; [now apply list_elem_of_In|].
          apply String.eqb_refl. }
        congruence.
      * intros (_ & _ & ->). reflexivity.
Qed.

(** An error leaves the router as it was. *)
Lemma Handle_error_unchanged s pattern h s' e :
  Handle s pattern h = Some (s', Some e) -> s' = s.
Proof.
  unfold Handle. case_bool_decide; [congruence|].
  destruct (shares _ _); [congruence|].
  destruct (ServeMux_Handle (mux s) _ _) as [m|]; cbn [mbind option_bind]; [|discriminate].
  destruct (ServeMux_Handle m _ _); cbn [mbind option_bind]; discriminate.
Qed.

(** [Handle] returns an error exactly when some seen pattern, followed by a
    slash, is a prefix of the sanitized pattern followed by a slash. *)
Lemma Handle_error_iff s pattern h :
  (exists e, Handle s pattern h = Some (s, Some e)) <->
  exists p rest, p ∈ seen s /\ sanitize pattern +:+ "/" = (p +:+ "/") +:+ rest.
Proof.
  unfold Handle. case_bool_decide as Hin.
  - split; [|eauto]. intros _. exists (sanitize pattern), "".
    split; [exact Hin | now rewrite append_empty_r].
  - destruct (shares (seen s) (sanitize pattern)) eqn:Hsh.
    + split; [|eauto]. intros _. now apply shares_spec.
    + split.
      * intros [e He]. exfalso. revert He.
        destruct (ServeMux_Handle (mux s) _ _) as [m|]; cbn [mbind option_bind];
          [|discriminate].
        destruct (ServeMux_Handle m _ _); cbn [mbind option_bind]; discriminate.
      * intros Hex. apply shares_spec in Hex. congruence.
Qed.

(** What an accepted registration found, and what it leaves. *)
Lemma Handle_ok_state s pattern h s' :
  Handle s pattern h = Some (s', None) ->
  mux s' = mux s ++ [(sanitize pattern, h); (sanitize pattern +:+ "/", h)]
  /\ seen s' = {[ sanitize pattern ]} ∪ seen s
  /\ (forall p rest, p ∈ seen s -> sanitize pattern +:+ "/" <> (p +:+ "/") +:+ rest)
  /\ sanitize pattern <> ""
  /\ (sanitize pattern ∉ (mux s).*1)
  /\ (sanitize pattern +:+ "/" ∉ (mux s).*1).
Proof.
  intros Hh.
  assert (forall p rest, p ∈ seen s ->
            sanitize pattern +:+ "/" <> (p +:+ "/") +:+ rest) as Hno.
  { intros p rest Hp Heq.
    destruct (proj2 (Handle_error_iff s pattern h)) as [e He]; [eauto|]. congruence. }
  revert Hh. unfold Handle. case_bool_decide; [discriminate|].
  destruct (shares _ _); [discriminate|].
  destruct (ServeMux_Handle (mux s) _ _) as [m1|] eqn:H1; cbn [mbind option_bind];
    [|discriminate].
  destruct (ServeMux_Handle m1 _ _) as [m2|] eqn:H2; cbn [mbind option_bind];
    [|discriminate].
  intros [= <-]. cbn [mux seen].
  apply ServeMux_Handle_Some in H1 as (Hne & Hnot1 & ->).
  apply ServeMux_Handle_Some in H2 as (_ & Hnot2 & ->).
  rewrite <- app_assoc. repeat split; auto.
  intros Hin. apply Hnot2. rewrite fmap_app. apply elem_of_app. now left.
Qed.

(** A registration that meets no such prefix, with a sanitized pattern that
    is not empty and new to the wrapped mux, as is the pattern with a
    slash, is accepted. *)
Lemma Handle_ok s pattern h :
  (forall p rest, p ∈ seen s -> sanitize pattern +:+ "/" <> (p +:+ "/") +:+ rest) ->
  sanitize pattern <> "" ->
  (sanitize pattern ∉ (mux s).*1) ->
  (sanitize pattern +:+ "/" ∉ (mux s).*1) ->
  Handle s pattern h
  = Some (mkStrictMux (mux s ++ [(sanitize pattern, h); (sanitize pattern +:+ "/", h)])
                      ({[ sanitize pattern ]} ∪ seen s),
          None).
Proof.
  intros Hno Hne Hnot1 Hnot2. unfold Handle.
  rewrite bool_decide_eq_false_2.
  2:{ intros Hin. apply (Hno _ "" Hin). now rewrite append_empty_r. }
  destruct (shares (seen s) (sanitize pattern)) eqn:Hsh.
  { apply shares_spec in Hsh as (p & rest & Hp & Heq). now elim (Hno p rest Hp). }
  rewrite (proj2 (ServeMux_Handle_Some (mux s) _ (sanitize pattern) h)
             (conj Hne (conj Hnot1 eq_refl))).
  cbn [mbind option_bind].
  assert (ServeMux_Handle (mux s ++ [(sanitize pattern, h)]) (sanitize pattern +:+ "/") h
          = Some ((mux s ++ [(sanitize pattern, h)]) ++ [(sanitize pattern +:+ "/", h)]))
    as ->.
  { apply ServeMux_Handle_Some. split; [|split; [|reflexivity]].
    - intros Heq. apply (f_equal String.length) in Heq.
      rewrite length_append in Heq. simpl in Heq. lia.
    - rewrite fmap_app. intros Hin. apply elem_of_app in Hin as [Hin|Hin]; [auto|].
      apply list_elem_of_singleton in Hin. cbn [fst] in Hin. symmetry in Hin.
      now apply append_slash_neq in Hin. }
  cbn [mbind option_bind]. now rewrite <- app_assoc.
Qed.

(** After a sequence of registrations that were all accepted, the seen set
    holds the sanitized form of each registered pattern, and the wrapped mux
    each of them with and without a slash. *)
Lemma HandleAll_seen s regs s' :
  HandleAll s regs = Some (s', None) ->
  seen s' = list_to_set (map (fun reg => sanitize (fst reg)) regs) ∪ seen s.
Proof.
  revert s. induction regs as [|[pattern h] regs IH]; intros s; cbn [HandleAll map].
  - intros [= <-]. simpl. now rewrite union_empty_l_L.
  - destruct (Handle s pattern h) as [[s1 [e|]]|] eqn:Hh; cbn [mbind option_bind];
      [discriminate| |discriminate].
    intros Hall. apply IH in Hall. apply Handle_ok_state in Hh as (_ & Hseen & _).
    rewrite Hall, Hseen. simpl.
    rewrite (union_comm_L {[ _ ]} (list_to_set _)).
    now rewrite union_assoc_L.
Qed.

Lemma HandleAll_seen_elem regs s' pattern h :
  HandleAll (newStrictMux Hdl) regs = Some (s', None) ->
  (pattern, h) ∈ regs -> sanitize pattern ∈ seen s'.
Proof.
  intros Hall Hin. rewrite (HandleAll_seen _ _ _ Hall).
  apply elem_of_union_l, elem_of_list_to_set, list_elem_of_fmap.
  exists (pattern, h). split; [reflexivity | exact Hin].
Qed.

Lemma HandleAll_mux_elem s regs s' :
  HandleAll s regs = Some (s', None) ->
  forall x, x ∈ (mux s').*1 <->
    x ∈ (mux s).*1
    \/ exists p0 h0, (p0, h0) ∈ regs /\ (x = sanitize p0 \/ x = sanitize p0 +:+ "/").
Proof.
  revert s. induction regs as [|[pattern h] regs IH]; intros s; cbn [HandleAll].
  - intros [= <-] x. split; [now left|]. intros [Hx|(p0 & h0 & Hin & _)]; [exact Hx|].
    now apply elem_of_nil in Hin.
  - destruct (Handle s pattern h) as [[s1 [e|]]|] eqn:Hh; cbn [mbind option_bind];
      [discriminate| |discriminate].
    intros Hall x. rewrite (IH _ Hall x).
    apply Handle_ok_state in Hh as (Hmux & _). rewrite Hmux, fmap_app.
    cbn [fmap list_fmap fst]. rewrite elem_of_app, !elem_of_cons. split.
    + intros [[Hx|[->|[->|Hx]]]|(p0 & h0 & Hin & Hx)].
      * now left.
      * right. exists pattern, h. split; [apply list_elem_of_here|now left].
      * right. exists pattern, h. split; [apply list_elem_of_here|now right].
      * now apply elem_of_nil in Hx.
      * right. exists p0, h0. split; [now apply list_elem_of_further|exact Hx].
    + intros [Hx|(p0 & h0 & Hin & Hx)]; [now left; left|].
      apply elem_of_cons in Hin as [[= -> ->]|Hin].
      * left. right. destruct Hx as [-> | ->]; [now left|right; now left].
      * right. eauto.
Qed.

End StrictMuxFacts.

Lemma TrimSuffix_cases (s suffix : string) :
  strings.TrimSuffix s suffix = s \/ s = strings.TrimSuffix s suffix +:+ suffix.
Proof.
  induction s as [|c s IH]; cbn [strings.TrimSuffix].
  - destruct (String.eqb_spec "" suffix) as [<-|_]; left; reflexivity.
  - destruct (String.eqb_spec (String c s) suffix) as [Heq|_]; [right; exact Heq|].
    destruct IH as [->|IH]; [left; reflexivity|right].
    rewrite append_String. now f_equal.
Qed.

Lemma sanitize_cases (pattern : string) :
  sanitize pattern = pattern \/ pattern = sanitize pattern +:+ "/".
Proof. rewrite sanitize_TrimSuffix. apply TrimSuffix_cases. Qed.

Lemma sanitize_length (pattern : string) :
  String.length (sanitize pattern) <= String.length pattern.
Proof.
  destruct (sanitize_cases pattern) as [->|Hp]; [lia|].
  rewrite Hp at 2. rewrite length_append. lia.
Qed.

(** C2, as the code has it.  After registrations that were all accepted, a
    further registration is refused when its sanitized pattern equals that
    of an earlier one, and when it lies below an earlier one; an error is
    returned exactly when some earlier sanitized pattern followed by a slash
    is a prefix of it followed by a slash: the check looks in one direction
    only.  Without an error the registration is accepted, unless the wrapped
    mux panics, which it does exactly when the sanitized pattern is empty or
    when, followed by a slash, it is an earlier sanitized pattern.  So a
    pattern apart from all earlier ones is accepted, and so is the parent
    of an earlier one. *)
Theorem Handle_collisions {Hdl : Type} (regs : list (string * Hdl)) (s : strictMux Hdl)
    (pattern : string) (h : Hdl) :
  HandleAll (newStrictMux Hdl) regs = Some (s, None) ->
  (forall p0 h0, (p0, h0) ∈ regs -> sanitize pattern = sanitize p0 ->
     Handle s pattern h = Some (s, Some (ErrAlreadyRegistered (sanitize pattern))))
  /\ (forall p0 h0 rest, (p0, h0) ∈ regs ->
        sanitize pattern = sanitize p0 +:+ "/" +:+ rest ->
        exists e, Handle s pattern h = Some (s, Some e))
  /\ ((exists e, Handle s pattern h = Some (s, Some e)) <->
      exists p0 h0 rest, (p0, h0) ∈ regs
        /\ sanitize pattern +:+ "/" = (sanitize p0 +:+ "/") +:+ rest)
  /\ ((exists s', Handle s pattern h = Some (s', None)) <->
      (forall p0 h0 rest, (p0, h0) ∈ regs ->
         sanitize pattern +:+ "/" <> (sanitize p0 +:+ "/") +:+ rest)
      /\ sanitize pattern <> ""
      /\ (forall p0 h0, (p0, h0) ∈ regs -> sanitize p0 <> sanitize pattern +:+ "/"))
  /\ (forall p0 h0 rest, regs = [(p0, h0)] ->
        sanitize p0 = sanitize pattern +:+ "/" +:+ rest ->
        rest <> "" -> sanitize pattern <> "" ->
        exists s', Handle s pattern h = Some (s', None)).
Proof.
  intros Hall.
  assert (forall p, p ∈ seen s <-> exists p0 h0, (p0, h0) ∈ regs /\ p = sanitize p0) as Hseen.
  { intros p. rewrite (HandleAll_seen _ _ _ Hall).
    rewrite elem_of_union, elem_of_list_to_set, list_elem_of_fmap. split.
    - intros [([p0 h0] & -> & Hin)|Hempty]; [eauto | set_solver].
    - intros (p0 & h0 & Hin & ->). left. exists (p0, h0). split; [reflexivity|exact Hin]. }
  assert (forall x, x ∈ (mux s).*1 <->
            exists p0 h0, (p0, h0) ∈ regs /\ (x = sanitize p0 \/ x = sanitize p0 +:+ "/"))
    as Hmux.
  { intros x. rewrite (HandleAll_mux_elem _ _ _ Hall x). split; [|now right].
    intros [Hx|Hx]; [now apply elem_of_nil in Hx | exact Hx]. }
  assert ((exists e, Handle s pattern h = Some (s, Some e)) <->
          exists p0 h0 rest, (p0, h0) ∈ regs
            /\ sanitize pattern +:+ "/" = (sanitize p0 +:+ "/") +:+ rest) as Herr.
  { rewrite Handle_error_iff. split.
    - intros (p & rest & Hp & Heq). apply Hseen in Hp as (p0 & h0 & Hin & ->). eauto.
    - intros (p0 & h0 & rest & Hin & Heq). exists (sanitize p0), rest.
      split; [apply Hseen; eauto | exact Heq]. }
  assert ((exists s', Handle s pattern h = Some (s', None)) <->
          (forall p0 h0 rest, (p0, h0) ∈ regs ->
             sanitize pattern +:+ "/" <> (sanitize p0 +:+ "/") +:+ rest)
          /\ sanitize pattern <> ""
          /\ (forall p0 h0, (p0, h0) ∈ regs -> sanitize p0 <> sanitize pattern +:+ "/"))
    as Hok.
  { split.
    - intros [s' Hh]. apply Handle_ok_state in Hh as (_ & _ & Hno & Hne & _ & Hnot2).
      split; [|split; [exact Hne|]].
      + intros p0 h0 rest Hin. apply Hno, Hseen. eauto.
      + intros p0 h0 Hin Heq. apply Hnot2, Hmux. exists p0, h0. split; [exact Hin|].
        left. congruence.
    - intros (Hno & Hne & Hslash). eexists. apply Handle_ok.
      + intros p rest Hp. apply Hseen in Hp as (p0 & h0 & Hin & ->). eauto.
      + exact Hne.
      + intros Hin. apply Hmux in Hin as (p0 & h0 & Hin & [Heq|Heq]).
        * apply (Hno p0 h0 "" Hin). now rewrite append_empty_r, Heq.
        * apply (Hno p0 h0 "/" Hin). now rewrite Heq.
      + intros Hin. apply Hmux in Hin as (p0 & h0 & Hin & [Heq|Heq]).
        * now apply (Hslash p0 h0 Hin).
        * apply append_slash_inj in Heq. apply (Hno p0 h0 "" Hin).
          now rewrite append_empty_r, Heq. }
  split; [|split; [|split; [|split]]].
  - intros p0 h0 Hin Heq. unfold Handle.
    rewrite bool_decide_eq_true_2; [reflexivity|].
    apply Hseen. eauto.
  - intros p0 h0 rest Hin Heq. apply Herr. exists p0, h0, (rest +:+ "/").
    split; [exact Hin|]. rewrite Heq. now rewrite !append_assoc.
  - exact Herr.
  - exact Hok.
  - intros p0 h0 rest -> Hparent Hrest Hne. apply Hok.
    split; [|split; [exact Hne|]].
    + intros p1 h1 rest' Hin Heq.
      apply list_elem_of_singleton in Hin as [= -> ->].
      rewrite Hparent in Heq. rewrite !append_assoc in Heq.
      apply (f_equal String.length) in Heq. rewrite !length_append in Heq.
      simpl in Heq. lia.
    + intros p1 h1 Hin Heq.
      apply list_elem_of_singleton in Hin as [= -> ->].
      rewrite Hparent in Heq.
      apply (f_equal String.length) in Heq. rewrite !length_append in Heq.
      destruct rest; [congruence|]. simpl in Heq. lia.
Qed.

(** The hypotheses of [Handle_collisions] hold after registering [/a]:
    [/a] again and [/a/b] are refused, [/b] is accepted. *)
Lemma Handle_collisions_witness :
  let s := mkStrictMux [("/a", tt); ("/a/", tt)] ({[ "/a" ]} ∪ ∅) in
  HandleAll (newStrictMux unit) [("/a", tt)] = Some (s, None)
  /\ Handle s "/a" tt = Some (s, Some (ErrAlreadyRegistered "/a"))
  /\ (exists e, Handle s "/a/b" tt = Some (s, Some e))
  /\ (exists s', Handle s "/b" tt = Some (s', None)).
Proof.
  intros s.
  assert (HandleAll (newStrictMux unit) [("/a", tt)] = Some (s, None)) as Hall
    by (vm_compute; reflexivity).
  assert (("/a", tt) ∈ [("/a", tt)]) as Hin by apply list_elem_of_here.
  split; [exact Hall|]. split; [|split].
  - exact (proj1 (Handle_collisions _ s "/a" tt Hall) "/a" tt Hin eq_refl).
  - exact (proj1 (proj2 (Handle_collisions _ s "/a/b" tt Hall)) "/a" tt "b" Hin eq_refl).
  - apply (proj1 (proj2 (proj2 (proj2 (Handle_collisions _ s "/b" tt Hall))))).
    split; [|split; [discriminate|]].
    + intros p0 h0 rest Hp0. apply list_elem_of_singleton in Hp0 as [= -> ->].
      destruct rest; discriminate.
    + intros p0 h0 Hp0. apply list_elem_of_singleton in Hp0 as [= -> ->]. discriminate.
Defined.

(** C2 as stated fails: registering [/a/b] and then its parent [/a] is
    accepted, and both end up registered. *)
Lemma Handle_child_then_parent :
  HandleAll (newStrictMux unit) [("/a/b", tt); ("/a", tt)]
  = Some (mkStrictMux [("/a/b", tt); ("/a/b/", tt); ("/a", tt); ("/a/", tt)]
                      ({[ "/a" ]} ∪ ({[ "/a/b" ]} ∪ ∅)),
          None).
Proof. vm_compute. reflexivity. Qed.

(** The route table of [NewRoutes] relies on it: [/api/v2/alerts/groups] is
    registered before [/api/v2/alerts] (lines 416-417), and construction
    fails on any registration error. *)
Lemma NewRoutes_registers_parent_after_child :
  snd <$> HandleAll (newStrictMux unit)
            (map (fun p => (p, tt))
                 ["/federate"; "/api/v1/query"; "/api/v1/query_range"; "/api/v1/alerts";
                  "/api/v1/rules"; "/api/v1/series"; "/api/v1/query_exemplars";
                  "/api/v1/labels"; "/api/v1/label/";
                  "/api/v2/silences"; "/api/v2/silence/"; "/api/v2/alerts/groups";
                  "/api/v2/alerts"; "/healthz"])
  = Some None.
Proof. vm_compute. reflexivity. Qed.

(** C10, as the code has it.  Sanitizing removes at most one trailing slash,
    so a pattern ending in two slashes keeps one.  Such a pattern is
    refused when its base is already registered: the prefix check of lines
    166-170 finds the base.  A registration that is accepted records the
    sanitized pattern and the sanitized pattern with one more slash. *)
Theorem sanitize_one_slash {Hdl : Type} (s : strictMux Hdl) (pattern base : string)
    (h : Hdl) :
  (sanitize pattern = pattern \/ pattern = sanitize pattern +:+ "/")
  /\ sanitize (base +:+ "//") = base +:+ "/"
  /\ (base ∈ seen s -> exists e, Handle s (base +:+ "//") h = Some (s, Some e))
  /\ (forall s', Handle s pattern h = Some (s', None) ->
       mux s' = mux s ++ [(sanitize pattern, h); (sanitize pattern +:+ "/", h)]
       /\ seen s' = {[ sanitize pattern ]} ∪ seen s).
Proof.
  assert (sanitize (base +:+ "//") = base +:+ "/") as Hdouble.
  { replace (base +:+ "//") with ((base +:+ "/") +:+ "/") by now rewrite append_assoc.
    apply sanitize_slash. }
  split; [apply sanitize_cases|]. split; [exact Hdouble|]. split.
  - intros Hbase. apply Handle_error_iff. exists base, "/".
    split; [exact Hbase|]. now rewrite Hdouble.
  - intros s' Hh. apply Handle_ok_state in Hh as (Hmux & Hseen & _). now split.
Qed.

(** The hypotheses of [sanitize_one_slash] hold on the router that has
    registered [/a]: [/a//] is refused there, and [/b//] is accepted and
    registered as [/b/] and [/b//]. *)
Lemma sanitize_one_slash_witness :
  let s := mkStrictMux [("/a", tt); ("/a/", tt)] ({[ "/a" ]} ∪ ∅) in
  HandleAll (newStrictMux unit) [("/a", tt)] = Some (s, None)
  /\ sanitize "/a//" = "/a/"
  /\ (exists e, Handle s "/a//" tt = Some (s, Some e))
  /\ (exists s', Handle s "/b//" tt = Some (s', None)
                 /\ mux s' = mux s ++ [("/b/", tt); ("/b//", tt)]).
Proof.
  intros s.
  assert ("/a" ∈ seen s) as Hseen by (apply (bool_decide_unpack _); vm_compute; exact I).
  split; [vm_compute; reflexivity|]. split; [|split].
  - exact (proj1 (proj2 (sanitize_one_slash s "" "/a" tt))).
  - exact (proj1 (proj2 (proj2 (sanitize_one_slash s "" "/a" tt))) Hseen).
  - destruct (Handle s "/b//" tt) as [[s' [e|]]|] eqn:Hh;
      [vm_compute in Hh; discriminate | | vm_compute in Hh; discriminate].
    exists s'. split; [reflexivity|].
    exact (proj1 (proj2 (proj2 (proj2 (sanitize_one_slash s "/b//" "" tt))) s' Hh)).
Defined.

(** C10 as stated fails: with [/a] registered, [/a//] is sanitized to [/a/]
    and refused as sharing a registered pattern. *)
Lemma Handle_double_slash_after_base :
  HandleAll (newStrictMux unit) [("/a", tt); ("/a//", tt)]
  = Some (mkStrictMux [("/a", tt); ("/a/", tt)] ({[ "/a" ]} ∪ ∅),
          Some (ErrSharesRegistered "/a/")).
Proof. vm_compute. reflexivity. Qed.

(** ** Responses *)

Lemma status_app_None (w w' : ResponseWriter) :
  status w = None -> status (w ++ w') = status w'.
Proof.
  induction w as [|[code|body|req] w IH]; simpl; intros Hw;
    [reflexivity | discriminate | discriminate | now apply IH].
Qed.

Lemma forwarded_app (w w' : ResponseWriter) :
  forwarded (w ++ w') = forwarded w ++ forwarded w'.
Proof. unfold forwarded. apply omap_app. Qed.

Lemma status_prometheusAPIError (w : ResponseWriter) (msg : string) (code : nat) :
  status w = None -> status (prometheusAPIError w msg code) = Some code.
Proof. intros Hw. unfold prometheusAPIError. now rewrite status_app_None. Qed.

Lemma forwarded_prometheusAPIError (w : ResponseWriter) (msg : string) (code : nat) :
  forwarded (prometheusAPIError w msg code) = forwarded w.
Proof.
  unfold prometheusAPIError. rewrite forwarded_app. simpl. apply app_nil_r.
Qed.

(** A rejection sets the status and forwards nothing. *)
Lemma rejected_status (code : nat) (w : ResponseWriter) (res : option ResponseWriter) :
  rejected code w res ->
  exists w', res = Some w' /\ forwarded w' = forwarded w
             /\ (status w = None -> status w' = Some code).
Proof.
  intros [msg ->]. eexists. split; [reflexivity|]. split.
  - apply forwarded_prometheusAPIError.
  - intros Hw. now apply status_prometheusAPIError.
Qed.

(** ** The proxy error handler *)

(** C9.  On a response whose header is not written yet, the error handler
    leaves status 502, except for an error that is
    [errModifyResponseFailed], where the status is 400: the handler calls
    [WriteHeader(400)] and then, having no [return], [WriteHeader(502)],
    which net/http ignores as superfluous. *)
Theorem errorHandler_status (rw : ResponseWriter) (err : error) :
  status rw = None ->
  status (errorHandler rw err)
  = Some (if errors_Is err errModifyResponseFailed
          then StatusBadRequest else StatusBadGateway)
  /\ errorHandler rw err
     = rw ++ (if errors_Is err errModifyResponseFailed
              then [WriteHeader StatusBadRequest; WriteHeader StatusBadGateway]
              else [WriteHeader StatusBadGateway]).
Proof.
  intros Hrw. unfold errorHandler.
  destruct (errors_Is err errModifyResponseFailed).
  - split.
    + rewrite <- app_assoc. now rewrite status_app_None.
    + now rewrite <- app_assoc.
  - split; [now rewrite status_app_None | reflexivity].
Qed.

(** The proxy calls the error handler before anything is written: a
    transport error gives 502, a failed response modification, also when
    wrapped, gives 400. *)
Lemma errorHandler_status_witness :
  status (errorHandler [] (errors_New "connection refused")) = Some 502
  /\ status (errorHandler [] (fmt_Errorf_w "proxy: " (mkError "modify failed"
                                                        [errModifyResponseFailed])))
     = Some 400.
Proof.
  split.
  - exact (proj1 (errorHandler_status [] (errors_New "connection refused") eq_refl)).
  - exact (proj1 (errorHandler_status []
                    (fmt_Errorf_w "proxy: " (mkError "modify failed" [errModifyResponseFailed]))
                    eq_refl)).
Defined.

(** ** Label values *)

Lemma sort_Strings_length (l : list string) : length (sort_Strings l) = length l.
Proof. unfold sort_Strings. now rewrite merge_sort_Permutation. Qed.

Lemma sort_Strings_singleton (v : string) : sort_Strings [v] = [v].
Proof.
  apply Permutation_singleton_r. unfold sort_Strings.
  apply merge_sort_Permutation.
Qed.

Lemma sort_Strings_elem_of (v : string) (l : list string) :
  v ∈ sort_Strings l <-> v ∈ l.
Proof. unfold sort_Strings. now rewrite merge_sort_Permutation. Qed.

(** [sort.Strings] leaves the values in increasing order. *)
Lemma sort_Strings_sorted (l : list string) : Sorted string_le (sort_Strings l).
Proof.
  apply Sorted_merge_sort. intros s1 s2. apply String.leb_total.
Qed.

Lemma MustLabelValues_Some (req : Request) (labels : list string) :
  labelValues req = Some labels -> labels <> [] ->
  MustLabelValues req = Some (sort_Strings labels).
Proof.
  unfold MustLabelValues. intros -> Hne. destruct labels; [congruence|reflexivity].
Qed.

Lemma MustLabelValues_single (req : Request) (v : string) :
  labelValues req = Some [v] ->
  MustLabelValues req = Some [v] /\ MustLabelValue req = Some v.
Proof.
  intros Hreq. unfold MustLabelValue.
  rewrite (MustLabelValues_Some _ _ Hreq) by discriminate.
  rewrite sort_Strings_singleton. split; reflexivity.
Qed.

Section HandlerFacts.

Context `{External}.

(** ** Building the matcher on query-expression endpoints *)

Lemma queryMatcher_multi (r : routes) (req : Request) (labels : list string) :
  labelValues req = Some labels -> 1 < length labels ->
  queryMatcher r req
  = Some (if regexMatch r
          then Reject "Only one label value allowed with regex match" StatusBadRequest
          else Inject (mkMatcher (label r) MatchRegexp
                                 (labelValuesToRegexpString (sort_Strings labels)))).
Proof.
  intros Hreq Hlen. unfold queryMatcher.
  rewrite (MustLabelValues_Some _ _ Hreq) by (destruct labels; simpl in *; [lia|discriminate]).
  cbn [mbind option_bind]. rewrite sort_Strings_length.
  replace (1 <? length labels)%nat with true by (symmetry; apply Nat.ltb_lt; lia).
  destruct (regexMatch r); reflexivity.
Qed.

Lemma queryMatcher_single (r : routes) (req : Request) (v : string) :
  labelValues req = Some [v] ->
  queryMatcher r req
  = Some (if regexMatch r then
            match regexp_Compile v with
            | Err err => Reject (Error err) StatusBadRequest
            | Ok compiledRegex =>
                if regexp_MatchString compiledRegex ""
                then Reject "Regex should not match empty string" StatusBadRequest
                else Inject (mkMatcher (label r) MatchRegexp v)
            end
          else Inject (mkMatcher (label r) MatchEqual v)).
Proof.
  intros Hreq. unfold queryMatcher.
  destruct (MustLabelValues_single _ _ Hreq) as [-> ->].
  cbn [mbind option_bind length Nat.ltb Nat.leb].
  destruct (regexMatch r); [|reflexivity].
  destruct (regexp_Compile v) as [re|err]; [|reflexivity].
  destruct (regexp_MatchString re ""); reflexivity.
Qed.

(** C1, as the code has it.  With more than one label value the query
    handler rejects the request with a 400, forwarding nothing, when regex
    mode is enabled; when it is disabled the matcher it goes on to enforce is
    a regular-expression matcher on the configured label whose value joins
    the regex-escaped values, in sorted order, with [|]. *)
Theorem query_multi_value (r : routes) (w : ResponseWriter) (req : Request)
    (labels : list string) :
  labelValues req = Some labels -> 1 < length labels ->
  (regexMatch r = true ->
     exists w', query r w req = Some w'
       /\ w' = prometheusAPIError w "Only one label value allowed with regex match"
                                  StatusBadRequest
       /\ forwarded w' = forwarded w
       /\ (status w = None -> status w' = Some 400))
  /\ (regexMatch r = false ->
        let matcher := mkMatcher (label r) MatchRegexp
                         (strings.Join (map regexp_QuoteMeta (sort_Strings labels)) "|") in
        queryMatcher r req = Some (Inject matcher)
        /\ query r w req = queryEnforce r matcher w req).
Proof.
  intros Hreq Hlen. pose proof (queryMatcher_multi r req labels Hreq Hlen) as Hm.
  split; intros Hmode; rewrite Hmode in Hm.
  - eexists. unfold query. rewrite Hm. cbn [mbind option_bind].
    split; [reflexivity|]. split; [reflexivity|].
    split; [apply forwarded_prometheusAPIError|].
    intros Hw. now apply status_prometheusAPIError.
  - split; [exact Hm|]. unfold query. rewrite Hm. reflexivity.
Qed.

(** With exactly one label value and regex mode off, the query handler
    enforces the equality matcher on the configured label with that value,
    and so does [newLabelMatcher] on selector-list endpoints. *)
Lemma single_value_equality (r : routes) (w : ResponseWriter) (req : Request) (v : string) :
  labelValues req = Some [v] -> regexMatch r = false ->
  queryMatcher r req = Some (Inject (mkMatcher (label r) MatchEqual v))
  /\ query r w req = queryEnforce r (mkMatcher (label r) MatchEqual v) w req
  /\ newLabelMatcher r [v] = Ok (mkMatcher (label r) MatchEqual v).
Proof.
  intros Hreq Hmode. pose proof (queryMatcher_single r req v Hreq) as Hm.
  rewrite Hmode in Hm. split; [exact Hm|]. split.
  - unfold query. rewrite Hm. reflexivity.
  - unfold newLabelMatcher. now rewrite Hmode.
Qed.

Lemma matcher_newLabelMatcher_Err (r : routes) (w : ResponseWriter) (req : Request)
    (vals : list string) (err : error) :
  MustLabelValues req = Some vals -> newLabelMatcher r vals = Err err ->
  matcher r w req = Some (prometheusAPIError w (Error err) StatusBadRequest).
Proof. intros Hv Hm. unfold matcher. rewrite Hv. cbn [mbind option_bind]. now rewrite Hm. Qed.

(** C6.  In regex mode a single label value is compiled as a regular
    expression, and both the query handler and the selector-list handler
    reject the request with a 400 when it does not compile or when it matches
    the empty string; a request one of whose label values matches the empty
    string is rejected with a 400 however many values there are. *)
Theorem regex_mode_rejects (r : routes) (w : ResponseWriter) (req : Request)
    (labels : list string) :
  regexMatch r = true -> labelValues req = Some labels ->
  (forall v err, labels = [v] -> regexp_Compile v = Err err ->
     query r w req = Some (prometheusAPIError w (Error err) StatusBadRequest)
     /\ matcher r w req
        = Some (prometheusAPIError w ("invalid regex: " +:+ Error err) StatusBadRequest))
  /\ (forall v compiledRegex, labels = [v] -> regexp_Compile v = Ok compiledRegex ->
        regexp_MatchString compiledRegex "" = true ->
        query r w req
        = Some (prometheusAPIError w "Regex should not match empty string" StatusBadRequest)
        /\ matcher r w req
           = Some (prometheusAPIError w "regex should not match empty string"
                                      StatusBadRequest))
  /\ (forall v compiledRegex, v ∈ labels -> regexp_Compile v = Ok compiledRegex ->
        regexp_MatchString compiledRegex "" = true ->
        rejected StatusBadRequest w (query r w req)
        /\ rejected StatusBadRequest w (matcher r w req)).
Proof.
  intros Hmode Hreq.
  assert (forall v compiledRegex, labels = [v] -> regexp_Compile v = Ok compiledRegex ->
            regexp_MatchString compiledRegex "" = true ->
            query r w req
            = Some (prometheusAPIError w "Regex should not match empty string"
                                       StatusBadRequest)
            /\ matcher r w req
               = Some (prometheusAPIError w "regex should not match empty string"
                                          StatusBadRequest)) as Hempty.
  { intros v re -> Hc Hm. split.
    - unfold query. rewrite (queryMatcher_single r req v Hreq), Hmode, Hc, Hm. reflexivity.
    - apply (matcher_newLabelMatcher_Err r w req [v] (errors_New _)).
      + apply (MustLabelValues_single _ _ Hreq).
      + unfold newLabelMatcher. now rewrite Hmode, Hc, Hm. }
  split; [|split; [exact Hempty|]].
  - intros v err -> Hc. split.
    + unfold query. rewrite (queryMatcher_single r req v Hreq), Hmode, Hc. reflexivity.
    + apply (matcher_newLabelMatcher_Err r w req [v] (fmt_Errorf_w "invalid regex: " err)).
      * apply (MustLabelValues_single _ _ Hreq).
      * unfold newLabelMatcher. now rewrite Hmode, Hc.
  - intros v re Hin Hc Hm.
    destruct labels as [|a [|b l]].
    + now apply elem_of_nil in Hin.
    + apply list_elem_of_singleton in Hin as ->.
      destruct (Hempty a re eq_refl Hc Hm) as [Hq Hs].
      split; eexists; eassumption.
    + split.
      * eexists. unfold query.
        rewrite (queryMatcher_multi r req (a :: b :: l) Hreq) by (simpl; lia).
        rewrite Hmode. reflexivity.
      * eexists.
        apply (matcher_newLabelMatcher_Err r w req (sort_Strings (a :: b :: l))
                 (errors_New "only one label value allowed with regex match")).
        -- now apply MustLabelValues_Some.
        -- unfold newLabelMatcher. rewrite Hmode.
           pose proof (sort_Strings_length (a :: b :: l)) as Hlen.
           destruct (sort_Strings (a :: b :: l)) as [|x [|y l']]; simpl in Hlen;
             [lia | lia | reflexivity].
Qed.

End HandlerFacts.

(** ** The matcher theorems on concrete requests *)

(** The hypotheses of [query_multi_value] hold for the values [team-b],
    [team-a]: rejected in regex mode, the alternation [team-a|team-b]
    otherwise. *)
Lemma query_multi_value_witness :
  @query Sample.external (mkRoutes "tenant" false true false []) []
         (Sample.GET "query=up" ["team-b"; "team-a"])
  = Some [WriteHeader 400; Write "Only one label value allowed with regex match"]
  /\ @queryMatcher Sample.external (mkRoutes "tenant" false false false [])
                   (Sample.GET "query=up" ["team-b"; "team-a"])
     = Some (Inject (mkMatcher "tenant" MatchRegexp "team-a|team-b")).
Proof.
  split.
  - destruct (proj1 (@query_multi_value Sample.external
                       (mkRoutes "tenant" false true false []) []
                       (Sample.GET "query=up" ["team-b"; "team-a"])
                       ["team-b"; "team-a"] eq_refl (le_n 2)) eq_refl)
      as (w' & Hq & Hw' & _).
    rewrite Hq, Hw'. reflexivity.
  - exact (proj1 (proj2 (@query_multi_value Sample.external
                           (mkRoutes "tenant" false false false []) []
                           (Sample.GET "query=up" ["team-b"; "team-a"])
                           ["team-b"; "team-a"] eq_refl (le_n 2)) eq_refl)).
Defined.

(** C1 as stated fails in both modes.  With the values [team-a], [team-b]
    and regex mode disabled, the request is not rejected: the handler builds
    the alternation matcher and, run with the stand-in libraries on the
    query [up], hands the rewritten request to the upstream.  With regex mode
    enabled no matcher is injected: the request is rejected with a 400. *)
Lemma query_multi_value_modes :
  @queryMatcher Sample.external (mkRoutes "tenant" false false false [])
                (Sample.GET "query=up" ["team-a"; "team-b"])
  = Some (Inject (mkMatcher "tenant" MatchRegexp "team-a|team-b"))
  /\ @query Sample.external (mkRoutes "tenant" false false false []) []
            (Sample.GET "query=up" ["team-a"; "team-b"])
     = Some [ServeUpstream
               (set_RawQuery (Sample.GET "query=up" ["team-a"; "team-b"])
                             "query=up%7Btenant%3D~%22team-a%7Cteam-b%22%7D")]
  /\ @query Sample.external (mkRoutes "tenant" false true false []) []
            (Sample.GET "query=up" ["team-a"; "team-b"])
     = Some [WriteHeader 400; Write "Only one label value allowed with regex match"].
Proof. repeat split; vm_compute; reflexivity. Qed.

(** C3.  With exactly one label value and regex mode off, the query handler
    enforces the equality matcher on the configured label with that value
    (and [newLabelMatcher] builds the same matcher for selector-list
    endpoints).  For the value [team-a], the label [tenant] and the query
    [up], run with the stand-in libraries and the enforcer modelled from the
    spec, the upstream receives the query [up{tenant="team-a"}]. *)
Theorem query_single_value :
  (forall (E : External) (r : routes) (w : ResponseWriter) (req : Request) (v : string),
     labelValues req = Some [v] -> regexMatch r = false ->
     queryMatcher r req = Some (Inject (mkMatcher (label r) MatchEqual v))
     /\ query r w req = queryEnforce r (mkMatcher (label r) MatchEqual v) w req
     /\ newLabelMatcher r [v] = Ok (mkMatcher (label r) MatchEqual v))
  /\ exists req',
       @query Sample.external (mkRoutes "tenant" false false false []) []
              (Sample.GET "query=up" ["team-a"])
       = Some [ServeUpstream req']
       /\ Values_Get (@URL_Query Sample.external req') "query"
          = "up{tenant=" +:+ String Sample.dquote ("team-a" +:+ String Sample.dquote "}").
Proof.
  split.
  - intros E r w req v. apply single_value_equality.
  - eexists. split; vm_compute; reflexivity.
Qed.

(** The hypotheses of [query_single_value] hold for the value [team-a]. *)
Lemma query_single_value_witness :
  @queryMatcher Sample.external (mkRoutes "tenant" false false false [])
                (Sample.GET "query=up" ["team-a"])
  = Some (Inject (mkMatcher "tenant" MatchEqual "team-a")).
Proof.
  exact (proj1 (proj1 query_single_value Sample.external
                  (mkRoutes "tenant" false false false []) []
                  (Sample.GET "query=up" ["team-a"]) "team-a" eq_refl eq_refl)).
Defined.

(** The hypotheses of [regex_mode_rejects] hold with the stand-in regexp:
    the value [.*] compiles and matches the empty string, the value [(] does
    not compile, and [.*] beside a second value is rejected as well. *)
Lemma regex_mode_rejects_witness :
  (@query Sample.external (mkRoutes "tenant" false true false []) []
          (Sample.GET "query=up" [".*"])
   = Some [WriteHeader 400; Write "Regex should not match empty string"]
   /\ @matcher Sample.external (mkRoutes "tenant" false true false []) []
               (Sample.GET "query=up" [".*"])
      = Some [WriteHeader 400; Write "regex should not match empty string"])
  /\ (@query Sample.external (mkRoutes "tenant" false true false []) []
             (Sample.GET "query=up" ["("])
      = Some [WriteHeader 400; Write "error parsing regexp: ("])
  /\ rejected 400 [] (@query Sample.external (mkRoutes "tenant" false true false []) []
                             (Sample.GET "query=up" [".*"; "team-a"])).
Proof.
  split; [|split].
  - exact (proj1 (proj2 (@regex_mode_rejects Sample.external
                           (mkRoutes "tenant" false true false []) []
                           (Sample.GET "query=up" [".*"]) [".*"] eq_refl eq_refl))
             ".*" (Sample.Star Sample.Dot) eq_refl eq_refl eq_refl).
  - exact (proj1 (proj1 (@regex_mode_rejects Sample.external
                           (mkRoutes "tenant" false true false []) []
                           (Sample.GET "query=up" ["("]) ["("] eq_refl eq_refl)
                    "(" (errors_New "error parsing regexp: (") eq_refl eq_refl)).
  - exact (proj1 (proj2 (proj2 (@regex_mode_rejects Sample.external
                                  (mkRoutes "tenant" false true false []) []
                                  (Sample.GET "query=up" [".*"; "team-a"])
                                  [".*"; "team-a"] eq_refl eq_refl))
                    ".*" (Sample.Star Sample.Dot) (list_elem_of_here _ _)
                    eq_refl eq_refl)).
Defined.

(** ** The bypass check *)

Section BypassFacts.

Context `{External}.

Lemma slices_Contains_spec (l : list string) (x : string) :
  slices_Contains l x = true <-> x ∈ l.
Proof.
  unfold slices_Contains. rewrite existsb_exists. split.
  - intros (y & Hin & Heq). apply String.eqb_eq in Heq as ->.
    now apply list_elem_of_In.
  - intros Hin. exists x. split; [now apply list_elem_of_In | apply String.eqb_refl].
Qed.

(** A successful extraction leaves the request as it was: the body that was
    read is replaced by a reader over the same bytes. *)
Lemma extractQueryParam_Ok (req req' : Request) (qry : string) :
  extractQueryParam req = (req', Ok qry) -> req' = req /\ qry <> "".
Proof.
  unfold extractQueryParam.
  destruct (String.eqb_spec (Values_Get (URL_Query req) "query") "") as [Hq|Hq]; simpl.
  - destruct (String.eqb (Method req) MethodPost); [|discriminate].
    destruct (Body req) as [[bytes [rerr|]]|] eqn:Hbody; simpl; try discriminate.
    destruct (url_ParseQuery bytes) as [form [perr|]]; [discriminate|].
    destruct (String.eqb_spec (Values_Get form "query") "") as [Hf|Hf]; simpl;
      [discriminate|].
    intros [= <- <-]. split; [|exact Hf].
    destruct req; simpl in *. now subst.
  - intros [= <- <-]. split; [reflexivity | exact Hq].
Qed.

(** Where the extracted value comes from: the URL query string first, the
    form body of a POST otherwise. *)
Lemma extractQueryParam_source (req req' : Request) (qry : string) :
  extractQueryParam req = (req', Ok qry) ->
  qry = Values_Get (URL_Query req) "query"
  \/ (Values_Get (URL_Query req) "query" = "" /\ Method req = MethodPost
      /\ exists body form, Body req = Some body /\ failure body = None
           /\ url_ParseQuery (data body) = (form, None)
           /\ qry = Values_Get form "query").
Proof.
  unfold extractQueryParam.
  destruct (String.eqb_spec (Values_Get (URL_Query req) "query") "") as [Hq|Hq]; simpl.
  - destruct (String.eqb_spec (Method req) MethodPost) as [Hm|Hm]; [|discriminate].
    destruct (Body req) as [[bytes [rerr|]]|] eqn:Hbody; simpl; try discriminate.
    destruct (url_ParseQuery bytes) as [form [perr|]] eqn:Hform; [discriminate|].
    destruct (String.eqb (Values_Get form "query") ""); simpl; [discriminate|].
    intros [= <- <-]. right. split; [exact Hq|]. split; [exact Hm|].
    exists (mkReader bytes None), form. auto.
  - intros [= <- <-]. now left.
Qed.

(** C4.  With a non-empty bypass list: a request whose extracted query value
    is one of the bypass strings goes to the upstream handler exactly as it
    came in, so with no matcher injected; one whose value is not in the list
    goes, unchanged, to the enforcing chain; and when the extraction fails
    the request goes to the enforcing chain as well. *)
Theorem bypassHandler_dispatch (bypass : list string) (upstream enforcerChain : Handler)
    (w : ResponseWriter) (r : Request) :
  bypass <> [] ->
  (forall r' qry, extractQueryParam r = (r', Ok qry) -> qry ∈ bypass ->
     r' = r /\ bypassHandler bypass upstream enforcerChain w r = upstream w r)
  /\ (forall r' qry, extractQueryParam r = (r', Ok qry) -> qry ∉ bypass ->
        r' = r /\ bypassHandler bypass upstream enforcerChain w r = enforcerChain w r)
  /\ (forall r' err, extractQueryParam r = (r', Err err) ->
        bypassHandler bypass upstream enforcerChain w r = enforcerChain w r').
Proof.
  intros Hne. unfold bypassHandler.
  replace (0 <? length bypass)%nat with true
    by (destruct bypass; [congruence|reflexivity]).
  split; [|split].
  - intros r' qry Hx Hin. rewrite Hx.
    apply extractQueryParam_Ok in Hx as [-> _].
    apply slices_Contains_spec in Hin. rewrite Hin. auto.
  - intros r' qry Hx Hin. rewrite Hx.
    apply extractQueryParam_Ok in Hx as [-> _].
    destruct (slices_Contains bypass qry) eqn:Hc; [|auto].
    apply slices_Contains_spec in Hc. contradiction.
  - intros r' err Hx. now rewrite Hx.
Qed.

(** With an empty bypass list nothing is extracted. *)
Lemma bypassHandler_no_list (upstream enforcerChain : Handler)
    (w : ResponseWriter) (r : Request) :
  bypassHandler [] upstream enforcerChain w r = enforcerChain w r.
Proof. reflexivity. Qed.

End BypassFacts.

(** The handler registered for [/api/v1/query] (line 380), with a static
    label extractor. *)
Lemma bypassHandler_dispatch_witness :
  let r := mkRoutes "tenant" false false false ["up"] in
  let route E := @bypassHandler E (bypassQueries r) upstream_ServeHTTP
                   (StaticLabelEnforcer_ExtractLabel ["team-a"]
                      (enforceMethods (@query E r) ["GET"; "POST"])) in
  let bypassed := mkRequest "GET" "query=up" ∅ (Some (strings_NewReader "")) 0 ∅ None in
  let enforced := mkRequest "GET" "query=down" ∅ (Some (strings_NewReader "")) 0 ∅ None in
  let no_query := mkRequest "GET" "" ∅ (Some (strings_NewReader "")) 0 ∅ None in
  route Sample.external [] bypassed = Some [ServeUpstream bypassed]
  /\ route Sample.external [] enforced
     = Some [ServeUpstream
               (set_RawQuery (WithLabelValues enforced ["team-a"])
                             "query=down%7Btenant%3D%22team-a%22%7D")]
  /\ route Sample.external [] no_query = Some [].
Proof.
  intros r route bypassed enforced no_query.
  pose proof (fun req =>
    @bypassHandler_dispatch Sample.external ["up"] upstream_ServeHTTP
      (StaticLabelEnforcer_ExtractLabel ["team-a"]
         (enforceMethods (@query Sample.external r) ["GET"; "POST"]))
      [] req ltac:(discriminate)) as Hd.
  split; [|split].
  - destruct (proj1 (Hd bypassed) bypassed "up" eq_refl (list_elem_of_here _ _))
      as [_ Hb].
    exact Hb.
  - assert ("down" ∉ ["up"]) as Hnot.
    { intros Hin. apply list_elem_of_singleton in Hin. discriminate. }
    destruct (proj1 (proj2 (Hd enforced)) enforced "down" eq_refl Hnot) as [_ He].
    unfold route. change (bypassQueries r) with ["up"].
    rewrite He. vm_compute. reflexivity.
  - unfold route. change (bypassQueries r) with ["up"].
    rewrite (proj2 (proj2 (Hd no_query)) no_query
               (errors_New "no query parameter found in URL or form data") eq_refl).
    vm_compute. reflexivity.
Defined.

(** ** Selector-list endpoints *)

Section SelectorFacts.

Context `{External}.

(** When the loop over the occurrences ends without an error, every
    occurrence parsed and was replaced by the serialization of its matchers
    followed by the injected one. *)
Lemma injectEach_Ok (matchers out : list string) (m : Matcher) :
  injectEach matchers m = (out, None) ->
  Forall2 (fun s s' => exists sel, parser_ParseMetricSelector s = Ok sel
                                   /\ s' = matchersToString (sel ++ [m]))
          matchers out.
Proof.
  revert out. induction matchers as [|s rest IH]; intros out; cbn [injectEach].
  - intros [= <-]. constructor.
  - destruct (parser_ParseMetricSelector s) as [sel|err] eqn:Hs; [|discriminate].
    destruct (injectEach rest m) as [rest' e]. intros [= <- ->].
    constructor; [eauto | now apply IH].
Qed.

(** The first occurrence that does not parse stops the loop with its
    error. *)
Lemma injectEach_Err (matchers out : list string) (m : Matcher) (err : error) :
  injectEach matchers m = (out, Some err) ->
  exists s, s ∈ matchers /\ parser_ParseMetricSelector s = Err err.
Proof.
  revert out. induction matchers as [|s rest IH]; intros out; cbn [injectEach].
  - discriminate.
  - destruct (parser_ParseMetricSelector s) as [sel|e] eqn:Hs.
    + destruct (injectEach rest m) as [rest' e'] eqn:Hrest. intros [= <- ->].
      destruct (IH _ eq_refl) as (s0 & Hin & Hs0).
      exists s0. split; [now apply list_elem_of_further | exact Hs0].
    + intros [= <- <-]. exists s. split; [apply list_elem_of_here | exact Hs].
Qed.


(** When it fails, the error is the parse error of one of the
    occurrences. *)
Lemma injectMatcher_Err (q q' : Values) (m : Matcher) (err : error) :
  injectMatcher q m = (q', Some err) ->
  exists s, s ∈ Values_index q matchersParam /\ parser_ParseMetricSelector s = Err err.
Proof.
  unfold injectMatcher.
  destruct (length (Values_index q matchersParam) =? 0)%nat; [discriminate|].
  destruct (injectEach _ m) as [out e] eqn:Hout. intros [= <- ->].
  eapply injectEach_Err, Hout.
Qed.

End SelectorFacts.


(** ** Query-expression endpoints: enforcing and forwarding *)

Section QueryFacts.

Context `{External}.

Lemma enforceQueryValues_absent (e : string -> result string) (v : Values) :
  has_query v = false ->
  enforceQueryValues e v = (v, url_Encode v, false, None).
Proof.
  unfold has_query, enforceQueryValues. intros Hq.
  apply negb_false_iff in Hq. now rewrite Hq.
Qed.

Lemma enforceQueryValues_present (e : string -> result string) (v : Values) :
  has_query v = true ->
  enforceQueryValues e v
  = match e (Values_Get v queryParam) with
    | Err err => (v, "", true, Some err)
    | Ok q => (Values_Set v queryParam q, url_Encode (Values_Set v queryParam q), true, None)
    end.
Proof.
  unfold has_query, enforceQueryValues. intros Hq.
  apply negb_true_iff in Hq. now rewrite Hq.
Qed.

(** The flag [enforceQueryValues] returns (named [noQuery] in the source)
    tells whether the location holds a query; without one, the values are
    returned as they are. *)
Lemma enforceQueryValues_found (e : string -> result string) (v v' : Values)
    (q : string) (found : bool) (err : option error) :
  enforceQueryValues e v = (v', q, found, err) ->
  found = has_query v
  /\ (has_query v = false -> v' = v /\ q = url_Encode v /\ err = None).
Proof.
  destruct (has_query v) eqn:Hq.
  - rewrite enforceQueryValues_present by exact Hq.
    destruct (e _); intros [= <- <- <- <-]; split; congruence.
  - rewrite enforceQueryValues_absent by exact Hq.
    intros [= <- <- <- <-]. auto.
Qed.

Lemma app_singleton_neq {A : Type} (l : list A) (x : A) : l <> l ++ [x].
Proof.
  intros Heq. apply (f_equal length) in Heq. rewrite length_app in Heq. simpl in Heq. lia.
Qed.

(** C7, as the code has it.  Take a request for which the matcher is built,
    enforcing it in the URL query fails with no error and, for a POST, the
    form parses and enforcing in it fails with no error either.  Then the
    request is handed to the upstream exactly when one of the locations
    holds a non-empty query; a location without one keeps its values, which
    are encoded again as they are; and when no location holds one the handler
    returns having written and forwarded nothing. *)
Theorem query_forwards_iff_found (r : routes) (w : ResponseWriter) (req : Request)
    (m : Matcher) (v1 : Values) (q1 : string) (found1 : bool) :
  queryMatcher r req = Some (Inject m) ->
  enforceQueryValues (Enforce (errorOnReplace r) m) (URL_Query req)
  = (v1, q1, found1, None) ->
  (Method req <> MethodPost ->
     exists w', query r w req = Some w'
       /\ ((exists req', w' = w ++ [ServeUpstream req'])
           <-> has_query (URL_Query req) = true)
       /\ (has_query (URL_Query req) = false ->
           w' = w /\ q1 = url_Encode (URL_Query req)))
  /\ (Method req = MethodPost ->
      forall req2 v2 q2 found2,
        http_ParseForm (set_RawQuery req q1) = (req2, None) ->
        enforceQueryValues (Enforce (errorOnReplace r) m) (PostForm req2)
        = (v2, q2, found2, None) ->
        exists w', query r w req = Some w'
          /\ ((exists req', w' = w ++ [ServeUpstream req'])
              <-> has_query (URL_Query req) = true \/ has_query (PostForm req2) = true)
          /\ (has_query (URL_Query req) = false -> has_query (PostForm req2) = false ->
              w' = w)
          /\ (has_query (URL_Query req) = false -> q1 = url_Encode (URL_Query req))
          /\ (has_query (PostForm req2) = false ->
              v2 = PostForm req2 /\ q2 = url_Encode (PostForm req2))).
Proof.
  intros Hm Hurl.
  destruct (enforceQueryValues_found _ _ _ _ _ _ Hurl) as [Hf1 Hun1].
  split.
  - intros Hmethod.
    assert (String.eqb (Method req) MethodPost = false) as Hpost
      by now apply String.eqb_neq.
    unfold query. rewrite Hm. cbn [mbind option_bind]. unfold queryEnforce.
    rewrite Hurl. cbn [Method set_RawQuery]. rewrite Hpost, Hf1.
    destruct (has_query (URL_Query req)) eqn:Hq; cbn [negb andb upstream_ServeHTTP].
    + eexists. split; [reflexivity|]. split; [|discriminate].
      split; [reflexivity|]. intros _. eexists. reflexivity.
    + exists w. split; [reflexivity|]. split.
      * split; [|discriminate]. intros [req' Hw]. now apply app_singleton_neq in Hw.
      * intros _. split; [reflexivity|]. now apply Hun1.
  - intros Hmethod req2 v2 q2 found2 Hform Hbody.
    destruct (enforceQueryValues_found _ _ _ _ _ _ Hbody) as [Hf2 Hun2].
    assert (String.eqb (Method req) MethodPost = true) as Hpost
      by now apply String.eqb_eq.
    unfold query. rewrite Hm. cbn [mbind option_bind]. unfold queryEnforce.
    rewrite Hurl. cbn [Method set_RawQuery]. rewrite Hpost.
    change (mkRequest (Method req) q1 (Header req) (Body req) (ContentLength req)
                      (PostForm req) (labelValues req))
      with (set_RawQuery req q1).
    rewrite Hform, Hbody, Hf1, Hf2.
    destruct (has_query (URL_Query req)) eqn:Hq1;
      destruct (has_query (PostForm req2)) eqn:Hq2;
      cbn [negb andb upstream_ServeHTTP].
    1-3: eexists; split; [reflexivity|];
         split; [split; [auto | intros _; eexists; reflexivity]|];
         repeat split; intros; try congruence;
         first [ now apply Hun1 | now apply Hun2 ].
    exists w. split; [reflexivity|]. split.
    + split; [|intros [|]; discriminate].
      intros [req' Hw]. now apply app_singleton_neq in Hw.
    + repeat split; intros; first [ reflexivity | now apply Hun1 | now apply Hun2 ].
Qed.

(** The enforcement errors the handler reports: a query that does not parse
    gives a 400, in the URL and in the form body alike. *)
Lemma queryEnforce_parse_failure_url (r : routes) (m : Matcher) (w : ResponseWriter)
    (req : Request) (err : error) :
  has_query (URL_Query req) = true ->
  Enforce (errorOnReplace r) m (Values_Get (URL_Query req) queryParam) = Err err ->
  errors_Is err ErrQueryParse = true ->
  queryEnforce r m w req = Some (prometheusAPIError w (Error err) StatusBadRequest).
Proof.
  intros Hq He Hp. unfold queryEnforce.
  rewrite enforceQueryValues_present by exact Hq. rewrite He.
  unfold enforceFailed. rewrite Hp. now destruct (errors_Is err ErrIllegalLabelMatcher).
Qed.

Lemma queryEnforce_parse_failure_body (r : routes) (m : Matcher) (w : ResponseWriter)
    (req req2 : Request) (v1 : Values) (q1 : string) (found1 : bool) (err : error) :
  enforceQueryValues (Enforce (errorOnReplace r) m) (URL_Query req)
  = (v1, q1, found1, None) ->
  Method req = MethodPost ->
  http_ParseForm (set_RawQuery req q1) = (req2, None) ->
  has_query (PostForm req2) = true ->
  Enforce (errorOnReplace r) m (Values_Get (PostForm req2) queryParam) = Err err ->
  errors_Is err ErrQueryParse = true ->
  queryEnforce r m w req = Some (prometheusAPIError w (Error err) StatusBadRequest).
Proof.
  intros Hurl Hmethod Hform Hq He Hp. unfold queryEnforce.
  rewrite Hurl. cbn [Method set_RawQuery].
  rewrite (proj2 (String.eqb_eq _ _) Hmethod).
  change (mkRequest (Method req) q1 (Header req) (Body req) (ContentLength req)
                    (PostForm req) (labelValues req))
    with (set_RawQuery req q1).
  rewrite Hform. rewrite enforceQueryValues_present by exact Hq. rewrite He.
  unfold enforceFailed. rewrite Hp. now destruct (errors_Is err ErrIllegalLabelMatcher).
Qed.

(** The selector-list handler reports a selector of the URL query that does
    not parse with a 400 ... *)
Lemma matcher_parse_failure_url (r : routes) (w : ResponseWriter) (req : Request)
    (vals : list string) (m : Matcher) (q : Values) (err : error) :
  MustLabelValues req = Some vals -> newLabelMatcher r vals = Ok m ->
  injectMatcher (URL_Query req) m = (q, Some err) ->
  matcher r w req = Some (prometheusAPIError w (Error err) StatusBadRequest).
Proof.
  intros Hv Hm Hinj. unfold matcher. rewrite Hv. cbn [mbind option_bind].
  now rewrite Hm, Hinj.
Qed.

(** ... but returns without writing anything when the selector is in the
    form body of a POST (lines 734-736). *)
Lemma matcher_parse_failure_body (r : routes) (w : ResponseWriter) (req req2 : Request)
    (vals : list string) (m : Matcher) (q q2 : Values) (err : error) :
  MustLabelValues req = Some vals -> newLabelMatcher r vals = Ok m ->
  injectMatcher (URL_Query req) m = (q, None) ->
  Method req = MethodPost ->
  http_ParseForm (set_RawQuery req (url_Encode q)) = (req2, None) ->
  injectMatcher (PostForm req2) m = (q2, Some err) ->
  matcher r w req = Some w.
Proof.
  intros Hv Hm Hinj Hmethod Hform Hbody. unfold matcher.
  rewrite Hv. cbn [mbind option_bind]. rewrite Hm, Hinj.
  cbn [Method set_RawQuery]. rewrite (proj2 (String.eqb_eq _ _) Hmethod).
  change (mkRequest (Method req) (url_Encode q) (Header req) (Body req)
                    (ContentLength req) (PostForm req) (labelValues req))
    with (set_RawQuery req (url_Encode q)).
  now rewrite Hform, Hbody.
Qed.

End QueryFacts.

(** The hypotheses of [query_forwards_iff_found] hold with the stand-in
    libraries: a GET without a query returns having done nothing, a POST
    with the query in its form body is forwarded. *)
Lemma query_forwards_iff_found_witness :
  let r := mkRoutes "tenant" false false false [] in
  @query Sample.external r [] (Sample.GET "start=0" ["team-a"]) = Some []
  /\ exists req', @query Sample.external r [] (Sample.POST "" "query=up" ["team-a"])
                  = Some [ServeUpstream req'].
Proof.
  intros r. set (m := mkMatcher "tenant" MatchEqual "team-a"). split.
  - set (req := Sample.GET "start=0" ["team-a"]).
    assert (@enforceQueryValues Sample.external
              (@Enforce Sample.external (errorOnReplace r) m)
              (@URL_Query Sample.external req)
            = (@URL_Query Sample.external req, "start=0", false, None)) as Hurl
      by (vm_compute; reflexivity).
    destruct (proj1 (@query_forwards_iff_found Sample.external r [] req m _ _ _
                       eq_refl Hurl) ltac:(discriminate))
      as (w' & Hq & _ & Hnone).
    destruct (Hnone eq_refl) as [-> _]. exact Hq.
  - set (req := Sample.POST "" "query=up" ["team-a"]).
    assert (@enforceQueryValues Sample.external
              (@Enforce Sample.external (errorOnReplace r) m)
              (@URL_Query Sample.external req)
            = (∅, "", false, None)) as Hurl
      by (vm_compute; reflexivity).
    set (req2 := fst (Sample.ParseForm (set_RawQuery req ""))).
    assert (@http_ParseForm Sample.external (set_RawQuery req "") = (req2, None)) as Hform
      by (vm_compute; reflexivity).
    assert (@enforceQueryValues Sample.external
              (@Enforce Sample.external (errorOnReplace r) m) (PostForm req2)
            = (fst (fst (fst (@enforceQueryValues Sample.external
                                (@Enforce Sample.external (errorOnReplace r) m)
                                (PostForm req2)))),
               "query=up%7Btenant%3D%22team-a%22%7D", true, None)) as Hbody
      by (vm_compute; reflexivity).
    destruct (proj2 (@query_forwards_iff_found Sample.external r [] req m _ _ _
                       eq_refl Hurl) eq_refl req2 _ _ _ Hform Hbody)
      as (w' & Hq & Hiff & _).
    destruct (proj2 Hiff (or_intror eq_refl)) as [req' ->].
    exists req'. exact Hq.
Defined.

(** C7 as stated fails: a request whose URL query string holds the query
    parameter is not always forwarded.  With an empty value ([?query=]) the
    handler returns having written and forwarded nothing; with the query
    [up], two label values and regex mode, the request is rejected with a
    400. *)
Lemma query_present_not_forwarded :
  (@URL_Query Sample.external (Sample.GET "query=" ["team-a"]) !! "query" = Some [""]
   /\ @query Sample.external (mkRoutes "tenant" false false false []) []
             (Sample.GET "query=" ["team-a"])
      = Some [])
  /\ (@URL_Query Sample.external (Sample.GET "query=up" ["team-a"; "team-b"]) !! "query"
      = Some ["up"]
      /\ @query Sample.external (mkRoutes "tenant" false true false []) []
                (Sample.GET "query=up" ["team-a"; "team-b"])
         = Some [WriteHeader 400; Write "Only one label value allowed with regex match"]).
Proof. repeat split; vm_compute; reflexivity. Qed.

(** C8 fails on the form body of a selector-list POST.  The selector [up{]
    does not parse; sent as [match[]] in the URL query it is answered with a
    400, but sent in the form body of a POST the handler returns without
    writing a status or a body and without forwarding, which net/http
    answers with an empty 200.  The query handler reports the same failure
    in a form body with a 400. *)
Theorem matcher_body_parse_failure_silent :
  let r := mkRoutes "tenant" false false false [] in
  (exists err, Sample.ParseMetricSelector "up{" = Err err)
  /\ @matcher Sample.external r [] (Sample.GET "match[]=up{" ["team-a"])
     = Some [WriteHeader 400; Write "parse error: up{"]
  /\ @matcher Sample.external r [] (Sample.POST "" "match[]=up{" ["team-a"]) = Some []
  /\ status ([] : ResponseWriter) = None
  /\ @query Sample.external r [] (Sample.POST "" "query=up{" ["team-a"])
     = Some [WriteHeader 400; Write "parse error: up{"].
Proof.
  intros r. split; [eexists; vm_compute; reflexivity|].
  repeat split; vm_compute; reflexivity.
Qed.

(** * Further properties *)

(** ** Splitting strings *)

Lemma string_skip_append (p rest : string) :
  string_skip (String.length p) (p +:+ rest) = rest.
Proof. induction p as [|c p IH]; [reflexivity|]. rewrite append_String. exact IH. Qed.

Lemma strings_Cut_byte (c x : ascii) (s : string) :
  strings_Cut (String x s) (String c EmptyString)
  = if Ascii.eqb x c then Some (EmptyString, s)
    else '(before, after) ← strings_Cut s (String c EmptyString);
         Some (String x before, after).
Proof.
  cbn [strings_Cut]. unfold strings.HasPrefix at 1. cbn [String.prefix].
  destruct (ascii_dec c x) as [->|Hne].
  - rewrite Ascii.eqb_refl. now destruct s.
  - destruct (Ascii.eqb_spec x c) as [->|_]; [congruence|reflexivity].
Qed.

Lemma strings_Cut_empty (c : ascii) : strings_Cut EmptyString (String c EmptyString) = None.
Proof. reflexivity. Qed.

Lemma split_byte_nonempty (c : ascii) (s : string) : split_byte c s <> [].
Proof.
  induction s as [|x s IH]; cbn [split_byte]; [discriminate|].
  destruct (Ascii.eqb x c); [discriminate|].
  destruct (split_byte c s); [contradiction|discriminate].
Qed.

Lemma strings_Cut_None_split (c : ascii) (s : string) :
  strings_Cut s (String c EmptyString) = None -> split_byte c s = [s].
Proof.
  induction s as [|x s IH]; [reflexivity|].
  rewrite strings_Cut_byte. cbn [split_byte].
  destruct (Ascii.eqb x c); [discriminate|].
  destruct (strings_Cut s (String c EmptyString)) as [[before after]|]; [discriminate|].
  intros _. now rewrite IH.
Qed.

Lemma strings_Cut_Some_split (c : ascii) (s before after : string) :
  strings_Cut s (String c EmptyString) = Some (before, after) ->
  split_byte c s = before :: split_byte c after
  /\ String.length after < String.length s.
Proof.
  revert before. induction s as [|x s IH]; intros before; [discriminate|].
  rewrite strings_Cut_byte. cbn [split_byte].
  destruct (Ascii.eqb x c).
  - intros [= <- <-]. split; [reflexivity | simpl; lia].
  - destruct (strings_Cut s (String c EmptyString)) as [[b a]|]; [|discriminate].
    cbn [mbind option_bind]. intros [= <- <-].
    destruct (IH b eq_refl) as [-> Hlen]. split; [reflexivity | simpl; lia].
Qed.

(** For a one-byte separator [strings_Split] is [split_byte], whatever fuel
    covers the length of the string. *)
Lemma Split_pieces_byte (c : ascii) (fuel : nat) (s : string) :
  String.length s <= fuel ->
  Split_pieces fuel s (String c EmptyString) = split_byte c s.
Proof.
  revert s. induction fuel as [|fuel IH]; intros s Hlen.
  - destruct s; [reflexivity | simpl in Hlen; lia].
  - cbn [Split_pieces].
    destruct (strings_Cut s (String c EmptyString)) as [[before after]|] eqn:Hcut.
    + apply strings_Cut_Some_split in Hcut as [-> Hafter].
      rewrite IH by lia. reflexivity.
    + symmetry. now apply strings_Cut_None_split.
Qed.

Lemma strings_Split_byte (c : ascii) (s : string) :
  strings_Split s (String c EmptyString) = split_byte c s.
Proof. unfold strings_Split. now apply Split_pieces_byte. Qed.

Lemma split_byte_append (c : ascii) (a b : string) :
  split_byte c (a +:+ String c b) = split_byte c a ++ split_byte c b.
Proof.
  induction a as [|x a IH].
  - rewrite append_empty_l. cbn [split_byte]. now rewrite Ascii.eqb_refl.
  - rewrite append_String. cbn [split_byte].
    destruct (Ascii.eqb x c); [now rewrite IH|].
    rewrite IH. pose proof (split_byte_nonempty c a) as Hne.
    destruct (split_byte c a); [contradiction|reflexivity].
Qed.

(** Splitting a joined list at the joining byte splits every element. *)
Lemma split_byte_Join (c : ascii) (elems : list string) :
  elems <> [] ->
  split_byte c (strings.Join elems (String c EmptyString))
  = flat_map (split_byte c) elems.
Proof.
  induction elems as [|e rest IH]; [congruence|]. intros _.
  destruct rest as [|e' rest].
  - cbn [strings.Join flat_map]. now rewrite app_nil_r.
  - change (strings.Join (e :: e' :: rest) (String c EmptyString))
      with (e +:+ String c EmptyString +:+ strings.Join (e' :: rest) (String c EmptyString)).
    change (String c EmptyString +:+ ?x) with (String c x).
    rewrite split_byte_append. cbn [flat_map]. f_equal. now apply IH.
Qed.

(** No piece holds the separator, and joining the pieces gives the string
    back. *)
Lemma split_byte_pieces (c : ascii) (s : string) :
  Forall (fun piece => Sample.contains c piece = false) (split_byte c s)
  /\ strings.Join (split_byte c s) (String c EmptyString) = s.
Proof.
  induction s as [|x s [IHf IHj]]; cbn [split_byte].
  - split; [repeat constructor | reflexivity].
  - destruct (Ascii.eqb_spec x c) as [->|Hne].
    + split; [constructor; [reflexivity | exact IHf]|].
      pose proof (split_byte_nonempty c s) as Hn.
      destruct (split_byte c s) as [|p ps] eqn:Hs; [contradiction|].
      change (strings.Join ("" :: p :: ps) (String c EmptyString))
        with ("" +:+ String c EmptyString +:+ strings.Join (p :: ps) (String c EmptyString)).
      now rewrite IHj.
    + pose proof (split_byte_nonempty c s) as Hn.
      destruct (split_byte c s) as [|p ps] eqn:Hs; [contradiction|].
      apply Forall_cons in IHf as [Hp Hps]. split.
      * constructor; [|exact Hps]. unfold Sample.contains in *.
        cbn [list_ascii_of_string existsb]. rewrite Hp.
        destruct (Ascii.eqb_spec c x) as [->|_]; [congruence|reflexivity].
      * destruct ps as [|p' ps].
        -- cbn [strings.Join] in *. now subst.
        -- change (strings.Join (String x p :: p' :: ps) (String c EmptyString))
             with (String x (p +:+ String c EmptyString
                             +:+ strings.Join (p' :: ps) (String c EmptyString))).
           f_equal. exact IHj.
Qed.

(** ** The slice helpers *)

Lemma drop_S_middle {A : Type} (done todo : list A) (x : A) :
  drop (S (length done)) (done ++ x :: todo) = todo.
Proof. induction done as [|y done IH]; [reflexivity | exact IH]. Qed.

Lemma take_app_exact {A : Type} (l rest : list A) (n : nat) :
  n = length l -> take n (l ++ rest) = l.
Proof. intros ->. apply take_app_length. Qed.

Lemma drop_app_exact {A : Type} (l rest : list A) (n : nat) :
  n = length l -> drop n (l ++ rest) = rest.
Proof. intros ->. apply drop_app_length. Qed.

Lemma filter_nonempty_id (l : list string) :
  ("" ∉ l) -> filter (fun x => x <> "") l = l.
Proof.
  intros Hl. induction l as [|x l IH]; [reflexivity|].
  apply not_elem_of_cons in Hl as [Hx Hl].
  rewrite filter_cons_True by congruence. now rewrite IH.
Qed.

Lemma filter_nonempty_no_empty (l : list string) :
  "" ∉ filter (fun x => x <> "") l.
Proof. intros Hin. apply list_elem_of_filter in Hin as [Hne _]. now apply Hne. Qed.

Section SliceFacts.

Context `{Library}.

(** An [append] that fits the capacity stays in the array. *)
Lemma append_at_fits (t : tracked) (i : nat) (xs : list string) :
  i + length xs <= cap (cur t) ->
  append_at t i xs
  = mkTracked (mkSlice (take i (array (cur t)) ++ xs ++ drop (i + length xs) (array (cur t)))
                       (i + length xs))
              (behind t).
Proof.
  intros Hfits. unfold append_at.
  now replace (i + length xs <=? cap (cur t))%nat with true
    by (symmetry; now apply Nat.leb_le).
Qed.

(** In either case the slice holds its first [i] elements and then [xs],
    and the caller's array keeps its length. *)
Lemma append_at_shape (t : tracked) (i : nat) (xs : list string) :
  i <= cap (cur t) ->
  exists rest' b',
    append_at t i xs
    = mkTracked (mkSlice (take i (array (cur t)) ++ xs ++ rest') (i + length xs)) b'
    /\ length (default (take i (array (cur t)) ++ xs ++ rest') b')
       = length (caller_array t).
Proof.
  intros Hi. unfold append_at, caller_array.
  destruct (Nat.leb_spec (i + length xs) (cap (cur t))) as [Hfits|Hnot].
  - eexists _, _. split; [reflexivity|].
    destruct (behind t); [reflexivity|]. unfold cap in *. cbn [default from_option id].
    rewrite !length_app, length_take, length_drop. lia.
  - eexists _, _. split; reflexivity.
Qed.

Lemma removeEmptyValues_loop_spec (todo done rest : list string) (n fuel : nat)
    (b : option (list string)) :
  n = length done + length todo ->
  length todo < fuel ->
  exists rest',
    removeEmptyValues_loop fuel (Z.of_nat (length done))
                           (mkTracked (mkSlice (done ++ todo ++ rest) n) b)
    = Some (mkTracked (mkSlice (done ++ filter (fun x => x <> "") todo ++ rest')
                               (length done + length (filter (fun x => x <> "") todo)))
                      b)
    /\ length rest' = length rest + length todo - length (filter (fun x => x <> "") todo)
    /\ (("" ∉ todo) -> rest' = rest).
Proof.
  revert done rest n fuel. induction todo as [|x todo IH]; intros done rest n fuel Hn Hfuel.
  - destruct fuel; [simpl in Hfuel; lia|]. cbn [removeEmptyValues_loop cur len].
    replace (Z.of_nat (length done) <? Z.of_nat n)%Z with false
      by (symmetry; apply Z.ltb_ge; simpl in Hn; lia).
    exists rest. rewrite filter_nil. cbn [length app]. simpl in Hn.
    replace (length done + 0) with n by lia.
    split; [reflexivity|]. split; [lia|auto].
  - destruct fuel; [simpl in Hfuel; lia|]. cbn [removeEmptyValues_loop cur len].
    cbn [length] in Hn.
    replace (Z.of_nat (length done) <? Z.of_nat n)%Z with true
      by (symmetry; apply Z.ltb_lt; lia).
    replace (Z.of_nat (length done) <? 0)%Z with false
      by (symmetry; apply Z.ltb_ge; lia).
    rewrite Nat2Z.id.
    assert (elems (mkSlice (done ++ (x :: todo) ++ rest) n) = done ++ x :: todo) as Helems.
    { unfold elems. cbn [array len]. rewrite app_assoc.
      apply take_app_exact. rewrite length_app. simpl. lia. }
    rewrite Helems. rewrite list_lookup_middle by reflexivity.
    cbn [mbind option_bind].
    destruct (String.eqb_spec x "") as [->|Hx].
    + replace (Z.of_nat (length done) - 1 + 1)%Z with (Z.of_nat (length done)) by lia.
      replace (Z.to_nat (Z.of_nat (length done) + 1)) with (S (length done)) by lia.
      rewrite drop_S_middle.
      rewrite append_at_fits
        by (unfold cap; cbn [cur array]; rewrite !length_app; simpl; lia).
      cbn [cur array behind].
      rewrite (take_app_exact done) by reflexivity.
      destruct (IH done (drop (length done + length todo) (done ++ ("" :: todo) ++ rest))
                   (length done + length todo) fuel eq_refl ltac:(simpl in Hfuel; lia))
        as (rest' & -> & Hlen & _).
      exists rest'. rewrite filter_cons_False by (intros Hne; now apply Hne).
      split; [reflexivity|]. split.
      * rewrite Hlen, length_drop, !length_app. cbn [length].
        pose proof (length_filter (fun x : string => x <> "") todo). lia.
      * intros Hno. exfalso. apply Hno. apply list_elem_of_here.
    + replace (Z.of_nat (length done) + 1)%Z with (Z.of_nat (length (done ++ [x])))
        by (rewrite length_app; simpl; lia).
      replace (done ++ (x :: todo) ++ rest) with ((done ++ [x]) ++ todo ++ rest)
        by (rewrite <- app_assoc; reflexivity).
      destruct (IH (done ++ [x]) rest n fuel
                   ltac:(rewrite length_app; simpl; lia) ltac:(simpl in Hfuel; lia))
        as (rest' & -> & Hlen & Hsame).
      exists rest'. rewrite filter_cons_True by exact Hx.
      rewrite <- !app_assoc. cbn [app]. rewrite length_app. cbn [length].
      replace (length done + 1 + length (filter (fun x0 : string => x0 <> "") todo))
        with (length done + S (length (filter (fun x0 : string => x0 <> "") todo))) by lia.
      split; [reflexivity|]. split; [lia|].
      intros Hno. apply Hsame. now apply not_elem_of_cons in Hno as [_ Hno].
Qed.

Lemma splitValues_loop_spec (sep : string) (todo done rest : list string) (n fuel : nat)
    (b : option (list string)) :
  n = length done + length todo ->
  length todo < fuel ->
  exists rest' b',
    splitValues_loop fuel (length done) (mkTracked (mkSlice (done ++ todo ++ rest) n) b) sep
    = Some (mkTracked (mkSlice (done ++ flat_map (fun x => strings_Split x sep) todo ++ rest')
                               (length done
                                + length (flat_map (fun x => strings_Split x sep) todo)))
                      b')
    /\ length (default (done ++ flat_map (fun x => strings_Split x sep) todo ++ rest') b')
       = length (default (done ++ todo ++ rest) b)
    /\ (Forall (fun x => strings_Split x sep = [x]) todo -> rest' = rest /\ b' = b).
Proof.
  revert done rest n fuel b.
  induction todo as [|x todo IH]; intros done rest n fuel b Hn Hfuel.
  - destruct fuel; [simpl in Hfuel; lia|]. cbn [splitValues_loop cur len flat_map].
    simpl in Hn.
    replace (length done <? n)%nat with false by (symmetry; apply Nat.ltb_ge; lia).
    exists rest, b. cbn [length app]. replace (length done + 0) with n by lia.
    split; [reflexivity|auto].
  - destruct fuel; [simpl in Hfuel; lia|]. cbn [splitValues_loop cur len].
    cbn [length] in Hn.
    replace (length done <? n)%nat with true by (symmetry; apply Nat.ltb_lt; lia).
    assert (elems (mkSlice (done ++ (x :: todo) ++ rest) n) = done ++ x :: todo) as Helems.
    { unfold elems. cbn [array len]. rewrite app_assoc.
      apply take_app_exact. rewrite length_app. simpl. lia. }
    rewrite Helems. rewrite list_lookup_middle by reflexivity.
    cbn [mbind option_bind]. rewrite drop_S_middle.
    set (sp := strings_Split x sep).
    destruct (append_at_shape (mkTracked (mkSlice (done ++ (x :: todo) ++ rest) n) b)
                (length done) (sp ++ todo)
                ltac:(unfold cap; cbn [cur array]; rewrite length_app; lia))
      as (rest1 & b1 & Happ & Hcaller).
    unfold caller_array in Hcaller. cbn [cur array behind] in Happ, Hcaller.
    rewrite (take_app_exact done) in Happ, Hcaller by reflexivity.
    replace (done ++ (sp ++ todo) ++ rest1) with ((done ++ sp) ++ todo ++ rest1)
      in Happ, Hcaller by (now rewrite <- !app_assoc).
    destruct (IH (done ++ sp) rest1 (length done + length (sp ++ todo)) fuel b1
                 ltac:(rewrite !length_app; lia) ltac:(simpl in Hfuel; lia))
      as (rest' & b' & Hloop & Hlen & Hsame).
    rewrite length_app in Hloop.
    exists rest', b'. split; [|split].
    + rewrite Happ, Hloop. cbn [flat_map]. fold sp.
      rewrite <- !app_assoc, !length_app. do 3 f_equal. lia.
    + cbn [flat_map]. fold sp. rewrite <- Hcaller, <- Hlen.
      now rewrite <- !app_assoc.
    + intros Hall. inversion Hall as [|? ? Hx Htodo]; subst.
      assert (rest1 = rest /\ b1 = b) as [-> ->].
      { revert Happ. unfold sp. rewrite Hx.
        rewrite append_at_fits
          by (unfold cap; cbn [cur array]; rewrite ?length_app; simpl;
              rewrite ?length_app; lia).
        cbn [cur array behind]. rewrite (take_app_exact done) by reflexivity.
        intros [= Harr Hb]. split; [|congruence].
        rewrite <- !app_assoc in Harr. cbn [app] in Harr.
        apply app_inv_head in Harr. injection Harr as Harr.
        apply app_inv_head in Harr. rewrite <- Harr.
        replace (done ++ x :: todo ++ rest) with ((done ++ x :: todo) ++ rest)
          by (rewrite <- app_assoc; reflexivity).
        apply drop_app_exact. rewrite length_app. reflexivity. }
      now apply Hsame.
Qed.

Lemma trimValues_loop_spec (todo done rest : list string) (n fuel : nat)
    (b : option (list string)) :
  n = length done + length todo ->
  length todo < fuel ->
  trimValues_loop fuel (length done) (mkTracked (mkSlice (done ++ todo ++ rest) n) b)
  = Some (mkTracked (mkSlice (done ++ map strings_TrimSpace todo ++ rest) n) b).
Proof.
  revert done n fuel. induction todo as [|x todo IH]; intros done n fuel Hn Hfuel.
  - destruct fuel; [simpl in Hfuel; lia|]. cbn [trimValues_loop cur len map].
    simpl in Hn.
    replace (length done <? n)%nat with false by (symmetry; apply Nat.ltb_ge; lia).
    reflexivity.
  - destruct fuel; [simpl in Hfuel; lia|]. cbn [trimValues_loop cur len array behind].
    cbn [length] in Hn.
    replace (length done <? n)%nat with true by (symmetry; apply Nat.ltb_lt; lia).
    assert (elems (mkSlice (done ++ (x :: todo) ++ rest) n) = done ++ x :: todo) as Helems.
    { unfold elems. cbn [array len]. rewrite app_assoc.
      apply take_app_exact. rewrite length_app. simpl. lia. }
    rewrite Helems. rewrite list_lookup_middle by reflexivity.
    cbn [mbind option_bind].
    replace (<[length done:=strings_TrimSpace x]> (done ++ (x :: todo) ++ rest))
      with ((done ++ [strings_TrimSpace x]) ++ todo ++ rest).
    2:{ rewrite <- (Nat.add_0_r (length done)) at 1. rewrite insert_app_r.
        now rewrite <- app_assoc. }
    replace (S (length done)) with (length (done ++ [strings_TrimSpace x]))
      by (rewrite length_app; simpl; lia).
    rewrite IH by (rewrite ?length_app; simpl in *; lia).
    cbn [map]. now rewrite <- !app_assoc.
Qed.

(** The helpers on a slice whose length is within its capacity. *)
Lemma removeEmptyValues_spec (t : tracked) :
  len (cur t) <= cap (cur t) ->
  exists arr',
    removeEmptyValues t
    = Some (mkTracked (mkSlice arr' (length (filter (fun x => x <> "") (elems (cur t)))))
                      (behind t))
    /\ take (length (filter (fun x => x <> "") (elems (cur t)))) arr'
       = filter (fun x => x <> "") (elems (cur t))
    /\ length arr' = cap (cur t)
    /\ (("" ∉ elems (cur t)) -> arr' = array (cur t)).
Proof.
  destruct t as [[arr n] b]. unfold cap, elems. cbn [cur array len behind]. intros Hwf.
  assert (length (take n arr) = n) as Hlen by (rewrite length_take; lia).
  destruct (removeEmptyValues_loop_spec (take n arr) [] (drop n arr) n (S n) b
              ltac:(simpl; lia) ltac:(lia)) as (rest' & Hloop & Hrest & Hsame).
  cbn [app length Nat.add] in Hloop. rewrite take_drop in Hloop.
  eexists. split; [exact Hloop|]. split; [now apply take_app_exact|]. split.
  - rewrite length_app, Hrest, length_drop.
    pose proof (length_filter (fun x : string => x <> "") (take n arr)). lia.
  - intros Hno. rewrite (Hsame Hno), filter_nonempty_id by exact Hno. apply take_drop.
Qed.

Lemma splitValues_spec (t : tracked) (sep : string) :
  len (cur t) <= cap (cur t) ->
  exists t',
    splitValues t sep = Some t'
    /\ elems (cur t') = flat_map (fun x => strings_Split x sep) (elems (cur t))
    /\ len (cur t') <= cap (cur t')
    /\ length (caller_array t') = length (caller_array t)
    /\ (Forall (fun x => strings_Split x sep = [x]) (elems (cur t)) -> t' = t).
Proof.
  destruct t as [[arr n] b]. unfold cap, elems, caller_array.
  cbn [cur array len behind]. intros Hwf.
  assert (length (take n arr) = n) as Hlen by (rewrite length_take; lia).
  destruct (splitValues_loop_spec sep (take n arr) [] (drop n arr) n (S n) b
              ltac:(simpl; lia) ltac:(lia)) as (rest' & b' & Hloop & Hcaller & Hsame).
  cbn [app length Nat.add] in Hloop, Hcaller. rewrite take_drop in Hloop, Hcaller.
  eexists. split; [exact Hloop|]. cbn [cur array len behind].
  split; [now apply take_app_exact|].
  split; [rewrite length_app; lia|]. split; [exact Hcaller|].
  intros Hall. destruct (Hsame Hall) as [-> ->].
  assert (flat_map (fun x => strings_Split x sep) (take n arr) = take n arr) as ->.
  { clear -Hall. induction Hall as [|x l Hx _ IH]; [reflexivity|].
    cbn [flat_map]. now rewrite Hx, IH. }
  now rewrite take_drop, Hlen.
Qed.

Lemma trimValues_spec (t : tracked) :
  len (cur t) <= cap (cur t) ->
  trimValues t
  = Some (mkTracked (mkSlice (map strings_TrimSpace (elems (cur t))
                              ++ drop (len (cur t)) (array (cur t)))
                             (len (cur t)))
                    (behind t)).
Proof.
  destruct t as [[arr n] b]. unfold cap, elems, trimValues. cbn [cur array len behind].
  intros Hwf.
  assert (length (take n arr) = n) as Hlen by (rewrite length_take; lia).
  pose proof (trimValues_loop_spec (take n arr) [] (drop n arr) n (S n) b
                ltac:(simpl; lia) ltac:(lia)) as Hloop.
  cbn [app length] in Hloop. rewrite take_drop in Hloop. exact Hloop.
Qed.

End SliceFacts.

(** A string without the separator is its own single piece. *)
Lemma split_byte_absent (c : ascii) (s : string) :
  Sample.contains c s = false -> split_byte c s = [s].
Proof.
  unfold Sample.contains.
  induction s as [|x s IH]; cbn [split_byte list_ascii_of_string existsb]; [reflexivity|].
  intros Hno. apply orb_false_iff in Hno as [Hx Hs].
  rewrite Ascii.eqb_sym, Hx. now rewrite (IH Hs).
Qed.

(** X1.  On a slice whose length is within its capacity [removeEmptyValues]
    returns, without running out of fuel or panicking, exactly the non-empty
    elements in their order.  It works in the slice's own array: the
    capacity stays, no new array is made, a slice without empty elements
    comes back as it is, and removing again changes nothing. *)
Theorem removeEmptyValues_filter `{Library} (t : tracked) :
  len (cur t) <= cap (cur t) ->
  exists t',
    removeEmptyValues t = Some t'
    /\ elems (cur t') = filter (fun x => x <> "") (elems (cur t))
    /\ cap (cur t') = cap (cur t)
    /\ behind t' = behind t
    /\ (("" ∉ elems (cur t)) -> t' = t)
    /\ removeEmptyValues t' = Some t'.
Proof.
  intros Hwf.
  destruct (removeEmptyValues_spec t Hwf) as (arr' & Hrun & Hkept & Hcap & Hsame).
  set (kept := filter (fun x => x <> "") (elems (cur t))) in *.
  assert (length (elems (cur t)) = len (cur t)) as Hlen
    by (unfold elems; rewrite length_take; unfold cap in Hwf; lia).
  assert (length kept <= len (cur t)) as Hk
    by (rewrite <- Hlen; apply length_filter).
  eexists. split; [exact Hrun|]. unfold elems at 1, cap at 1. cbn [cur array len behind].
  split; [exact Hkept|]. split; [exact Hcap|]. split; [reflexivity|]. split.
  - intros Hno. rewrite (Hsame Hno). unfold kept.
    rewrite filter_nonempty_id, Hlen by exact Hno. now destruct t as [[arr n] b].
  - destruct (removeEmptyValues_spec (mkTracked (mkSlice arr' (length kept)) (behind t)))
      as (arr'' & Hrun' & _ & _ & Hsame').
    { unfold cap. cbn [cur array len]. lia. }
    unfold elems in Hrun', Hsame'. cbn [cur array len behind] in Hrun', Hsame'.
    rewrite Hkept in Hrun', Hsame'.
    rewrite Hrun', Hsame' by apply filter_nonempty_no_empty.
    now rewrite filter_nonempty_id by apply filter_nonempty_no_empty.
Qed.

(** Four values, two of them empty, on an array with room for one more. *)
Lemma removeEmptyValues_filter_witness :
  let t := mkTracked (mkSlice [""; "a"; ""; "b"; "spare"] 4) None in
  exists t',
    @removeEmptyValues SampleText.library t = Some t'
    /\ elems (cur t') = ["a"; "b"]
    /\ cap (cur t') = 5
    /\ behind t' = None.
Proof.
  intros t.
  destruct (@removeEmptyValues_filter SampleText.library t ltac:(vm_compute; lia))
    as (t' & Hrun & Helems & Hcap & Hbehind & _).
  exists t'. split; [exact Hrun|]. split; [|split; assumption].
  rewrite Helems. reflexivity.
Defined.

(** X2.  For a non-empty separator, on a slice whose length is within its
    capacity, [splitValues] returns, without running out of fuel, the pieces
    of every element in order: each element is replaced by its
    [strings.Split].  For a one-byte separator no piece holds the separator,
    joining the result with it gives back the elements joined with it, and a
    slice none of whose elements holds the separator comes back as it is, on
    the same array. *)
Theorem splitValues_flat_map `{Library} (t : tracked) (sep : string) :
  sep <> "" ->
  len (cur t) <= cap (cur t) ->
  exists t',
    splitValues t sep = Some t'
    /\ elems (cur t') = flat_map (fun x => strings_Split x sep) (elems (cur t))
    /\ (forall c, sep = String c EmptyString ->
          Forall (fun piece => Sample.contains c piece = false) (elems (cur t'))
          /\ (elems (cur t) <> [] ->
              elems (cur t') = split_byte c (strings.Join (elems (cur t)) sep))
          /\ (Forall (fun x => Sample.contains c x = false) (elems (cur t)) -> t' = t)).
Proof.
  intros _ Hwf.
  destruct (splitValues_spec t sep Hwf) as (t' & Hrun & Helems & _ & _ & Hsame).
  exists t'. split; [exact Hrun|]. split; [exact Helems|].
  intros c ->. rewrite Helems. split; [|split].
  - apply Forall_flat_map, Forall_forall. intros x _.
    rewrite strings_Split_byte. apply split_byte_pieces.
  - intros Hne. rewrite split_byte_Join by exact Hne.
    apply flat_map_ext. intros x. apply strings_Split_byte.
  - intros Hall. apply Hsame. eapply Forall_impl; [exact Hall|].
    intros x Hx. cbn beta in Hx. rewrite strings_Split_byte. now apply split_byte_absent.
Qed.

(** [splitValues] at the separator the header extractor passes, on an array
    without spare capacity: the pieces do not fit, and the slice moves to a
    new array. *)
Lemma splitValues_flat_map_witness :
  let t := mkTracked (mkSlice ["a,b"; ""; "c"] 3) None in
  exists t',
    @splitValues SampleText.library t "," = Some t'
    /\ elems (cur t') = ["a"; "b"; ""; "c"].
Proof.
  intros t.
  destruct (@splitValues_flat_map SampleText.library t ","
              ltac:(discriminate) ltac:(vm_compute; lia))
    as (t' & Hrun & Helems & _).
  exists t'. split; [exact Hrun|]. rewrite Helems. reflexivity.
Defined.

(** ** The header label extractor *)

Section HeaderFacts.

Context `{External} `{Library}.

Import HTTPHeaderEnforcer.

Lemma header_slice_elems (hhe : HTTPHeaderEnforcer) (r : Request) :
  elems (cur (header_slice hhe r)) = Values_index (Header r) (Name hhe)
  /\ len (cur (header_slice hhe r)) <= cap (cur (header_slice hhe r))
  /\ caller_array (header_slice hhe r) = array (cur (header_slice hhe r))
  /\ take (len (cur (header_slice hhe r))) (array (cur (header_slice hhe r)))
     = Values_index (Header r) (Name hhe).
Proof.
  unfold header_slice, elems, cap, caller_array. cbn [cur array len behind].
  rewrite take_app_length, length_app. repeat split; try reflexivity. lia.
Qed.

(** [getLabelValues] returns the kept values, or the error when none is
    kept, and leaves a header of the same length. *)
Lemma getLabelValues_spec (hhe : HTTPHeaderEnforcer) (r : Request) :
  exists after,
    getLabelValues hhe r
    = Some (match header_values hhe r with
            | [] => Err (errors_New ("missing HTTP header " +:+ strconv_Quote (Name hhe)))
            | values => Ok values
            end, after)
    /\ length after = length (Values_index (Header r) (Name hhe))
    /\ (ParseListSyntax hhe = false ->
        take (length (header_values hhe r)) after = header_values hhe r
        /\ (("" ∉ Values_index (Header r) (Name hhe)) ->
            after = Values_index (Header r) (Name hhe)))
    /\ (ParseListSyntax hhe = true ->
        Forall (fun v => Sample.contains "," v = false /\ strings_TrimSpace v = v /\ v <> "")
               (Values_index (Header r) (Name hhe)) ->
        after = Values_index (Header r) (Name hhe)).
Proof.
  unfold getLabelValues, header_values.
  destruct (header_slice_elems hhe r) as (Hvals & Hwf & Hcaller & Htake).
  set (t0 := header_slice hhe r) in *.
  set (vals := Values_index (Header r) (Name hhe)) in *.
  assert (length vals = len (cur t0)) as Hlen0
    by (rewrite <- Hvals; unfold elems; rewrite length_take; unfold cap in Hwf; lia).
  (* the slice before the empty values are removed *)
  assert (exists t2,
             (if ParseListSyntax hhe
              then split ← splitValues t0 ","; trimValues split
              else Some t0) = Some t2
             /\ elems (cur t2)
                = (if ParseListSyntax hhe
                   then map strings_TrimSpace (flat_map (split_byte ",") vals)
                   else vals)
             /\ len (cur t2) <= cap (cur t2)
             /\ length (caller_array t2) = length (caller_array t0)
             /\ (ParseListSyntax hhe = false -> t2 = t0)
             /\ (ParseListSyntax hhe = true ->
                 Forall (fun v => Sample.contains "," v = false
                                  /\ strings_TrimSpace v = v /\ v <> "") vals ->
                 t2 = t0))
    as (t2 & -> & Helems2 & Hwf2 & Hcaller2 & Hoff & Hon).
  { destruct (ParseListSyntax hhe).
    2:{ exists t0. repeat split; auto; discriminate. }
    destruct (splitValues_spec t0 "," Hwf) as (t1 & -> & Helems1 & Hwf1 & Hcaller1 & Hsame1).
    cbn [mbind option_bind]. rewrite (trimValues_spec t1 Hwf1).
    assert (length (elems (cur t1)) = len (cur t1)) as Hlen1
      by (unfold elems; rewrite length_take; unfold cap in Hwf1; lia).
    eexists. split; [reflexivity|]. unfold elems at 1, cap at 1, caller_array at 1.
    cbn [cur array len behind]. split; [|split; [|split; [|split]]].
    - rewrite take_app_exact by (now rewrite length_map).
      rewrite Helems1, Hvals. f_equal. apply flat_map_ext. intros x.
      apply strings_Split_byte.
    - rewrite length_app, length_map, length_drop, Hlen1. unfold cap in Hwf1. lia.
    - rewrite <- Hcaller1. unfold caller_array. destruct (behind t1); [reflexivity|].
      cbn [default from_option id].
      rewrite length_app, length_map, length_drop, Hlen1. unfold cap in Hwf1. lia.
    - discriminate.
    - intros _ Hall.
      assert (t1 = t0) as ->.
      { apply Hsame1. rewrite Hvals. eapply Forall_impl; [exact Hall|].
        intros v (Hv & _ & _). cbn beta. rewrite strings_Split_byte.
        now apply split_byte_absent. }
      assert (map strings_TrimSpace (elems (cur t0)) = elems (cur t0)) as ->.
      { rewrite Hvals. clear -Hall. induction Hall as [|v l (_ & Hv & _) _ IH]; [reflexivity|].
        cbn [map]. now rewrite Hv, IH. }
      unfold elems. rewrite take_drop. now destruct t0 as [[arr n] b]. }
  cbn [mbind option_bind].
  destruct (removeEmptyValues_spec t2 Hwf2) as (arr' & -> & Hkept & Hcap & Hsame).
  cbn [mbind option_bind]. rewrite Helems2 in *.
  set (kept := filter (fun x => x <> "")
                      (if ParseListSyntax hhe
                       then map strings_TrimSpace (flat_map (split_byte ",") vals)
                       else vals)) in *.
  cbn [cur len array]. unfold elems, caller_array. cbn [cur len array behind].
  rewrite Hkept.
  exists (take (len (cur t0)) (default arr' (behind t2))). split; [|split; [|split]].
  - destruct kept; reflexivity.
  - rewrite length_take.
    assert (length (default arr' (behind t2)) = length (caller_array t0)) as ->.
    { rewrite <- Hcaller2. unfold caller_array.
      destruct (behind t2); [reflexivity|]. exact Hcap. }
    rewrite Hcaller. unfold cap in Hwf. lia.
  - intros Hlist. rewrite (Hoff Hlist) in *. unfold t0 at 2 3. unfold header_slice at 1 2.
    cbn [behind default from_option id]. rewrite Hlist in *. split.
    + rewrite take_take. rewrite <- Hkept at 2. f_equal.
      assert (length kept <= length vals)
        by (unfold kept; rewrite Hlist; apply length_filter).
      lia.
    + intros Hno. rewrite (Hsame Hno). exact Htake.
  - intros Hlist Hall.
    assert ((if ParseListSyntax hhe
             then map strings_TrimSpace (flat_map (split_byte ",") vals)
             else vals) = vals) as Hid.
    { rewrite <- Helems2, (Hon Hlist Hall). exact Hvals. }
    rewrite Hid in Hsame. rewrite (Hon Hlist Hall) in Hsame |- *.
    replace (behind t0) with (@None (list string)) by reflexivity.
    cbn [default from_option id].
    rewrite Hsame; [exact Htake|].
    intros Hin. rewrite Forall_forall in Hall. destruct (Hall _ Hin) as (_ & _ & Hne).
    now apply Hne.
Qed.

End HeaderFacts.

(** X3.  [HTTPHeaderEnforcer.getLabelValues] always returns: the label values
    are the non-empty header values (with the list syntax, the non-empty
    trimmed pieces of the values split at commas); the result is the
    missing-header error exactly when none is left, and otherwise a
    non-empty list that holds no empty string. *)
Theorem getLabelValues_values `{External} `{Library}
    (hhe : HTTPHeaderEnforcer.HTTPHeaderEnforcer) (r : Request) :
  exists res after,
    HTTPHeaderEnforcer.getLabelValues hhe r = Some (res, after)
    /\ (forall err, res = Err err <->
          HTTPHeaderEnforcer.header_values hhe r = []
          /\ err = errors_New ("missing HTTP header "
                               +:+ strconv_Quote (HTTPHeaderEnforcer.Name hhe)))
    /\ (forall values, res = Ok values ->
          values = HTTPHeaderEnforcer.header_values hhe r /\ values <> [] /\ ("" ∉ values)).
Proof.
  destruct (getLabelValues_spec hhe r) as (after & Hrun & _).
  eexists _, after. split; [exact Hrun|].
  assert ("" ∉ HTTPHeaderEnforcer.header_values hhe r) as Hno
    by apply filter_nonempty_no_empty.
  destruct (HTTPHeaderEnforcer.header_values hhe r) as [|v vs] eqn:Hv.
  - split.
    + intros err. split; [intros [= <-]; auto | intros [_ ->]; reflexivity].
    + intros values [=].
  - split.
    + intros err. split; [intros [=] | intros [[=] _]].
    + intros values [= <-]. auto.
Qed.

(** X4.  With the list syntax on, a header sent once with its values joined
    by commas gives the same result as the header repeated once per value. *)
Theorem getLabelValues_joined `{External} `{Library}
    (hhe : HTTPHeaderEnforcer.HTTPHeaderEnforcer) (r1 r2 : Request)
    (values : list string) :
  HTTPHeaderEnforcer.ParseListSyntax hhe = true ->
  values <> [] ->
  Header r1 !! HTTPHeaderEnforcer.Name hhe = Some [strings.Join values ","] ->
  Header r2 !! HTTPHeaderEnforcer.Name hhe = Some values ->
  fst <$> HTTPHeaderEnforcer.getLabelValues hhe r1
  = fst <$> HTTPHeaderEnforcer.getLabelValues hhe r2.
Proof.
  intros Hlist Hne H1 H2.
  destruct (getLabelValues_spec hhe r1) as (after1 & -> & _).
  destruct (getLabelValues_spec hhe r2) as (after2 & -> & _).
  cbn [fmap option_fmap option_map fst]. do 2 f_equal.
  unfold HTTPHeaderEnforcer.header_values, Values_index. rewrite Hlist, H1, H2.
  unfold default. cbn [from_option id flat_map]. rewrite app_nil_r.
  now rewrite (split_byte_Join "," values Hne).
Qed.

(** The header [X-Tenant] holds [team-a, team-b] once, or [team-a] and
    [team-b] in two lines. *)
Lemma getLabelValues_joined_witness :
  let hhe := HTTPHeaderEnforcer.mk "X-Tenant" true in
  let joined := mkRequest "GET" "" {[ "X-Tenant" := ["team-a,team-b"] ]} None 0 ∅ None in
  let repeated := mkRequest "GET" "" {[ "X-Tenant" := ["team-a"; "team-b"] ]} None 0 ∅ None in
  fst <$> @HTTPHeaderEnforcer.getLabelValues Sample.external SampleText.library hhe joined
  = fst <$> @HTTPHeaderEnforcer.getLabelValues Sample.external SampleText.library hhe repeated.
Proof.
  intros hhe joined repeated.
  exact (@getLabelValues_joined Sample.external SampleText.library hhe joined repeated
           ["team-a"; "team-b"] eq_refl ltac:(discriminate) eq_refl eq_refl).
Defined.

(** X5.  [HTTPHeaderEnforcer.ExtractLabel] never panics by itself.  When no
    label value is left it answers 400 with the capitalized, punctuated
    missing-header message and does not call the next handler.  Otherwise it
    calls the next handler once, on the request with the label values stored
    in its context, where [MustLabelValues] returns them sorted instead of
    panicking; the header the values were read from has as many values as
    before, and the request goes on as it came when there was no value to
    remove and, with the list syntax, none to split or trim. *)
Theorem HTTPHeaderEnforcer_ExtractLabel_spec `{External} `{Library}
    (hhe : HTTPHeaderEnforcer.HTTPHeaderEnforcer) (next : Handler)
    (w : ResponseWriter) (r : Request) :
  let name := HTTPHeaderEnforcer.Name hhe in
  let values := HTTPHeaderEnforcer.header_values hhe r in
  (values = [] ->
   HTTPHeaderEnforcer.ExtractLabel hhe next w r
   = Some (prometheusAPIError w
             (strings_ToUpper "m" +:+ "issing HTTP header " +:+ strconv_Quote name +:+ ".")
             StatusBadRequest))
  /\ (values <> [] ->
      exists after r',
        r' = WithLabelValues (set_Header r (alter (fun _ => after) name (Header r))) values
        /\ HTTPHeaderEnforcer.ExtractLabel hhe next w r = next w r'
        /\ length after = length (Values_index (Header r) name)
        /\ MustLabelValues r' = Some (sort_Strings values)
        /\ ((if HTTPHeaderEnforcer.ParseListSyntax hhe
             then Forall (fun v => Sample.contains "," v = false
                                   /\ strings_TrimSpace v = v /\ v <> "")
                         (Values_index (Header r) name)
             else "" ∉ Values_index (Header r) name) ->
            r' = WithLabelValues r values)).
Proof.
  intros name values.
  destruct (getLabelValues_spec hhe r) as (after & Hrun & Hlen & Hoff & Hon).
  fold values in Hrun. fold name in Hlen, Hoff, Hon.
  unfold HTTPHeaderEnforcer.ExtractLabel. rewrite Hrun. cbn [mbind option_bind].
  split.
  - intros ->. unfold humanFriendlyErrorMessage, errors_New. cbn [Error].
    change ("missing HTTP header " +:+ ?x) with (String "m" ("issing HTTP header " +:+ x)).
    cbn [mbind option_bind]. now rewrite !append_assoc.
  - intros Hne. eexists after, _. split; [reflexivity|].
    split; [destruct values; [contradiction|reflexivity]|].
    split; [exact Hlen|]. split; [now apply MustLabelValues_Some|].
    intros Hclean.
    assert (after = Values_index (Header r) name) as ->.
    { destruct (HTTPHeaderEnforcer.ParseListSyntax hhe);
        [now apply Hon | now apply Hoff]. }
    f_equal. destruct r as [m q h b c p l]. unfold set_Header. cbn [Header]. f_equal.
    apply alter_id. intros vs Hvs. unfold Values_index. cbn [Header]. now rewrite Hvs.
Qed.

(** X6.  [getLabelValues] works on the header's own slice of values: the
    header keeps its number of values; without the list syntax it starts
    with the label values (the values after them are what the removal left
    in the array), and it is unchanged when it holds no empty value; with
    the list syntax it is unchanged when no value holds a comma, is empty or
    has space around it. *)
Theorem getLabelValues_header `{External} `{Library}
    (hhe : HTTPHeaderEnforcer.HTTPHeaderEnforcer) (r : Request) :
  let before := Values_index (Header r) (HTTPHeaderEnforcer.Name hhe) in
  let values := HTTPHeaderEnforcer.header_values hhe r in
  exists res after,
    HTTPHeaderEnforcer.getLabelValues hhe r = Some (res, after)
    /\ length after = length before
    /\ (HTTPHeaderEnforcer.ParseListSyntax hhe = false ->
        take (length values) after = values
        /\ (("" ∉ before) -> after = before))
    /\ (HTTPHeaderEnforcer.ParseListSyntax hhe = true ->
        Forall (fun v => Sample.contains "," v = false /\ strings_TrimSpace v = v /\ v <> "")
               before ->
        after = before).
Proof.
  intros before values.
  destruct (getLabelValues_spec hhe r) as (after & Hrun & Hrest).
  eexists _, after. split; [exact Hrun | exact Hrest].
Qed.

(** An empty value before a value: the label value is [team-a], and the
    header is left with [team-a] twice. *)
Lemma getLabelValues_header_rewritten :
  let hhe := HTTPHeaderEnforcer.mk "X-Tenant" false in
  let r := mkRequest "GET" "" {[ "X-Tenant" := [""; "team-a"] ]} None 0 ∅ None in
  @HTTPHeaderEnforcer.getLabelValues Sample.external SampleText.library hhe r
  = Some (Ok ["team-a"], ["team-a"; "team-a"]).
Proof. vm_compute. reflexivity. Qed.

(** ** The label values in the context *)

Lemma string_le_trans (a b c : string) : string_le a b -> string_le b c -> string_le a c.
Proof.
  unfold string_le, String.leb. revert b c.
  induction a as [|x a IH]; intros [|y b] [|z c]; simpl; try easy.
  unfold Ascii.compare.
  destruct (N.compare_spec (N_of_ascii x) (N_of_ascii y)) as [E1|L1|G1];
    destruct (N.compare_spec (N_of_ascii y) (N_of_ascii z)) as [E2|L2|G2];
    destruct (N.compare_spec (N_of_ascii x) (N_of_ascii z)) as [E3|L3|G3];
    try easy; try lia.
  apply IH.
Qed.

#[local] Instance string_le_transitive : Transitive string_le.
Proof. intros a b c. apply string_le_trans. Qed.

#[local] Instance string_le_total : Total string_le.
Proof. intros a b. apply String.leb_total. Qed.

(** X7.  On a context that holds a non-empty list of label values,
    [MustLabelValues] returns them all, sorted in increasing byte order, and
    [MustLabelValue] returns one of them that is below every other: the
    alphabetically first, as its comment says. *)
Theorem MustLabelValue_least (req : Request) (labels : list string) :
  labelValues req = Some labels -> labels <> [] ->
  exists v sorted,
    MustLabelValues req = Some sorted
    /\ sorted ≡ₚ labels
    /\ StronglySorted string_le sorted
    /\ MustLabelValue req = Some v
    /\ v ∈ labels
    /\ (forall x, x ∈ labels -> string_le v x).
Proof.
  intros Hreq Hne.
  pose proof (MustLabelValues_Some req labels Hreq Hne) as Hm.
  assert (sort_Strings labels ≡ₚ labels) as Hperm
    by (unfold sort_Strings; apply merge_sort_Permutation).
  assert (StronglySorted string_le (sort_Strings labels)) as Hsorted
    by (unfold sort_Strings; apply StronglySorted_merge_sort; apply _).
  destruct (sort_Strings labels) as [|v rest] eqn:Hs.
  - apply Permutation_nil_l in Hperm. congruence.
  - exists v, (v :: rest). unfold MustLabelValue. rewrite Hm.
    repeat split; auto.
    + rewrite <- Hperm. apply list_elem_of_here.
    + intros x Hx. rewrite <- Hperm in Hx.
      apply StronglySorted_inv in Hsorted as [_ Hall].
      apply elem_of_cons in Hx as [->|Hx].
      * destruct (String.leb_total v v); assumption.
      * rewrite Forall_forall in Hall. now apply Hall.
Qed.

(** Stored in the order [team-b], [Team], [team-a], the first value is
    [Team]: upper case sorts before lower case. *)
Lemma MustLabelValue_least_witness :
  MustLabelValue (Sample.GET "" ["team-b"; "Team"; "team-a"]) = Some "Team".
Proof.
  destruct (MustLabelValue_least (Sample.GET "" ["team-b"; "Team"; "team-a"])
              ["team-b"; "Team"; "team-a"] eq_refl ltac:(discriminate))
    as (v & sorted & _ & _ & _ & Hv & _ & _).
  vm_compute in Hv. vm_compute. exact eq_refl.
Defined.

Section PanicFacts.

Context `{External}.





End PanicFacts.


(** ** The alternation of label values *)

Lemma special_backslash_bar (b : ascii) :
  special b = false -> Ascii.eqb b "\" = false /\ Ascii.eqb b "|" = false.
Proof.
  intros Hb. split.
  - destruct (Ascii.eqb_spec b "\") as [->|_]; [discriminate|reflexivity].
  - destruct (Ascii.eqb_spec b "|") as [->|_]; [discriminate|reflexivity].
Qed.

Lemma alternatives_nonempty (s : string) : alternatives s <> [].
Proof.
  assert (forall c l, prepend c l <> []) as Hp by (intros c [|? ?]; discriminate).
  destruct s as [|c s]; cbn [alternatives]; [discriminate|].
  destruct (Ascii.eqb c "\"); [destruct s; [discriminate | apply Hp]|].
  destruct (Ascii.eqb c "|"); [discriminate | apply Hp].
Qed.

(** A quoted value followed by an unescaped bar is read back as the value,
    then the rest. *)
Lemma alternatives_QuoteMeta_bar (v rest : string) :
  alternatives (regexp_QuoteMeta v +:+ String "|" rest) = v :: alternatives rest.
Proof.
  induction v as [|b v IH]; [reflexivity|].
  cbn [regexp_QuoteMeta]. destruct (special b) eqn:Hb.
  - rewrite !append_String. cbn [alternatives]. rewrite Ascii.eqb_refl.
    now rewrite IH.
  - rewrite append_String. cbn [alternatives].
    destruct (special_backslash_bar b Hb) as [-> ->]. now rewrite IH.
Qed.

Lemma alternatives_QuoteMeta (v : string) : alternatives (regexp_QuoteMeta v) = [v].
Proof.
  induction v as [|b v IH]; [reflexivity|].
  cbn [regexp_QuoteMeta]. destruct (special b) eqn:Hb.
  - cbn [alternatives]. rewrite Ascii.eqb_refl. now rewrite IH.
  - cbn [alternatives]. destruct (special_backslash_bar b Hb) as [-> ->]. now rewrite IH.
Qed.

Lemma alternatives_labelValuesToRegexpString (values : list string) :
  values <> [] -> alternatives (labelValuesToRegexpString values) = values.
Proof.
  unfold labelValuesToRegexpString.
  induction values as [|v rest IH]; [congruence|]. intros _.
  destruct rest as [|v' rest].
  - cbn [map strings.Join]. apply alternatives_QuoteMeta.
  - change (strings.Join (map regexp_QuoteMeta (v :: v' :: rest)) "|")
      with (regexp_QuoteMeta v +:+ String "|"
              (strings.Join (map regexp_QuoteMeta (v' :: rest)) "|")).
    rewrite alternatives_QuoteMeta_bar. f_equal. now apply IH.
Qed.

(** X9.  The pattern [labelValuesToRegexpString] writes for a non-empty list
    of label values can be read back: cutting it at the bars that no
    backslash escapes and dropping the escaping backslashes returns the
    values, so a value that holds [|] or another metacharacter stays one
    alternative, and two different lists never give the same pattern. *)
Theorem labelValuesToRegexpString_injective (values values' : list string) :
  values <> [] ->
  alternatives (labelValuesToRegexpString values) = values
  /\ (values' <> [] ->
      labelValuesToRegexpString values = labelValuesToRegexpString values' ->
      values = values').
Proof.
  intros Hne. split; [now apply alternatives_labelValuesToRegexpString|].
  intros Hne' Heq.
  rewrite <- (alternatives_labelValuesToRegexpString values Hne).
  rewrite <- (alternatives_labelValuesToRegexpString values' Hne').
  now rewrite Heq.
Qed.

(** The value [a|b] beside [c.d] is written with its bar escaped and read
    back as one value. *)
Lemma labelValuesToRegexpString_injective_witness :
  labelValuesToRegexpString ["a|b"; "c.d"] = "a\|b|c\.d"
  /\ alternatives "a\|b|c\.d" = ["a|b"; "c.d"].
Proof.
  split; [reflexivity|].
  exact (proj1 (labelValuesToRegexpString_injective ["a|b"; "c.d"] []
                  ltac:(discriminate))).
Defined.

(** ** What the handlers hand to the upstream *)

Lemma status_app_Some (w w' : ResponseWriter) (code : nat) :
  status w = Some code -> status (w ++ w') = Some code.
Proof.
  induction w as [|[c|body|req] w IH]; simpl; intros Hw;
    [discriminate | exact Hw | exact Hw | now apply IH].
Qed.

Lemma upstream_elem_of_app (w l : ResponseWriter) (req : Request) :
  ServeUpstream req ∈ w ++ l -> ServeUpstream req ∉ w -> ServeUpstream req ∈ l.
Proof. intros Hin Hnot. apply elem_of_app in Hin as [|]; [contradiction|assumption]. Qed.

Lemma upstream_not_in_error (msg : string) (code : nat) (req : Request) :
  ServeUpstream req ∉ [WriteHeader code; Write msg].
Proof.
  intros Hin. apply elem_of_cons in Hin as [|Hin]; [discriminate|].
  apply list_elem_of_singleton in Hin. discriminate.
Qed.

Section ForwardFacts.

Context `{External}.

Lemma injectMatcher_enforced (q q' : Values) (m : Matcher) :
  injectMatcher q m = (q', None) ->
  tenant_enforced m q' /\ (forall k, k <> matchersParam -> q' !! k = q !! k).
Proof.
  unfold injectMatcher, tenant_enforced.
  destruct (Values_index q matchersParam) as [|s0 rest] eqn:Hq; cbn [length Nat.eqb].
  - intros [= <-]. unfold Values_Set, Values_index. rewrite lookup_insert_eq.
    cbn [default from_option id]. split; [split; [discriminate|]|].
    + constructor; [|constructor]. now exists [].
    + intros k Hk. now rewrite lookup_insert_ne.
  - destruct (injectEach (s0 :: rest) m) as [out e] eqn:Hout.
    intros [= <- ->]. apply injectEach_Ok in Hout.
    unfold Values_index. rewrite lookup_insert_eq. cbn [default from_option id].
    split; [split|].
    + intros ->. apply Forall2_length in Hout. discriminate.
    + clear Hq. induction Hout as [|s s' ms out' (sel & _ & ->) _ IH]; constructor; eauto.
    + intros k Hk. now rewrite lookup_insert_ne.
Qed.

Lemma enforceFailed_cases (w : ResponseWriter) (err : error) :
  enforceFailed w err = w
  \/ exists code, enforceFailed w err = prometheusAPIError w (Error err) code.
Proof.
  unfold enforceFailed.
  destruct (errors_Is err ErrIllegalLabelMatcher); [right; eauto|].
  destruct (errors_Is err ErrQueryParse); [right; eauto|].
  destruct (errors_Is err ErrEnforceLabel); [right; eauto | now left].
Qed.

Lemma enforceFailed_no_upstream (w : ResponseWriter) (err : error) (req : Request) :
  ServeUpstream req ∈ enforceFailed w err -> ServeUpstream req ∈ w.
Proof.
  destruct (enforceFailed_cases w err) as [->|[code ->]]; [auto|].
  unfold prometheusAPIError. intros Hin.
  apply elem_of_app in Hin as [|Hin]; [assumption|].
  now apply upstream_not_in_error in Hin.
Qed.

Lemma enforceQueryValues_Ok (e : string -> result string) (v v' : Values)
    (q : string) (found : bool) :
  enforceQueryValues e v = (v', q, found, None) ->
  enforced_in e v v' /\ q = url_Encode v' /\ found = has_query v.
Proof.
  destruct (has_query v) eqn:Hq.
  - rewrite enforceQueryValues_present by exact Hq.
    destruct (e (Values_Get v queryParam)) as [q'|err] eqn:He; [|discriminate].
    intros [= <- <- <-]. split; [right; eauto|]. auto.
  - rewrite enforceQueryValues_absent by exact Hq.
    intros [= <- <- <-]. split; [left; auto|]. auto.
Qed.

End ForwardFacts.

(** X10.  Every request the selector-list handler hands to the upstream
    carries the tenant matcher in every selector: its URL query is the
    encoding of the incoming values with each occurrence of the matcher
    parameter rewritten to end with the tenant matcher (one occurrence with
    only that matcher when there was none) and every other parameter kept;
    a request that is not a POST keeps its body and content length, and for
    a POST the same rewriting holds for the form as it was parsed (every
    other parameter kept), the body is its encoding and the content length
    is the length of that body. *)
Theorem matcher_forwarded_request `{External} (r : routes) (w w' : ResponseWriter)
    (req req' : Request) :
  ParseForm_frame ->
  matcher r w req = Some w' ->
  ServeUpstream req' ∈ w' -> ServeUpstream req' ∉ w ->
  exists vals m q,
    MustLabelValues req = Some vals
    /\ newLabelMatcher r vals = Ok m
    /\ RawQuery req' = url_Encode q
    /\ tenant_enforced m q
    /\ (forall k, k <> matchersParam -> q !! k = URL_Query req !! k)
    /\ (Method req <> MethodPost ->
        Body req' = Body req /\ ContentLength req' = ContentLength req)
    /\ (Method req = MethodPost ->
        tenant_enforced m (PostForm req')
        /\ Body req' = Some (strings_NewReader (url_Encode (PostForm req')))
        /\ ContentLength req' = Z.of_nat (String.length (url_Encode (PostForm req')))
        /\ (forall k, k <> matchersParam ->
              PostForm req' !! k
              = PostForm (fst (http_ParseForm (set_RawQuery req (url_Encode q)))) !! k)).
Proof.
  unfold matcher. intros Hframe Hm Hin Hnot.
  destruct (MustLabelValues req) as [vals|] eqn:Hv; [|discriminate].
  cbn [mbind option_bind] in Hm.
  destruct (newLabelMatcher r vals) as [m|err] eqn:Hnew.
  2:{ injection Hm as <-. unfold prometheusAPIError in Hin.
      apply upstream_elem_of_app in Hin; [|exact Hnot].
      now apply upstream_not_in_error in Hin. }
  destruct (injectMatcher (URL_Query req) m) as [q [err|]] eqn:Hurl.
  { injection Hm as <-. unfold prometheusAPIError in Hin.
    apply upstream_elem_of_app in Hin; [|exact Hnot].
    now apply upstream_not_in_error in Hin. }
  apply injectMatcher_enforced in Hurl as [Henf Hkeep].
  cbn [Method set_RawQuery] in Hm.
  exists vals, m, q.
  destruct (String.eqb_spec (Method req) MethodPost) as [Hpost|Hpost].
  - change (mkRequest (Method req) (url_Encode q) (Header req) (Body req)
                      (ContentLength req) (PostForm req) (labelValues req))
      with (set_RawQuery req (url_Encode q)) in Hm.
    destruct (http_ParseForm (set_RawQuery req (url_Encode q))) as [req2 [perr|]] eqn:Hform.
    { injection Hm as <-. contradiction. }
    destruct (injectMatcher (PostForm req2) m) as [q2 [err|]] eqn:Hbody.
    { injection Hm as <-. contradiction. }
    apply injectMatcher_enforced in Hbody as [Henf2 Hkeep2].
    unfold upstream_ServeHTTP in Hm. injection Hm as <-.
    apply upstream_elem_of_app in Hin; [|exact Hnot].
    apply list_elem_of_singleton in Hin. injection Hin as ->.
    destruct (Hframe _ _ _ Hform) as (_ & Hraw & _ & _).
    cbn [RawQuery PostForm Body ContentLength set_ContentLength set_Body set_PostForm fst].
    cbn [fst].
    split; [reflexivity|]. split; [exact Hnew|]. split; [exact Hraw|].
    split; [exact Henf|]. split; [exact Hkeep|]. split; [congruence|]. intros _.
    split; [exact Henf2|]. split; [reflexivity|]. split; [reflexivity|exact Hkeep2].
  - unfold upstream_ServeHTTP in Hm. injection Hm as <-.
    apply upstream_elem_of_app in Hin; [|exact Hnot].
    apply list_elem_of_singleton in Hin. injection Hin as ->.
    repeat split; auto; try congruence; first [apply Henf | apply Henf2].
Qed.

(** The stand-in [ParseForm] reads the body and fills the form only. *)
Lemma Sample_ParseForm_frame : @ParseForm_frame Sample.external.
Proof.
  intros r0 r1 err. cbn [http_ParseForm Sample.external]. unfold Sample.ParseForm.
  destruct (existsb _ _); [|intros [= <- <-]; auto].
  destruct (Body r0) as [body|]; [|intros [= <- <-]; auto].
  destruct (String.eqb _ _); [|intros [= <- <-]; auto].
  destruct (io_ReadAll body) as [[b rerr] drained].
  destruct rerr; [intros [= <- <-]; auto|].
  destruct (Sample.ParseQuery b). intros [= <- <-]. auto.
Qed.

(** A POST to a selector-list endpoint with the selector [up] in its form
    and a parameter [start] in its URL. *)
Lemma matcher_forwarded_request_witness :
  let r := mkRoutes "tenant" false false false [] in
  let m := mkMatcher "tenant" MatchEqual "team-a" in
  exists req',
    @matcher Sample.external r [] (Sample.POST "start=0" "match[]=up" ["team-a"])
    = Some [ServeUpstream req']
    /\ @tenant_enforced Sample.external m (PostForm req')
    /\ Body req' = Some (strings_NewReader (Sample.Encode (PostForm req')))
    /\ ContentLength req' = Z.of_nat (String.length (Sample.Encode (PostForm req'))).
Proof.
  intros r m.
  set (req := Sample.POST "start=0" "match[]=up" ["team-a"]).
  destruct (@matcher Sample.external r [] req) as [w'|] eqn:Hm;
    [|vm_compute in Hm; discriminate].
  assert (exists req', w' = [ServeUpstream req']) as [req' ->].
  { vm_compute in Hm. injection Hm as <-. eexists. reflexivity. }
  exists req'. split; [reflexivity|].
  destruct (@matcher_forwarded_request Sample.external r [] _ req req'
              Sample_ParseForm_frame Hm (list_elem_of_here _ _)
              ltac:(apply not_elem_of_nil))
    as (vals & m' & q & Hvals & Hnew & _ & _ & _ & _ & Hpost).
  assert (m' = m) as ->.
  { vm_compute in Hvals. injection Hvals as <-. vm_compute in Hnew.
    injection Hnew as <-. reflexivity. }
  destruct (Hpost eq_refl) as (Hform & Hbody & Hlen & _).
  split; [exact Hform|]. split; [exact Hbody|exact Hlen].
Defined.

(** X11.  Every request the query handler hands to the upstream was
    enforced: the matcher was built, the URL query is the encoding of the
    incoming values with the query parameter replaced by the one enforced
    query (further values of the parameter are dropped, other parameters
    kept) or, without a query, of the values as they were; a request that is
    not a POST is forwarded only with a query in its URL and keeps its body
    and content length, and for a POST the same holds for the form, one of
    the two locations holds a query, the body is the encoding of the form
    and the content length is its length. *)
Theorem query_forwarded_request `{External} (r : routes) (w w' : ResponseWriter)
    (req req' : Request) :
  ParseForm_frame ->
  query r w req = Some w' ->
  ServeUpstream req' ∈ w' -> ServeUpstream req' ∉ w ->
  exists m v1,
    queryMatcher r req = Some (Inject m)
    /\ enforced_in (Enforce (errorOnReplace r) m) (URL_Query req) v1
    /\ RawQuery req' = url_Encode v1
    /\ (Method req <> MethodPost ->
        has_query (URL_Query req) = true
        /\ Body req' = Body req /\ ContentLength req' = ContentLength req)
    /\ (Method req = MethodPost ->
        let form := PostForm (fst (http_ParseForm (set_RawQuery req (url_Encode v1)))) in
        enforced_in (Enforce (errorOnReplace r) m) form (PostForm req')
        /\ (has_query (URL_Query req) = true \/ has_query form = true)
        /\ Body req' = Some (strings_NewReader (url_Encode (PostForm req')))
        /\ ContentLength req' = Z.of_nat (String.length (url_Encode (PostForm req')))).
Proof.
  unfold query. intros Hframe Hq Hin Hnot.
  destruct (queryMatcher r req) as [[msg code|m]|] eqn:Hm; [| |discriminate];
    cbn [mbind option_bind] in Hq.
  { injection Hq as <-. unfold prometheusAPIError in Hin.
    apply upstream_elem_of_app in Hin; [|exact Hnot].
    now apply upstream_not_in_error in Hin. }
  unfold queryEnforce in Hq.
  destruct (enforceQueryValues _ (URL_Query req)) as [[[v1 q1] found1] [err|]] eqn:Hurl.
  { injection Hq as <-. apply enforceFailed_no_upstream in Hin. contradiction. }
  apply enforceQueryValues_Ok in Hurl as (Henf1 & -> & ->).
  cbn [Method set_RawQuery] in Hq.
  exists m, v1. split; [reflexivity|]. split; [exact Henf1|].
  destruct (String.eqb_spec (Method req) MethodPost) as [Hpost|Hpost].
  - change (mkRequest (Method req) (url_Encode v1) (Header req) (Body req)
                      (ContentLength req) (PostForm req) (labelValues req))
      with (set_RawQuery req (url_Encode v1)) in Hq.
    destruct (http_ParseForm (set_RawQuery req (url_Encode v1))) as [req2 perr] eqn:Hform.
    destruct (Hframe _ _ _ Hform) as (_ & Hraw & _ & _).
    set (w0 := match perr with
               | Some err => prometheusAPIError w (Error err) StatusBadRequest
               | None => w
               end) in Hq.
    assert (ServeUpstream req' ∉ w0) as Hnot0.
    { unfold w0. destruct perr; [|exact Hnot]. unfold prometheusAPIError.
      intros Hin0. apply upstream_elem_of_app in Hin0; [|exact Hnot].
      now apply upstream_not_in_error in Hin0. }
    destruct (enforceQueryValues _ (PostForm req2)) as [[[v2 q2] found2] [err|]] eqn:Hbody.
    { injection Hq as <-. apply enforceFailed_no_upstream in Hin. contradiction. }
    apply enforceQueryValues_Ok in Hbody as (Henf2 & -> & ->).
    destruct (negb (has_query (URL_Query req)) && negb (has_query (PostForm req2)))
      eqn:Hfound.
    { injection Hq as <-. contradiction. }
    unfold upstream_ServeHTTP in Hq. injection Hq as <-.
    apply upstream_elem_of_app in Hin; [|exact Hnot0].
    apply list_elem_of_singleton in Hin. injection Hin as ->.
    cbn [RawQuery PostForm Body ContentLength set_ContentLength set_Body set_PostForm fst].
    split; [exact Hraw|]. split; [congruence|]. intros _.
    split; [exact Henf2|]. split; [|split; reflexivity].
    destruct (has_query (URL_Query req)); [now left|].
    destruct (has_query (PostForm req2)); [now right|discriminate].
  - destruct (negb (has_query (URL_Query req)) && negb false) eqn:Hfound.
    { injection Hq as <-. contradiction. }
    unfold upstream_ServeHTTP in Hq. injection Hq as <-.
    apply upstream_elem_of_app in Hin; [|exact Hnot].
    apply list_elem_of_singleton in Hin. injection Hin as ->.
    split; [reflexivity|]. split; [|congruence]. intros _.
    split; [|split; reflexivity].
    destruct (has_query (URL_Query req)); [reflexivity|discriminate].
Qed.

(** A GET with two values for the query parameter: only the first is
    enforced and forwarded, the parameter [time] is kept. *)
Lemma query_forwarded_request_witness :
  let r := mkRoutes "tenant" false false false [] in
  exists req',
    @query Sample.external r [] (Sample.GET "query=up&query=down&time=1" ["team-a"])
    = Some [ServeUpstream req']
    /\ RawQuery req' = "query=up%7Btenant%3D%22team-a%22%7D&time=1".
Proof.
  intros r. set (req := Sample.GET "query=up&query=down&time=1" ["team-a"]).
  destruct (@query Sample.external r [] req) as [w'|] eqn:Hq;
    [|vm_compute in Hq; discriminate].
  assert (exists req', w' = [ServeUpstream req']) as [req' ->].
  { vm_compute in Hq. injection Hq as <-. eexists. reflexivity. }
  exists req'. split; [reflexivity|].
  destruct (@query_forwarded_request Sample.external r [] _ req req'
              Sample_ParseForm_frame Hq (list_elem_of_here _ _)
              ltac:(apply not_elem_of_nil))
    as (m & v1 & Hm & Henf & -> & _).
  vm_compute in Hm. injection Hm as <-.
  destruct Henf as [[Hf _]|(_ & q & He & ->)]; [vm_compute in Hf; discriminate|].
  vm_compute in He. injection He as <-. vm_compute. reflexivity.
Defined.

(** ** How the handlers answer errors *)

Section ErrorFacts.

Context `{External}.

Lemma enforced_in_enforceQueryValues (e : string -> result string) (v v' : Values) :
  enforced_in e v v' ->
  enforceQueryValues e v = (v', url_Encode v', has_query v, None).
Proof.
  intros [[Hq ->]|(Hq & q & He & ->)].
  - rewrite enforceQueryValues_absent by exact Hq. now rewrite Hq.
  - rewrite enforceQueryValues_present by exact Hq. now rewrite He, Hq.
Qed.

Lemma enforceFailed_forwarded (w : ResponseWriter) (err : error) :
  forwarded (enforceFailed w err) = forwarded w.
Proof.
  destruct (enforceFailed_cases w err) as [->|[code ->]]; [reflexivity|].
  apply forwarded_prometheusAPIError.
Qed.

Lemma enforceFailed_status (w : ResponseWriter) (err : error) :
  status w = None ->
  status (enforceFailed w err)
  = if errors_Is err ErrIllegalLabelMatcher || errors_Is err ErrQueryParse
    then Some StatusBadRequest
    else if errors_Is err ErrEnforceLabel then Some StatusInternalServerError
         else None.
Proof.
  intros Hw. unfold enforceFailed.
  destruct (errors_Is err ErrIllegalLabelMatcher); cbn [orb];
    [now apply status_prometheusAPIError|].
  destruct (errors_Is err ErrQueryParse); [now apply status_prometheusAPIError|].
  destruct (errors_Is err ErrEnforceLabel); [now apply status_prometheusAPIError|].
  exact Hw.
Qed.

Lemma enforceFailed_unmatched (w : ResponseWriter) (err : error) :
  errors_Is err ErrIllegalLabelMatcher = false ->
  errors_Is err ErrQueryParse = false ->
  errors_Is err ErrEnforceLabel = false ->
  enforceFailed w err = w.
Proof. unfold enforceFailed. now intros -> -> ->. Qed.

Lemma status_upstream (w : ResponseWriter) (req : Request) :
  status (w ++ [ServeUpstream req]) = status w.
Proof.
  induction w as [|[code|body|req0] w IH]; simpl; auto.
Qed.

(** The first occurrence that does not parse stops [injectEach], with the
    parser's error. *)
Lemma injectEach_error_iff (matchers : list string) (m : Matcher) (err : error) :
  snd (injectEach matchers m) = Some err <->
  exists before s after,
    matchers = before ++ s :: after
    /\ Forall (fun t => exists sel, parser_ParseMetricSelector t = Ok sel) before
    /\ parser_ParseMetricSelector s = Err err.
Proof.
  induction matchers as [|s rest IH]; cbn [injectEach].
  - split; [discriminate|]. intros (before & s & after & Heq & _).
    destruct before; discriminate.
  - destruct (parser_ParseMetricSelector s) as [sel|e] eqn:Hs.
    + destruct (injectEach rest m) as [rest' e'] eqn:Hrest. cbn [snd] in *.
      rewrite IH. split.
      * intros (before & s0 & after & -> & Hall & Hs0).
        exists (s :: before), s0, after. split; [reflexivity|]. split; [|exact Hs0].
        constructor; eauto.
      * intros (before & s0 & after & Heq & Hall & Hs0).
        destruct before as [|b before]; cbn [app] in Heq; injection Heq as <- ->.
        -- congruence.
        -- exists before, s0, after. split; [reflexivity|]. split; [|exact Hs0].
           now inversion Hall.
    + cbn [snd]. split.
      * intros [= <-]. exists [], s, rest. split; [reflexivity|]. split; [constructor|exact Hs].
      * intros (before & s0 & after & Heq & Hall & Hs0).
        destruct before as [|b before]; cbn [app] in Heq; injection Heq as <- ->.
        -- congruence.
        -- inversion Hall as [|? ? [sel Hsel] _]; subst. congruence.
Qed.

End ErrorFacts.

(** X12.  When enforcing the tenant matcher in a query fails, in the URL
    query or, for a POST whose form parsed, in the form, the query handler
    forwards nothing and answers by the error's kind: 400 for an illegal
    label matcher or a query that does not parse, 500 for a failed
    enforcement; an error of no known kind falls through the switch, and the
    handler returns without having written anything. *)
Theorem query_enforce_error `{External} (r : routes) (m : Matcher) (w : ResponseWriter)
    (req : Request) (err : error) :
  queryMatcher r req = Some (Inject m) ->
  (has_query (URL_Query req) = true
   /\ Enforce (errorOnReplace r) m (Values_Get (URL_Query req) queryParam) = Err err)
  \/ (exists v1 req2,
        Method req = MethodPost
        /\ enforced_in (Enforce (errorOnReplace r) m) (URL_Query req) v1
        /\ http_ParseForm (set_RawQuery req (url_Encode v1)) = (req2, None)
        /\ has_query (PostForm req2) = true
        /\ Enforce (errorOnReplace r) m (Values_Get (PostForm req2) queryParam) = Err err) ->
  exists w',
    query r w req = Some w'
    /\ forwarded w' = forwarded w
    /\ (status w = None ->
        status w' = if errors_Is err ErrIllegalLabelMatcher || errors_Is err ErrQueryParse
                    then Some StatusBadRequest
                    else if errors_Is err ErrEnforceLabel
                         then Some StatusInternalServerError
                         else None)
    /\ (errors_Is err ErrIllegalLabelMatcher = false ->
        errors_Is err ErrQueryParse = false ->
        errors_Is err ErrEnforceLabel = false -> w' = w).
Proof.
  intros Hm Hfail. exists (enforceFailed w err).
  split; [|split; [apply enforceFailed_forwarded|split;
                   [apply enforceFailed_status|apply enforceFailed_unmatched]]].
  unfold query. rewrite Hm. cbn [mbind option_bind]. unfold queryEnforce.
  destruct Hfail as [[Hq He]|(v1 & req2 & Hpost & Henf & Hform & Hq & He)].
  - rewrite enforceQueryValues_present by exact Hq. now rewrite He.
  - rewrite (enforced_in_enforceQueryValues _ _ _ Henf).
    cbn [Method set_RawQuery]. rewrite Hpost, String.eqb_refl.
    rewrite Hform.
    rewrite enforceQueryValues_present by exact Hq. now rewrite He.
Qed.

(** With error-on-replace, a query that already constrains the tenant label
    to another value is refused with a 400. *)
Lemma query_enforce_error_witness :
  let r := mkRoutes "tenant" true false false [] in
  exists w',
    @query Sample.external r []
           (Sample.GET "query=up%7Btenant%3D%22team-b%22%7D" ["team-a"]) = Some w'
    /\ forwarded w' = []
    /\ status w' = Some 400.
Proof.
  intros r.
  set (req := Sample.GET "query=up%7Btenant%3D%22team-b%22%7D" ["team-a"]).
  destruct (@query_enforce_error Sample.external r
              (mkMatcher "tenant" MatchEqual "team-a") [] req
              (mkError "label matcher value conflicts with injected value"
                       [ErrIllegalLabelMatcher]))
    as (w' & Hq & Hfw & Hst & _).
  - vm_compute. reflexivity.
  - left. split; vm_compute; reflexivity.
  - exists w'. split; [exact Hq|]. split; [exact Hfw|]. exact (Hst eq_refl).
Defined.

(** X13.  The query handler does not stop at a POST form that fails to
    parse: it writes the 400 and goes on, so that a request with a query in
    its URL is answered 400 and still forwarded to the upstream, with the
    body replaced by the encoding of what was parsed of the form. *)
Theorem query_ParseForm_error_forwards `{External} (r : routes) (m : Matcher)
    (w : ResponseWriter) (req req2 : Request) (v1 : Values) (perr : error) :
  queryMatcher r req = Some (Inject m) ->
  Method req = MethodPost ->
  has_query (URL_Query req) = true ->
  enforced_in (Enforce (errorOnReplace r) m) (URL_Query req) v1 ->
  http_ParseForm (set_RawQuery req (url_Encode v1)) = (req2, Some perr) ->
  has_query (PostForm req2) = false ->
  status w = None ->
  exists w' req',
    query r w req = Some w'
    /\ status w' = Some StatusBadRequest
    /\ forwarded w' = forwarded w ++ [req']
    /\ Body req' = Some (strings_NewReader (url_Encode (PostForm req2))).
Proof.
  intros Hm Hpost Hq1 Henf Hform Hq2 Hw.
  unfold query. rewrite Hm. cbn [mbind option_bind]. unfold queryEnforce.
  rewrite (enforced_in_enforceQueryValues _ _ _ Henf).
  cbn [Method set_RawQuery]. rewrite Hpost, String.eqb_refl.
  rewrite Hform.
  rewrite enforceQueryValues_absent by exact Hq2.
  rewrite Hq1. cbn [negb andb]. unfold upstream_ServeHTTP.
  eexists _, _. split; [reflexivity|]. split; [|split].
  - rewrite status_upstream. now apply status_prometheusAPIError.
  - rewrite forwarded_app, forwarded_prometheusAPIError. reflexivity.
  - reflexivity.
Qed.

(** A POST with a query in its URL and a form with a broken escape. *)
Lemma query_ParseForm_error_forwards_witness :
  let r := mkRoutes "tenant" false false false [] in
  exists w' req',
    @query Sample.external r [] (Sample.POST "query=up" "a=%zz" ["team-a"]) = Some w'
    /\ status w' = Some 400
    /\ forwarded w' = [req'].
Proof.
  intros r. set (req := Sample.POST "query=up" "a=%zz" ["team-a"]).
  edestruct (@query_ParseForm_error_forwards Sample.external r
               (mkMatcher "tenant" MatchEqual "team-a") [] req)
    as (w' & req' & Hq & Hst & Hfw & _);
    [ vm_compute; reflexivity
    | reflexivity
    | vm_compute; reflexivity
    | right; split; [vm_compute; reflexivity
                    | eexists; split; [vm_compute; reflexivity | reflexivity]]
    | lazy; reflexivity
    | lazy; reflexivity
    | reflexivity
    | ].
  exists w', req'. split; [exact Hq|]. split; [exact Hst|exact Hfw].
Defined.

(** X14.  [injectMatcher] fails exactly when some occurrence of the matcher
    parameter does not parse as a selector, and the error it returns is the
    parser's error for the first such occurrence; an absent parameter never
    fails. *)
Theorem injectMatcher_error_iff `{External} (q : Values) (m : Matcher) (err : error) :
  snd (injectMatcher q m) = Some err <->
  exists before s after,
    Values_index q matchersParam = before ++ s :: after
    /\ Forall (fun t => exists sel, parser_ParseMetricSelector t = Ok sel) before
    /\ parser_ParseMetricSelector s = Err err.
Proof.
  unfold injectMatcher.
  destruct (Values_index q matchersParam) as [|s0 rest] eqn:Hq; cbn [length Nat.eqb snd].
  - split; [discriminate|]. intros (before & s & after & Heq & _).
    destruct before; discriminate.
  - rewrite <- (injectEach_error_iff (s0 :: rest) m err).
    now destruct (injectEach (s0 :: rest) m).
Qed.

(** X15.  The two enforcing handlers only add to the response, and the only
    status codes they write themselves are 400 and, for the query handler,
    500: on a response with no status yet, the query handler leaves the
    status unset, 400 or 500, and the selector-list handler leaves it unset
    or 400. *)
Theorem handlers_status_codes `{External} (r : routes) (w w' : ResponseWriter)
    (req : Request) :
  status w = None ->
  (query r w req = Some w' ->
   (exists added, w' = w ++ added)
   /\ (status w' = None \/ status w' = Some StatusBadRequest
       \/ status w' = Some StatusInternalServerError))
  /\ (matcher r w req = Some w' ->
      (exists added, w' = w ++ added)
      /\ (status w' = None \/ status w' = Some StatusBadRequest)).
Proof.
  intros Hw.
  assert (forall msg, status (prometheusAPIError w msg StatusBadRequest)
                      = Some StatusBadRequest) as H400
    by (intros msg; now apply status_prometheusAPIError).
  assert (forall err,
             (exists added, enforceFailed w err = w ++ added)
             /\ (status (enforceFailed w err) = None
                 \/ status (enforceFailed w err) = Some StatusBadRequest
                 \/ status (enforceFailed w err) = Some StatusInternalServerError)) as Hfail.
  { intros err. split.
    - destruct (enforceFailed_cases w err) as [->|[code ->]];
        [exists []; now rewrite app_nil_r | eexists; reflexivity].
    - rewrite enforceFailed_status by exact Hw.
      destruct (_ || _); [auto|]. destruct (errors_Is _ _); auto. }
  split.
  - unfold query.
    destruct (queryMatcher r req) as [[msg code|m]|] eqn:Hm; [| |discriminate];
      cbn [mbind option_bind].
    + intros [= <-]. split; [eexists; reflexivity|].
      assert (code = StatusBadRequest) as ->.
      { unfold queryMatcher in Hm.
        destruct (MustLabelValues req) as [vs|]; [|discriminate].
        cbn [mbind option_bind] in Hm.
        destruct (1 <? length vs)%nat.
        - destruct (regexMatch r); [congruence|discriminate].
        - destruct (MustLabelValue req); [|discriminate]. cbn [mbind option_bind] in Hm.
          destruct (regexMatch r); [|discriminate].
          destruct (regexp_Compile _); [|congruence].
          destruct (regexp_MatchString _ _); [congruence|discriminate]. }
      right. left. apply H400.
    + unfold queryEnforce.
      destruct (enforceQueryValues _ (URL_Query req)) as [[[v1 q1] found1] [err|]].
      { intros [= <-]. apply Hfail. }
      cbn [Method set_RawQuery].
      destruct (String.eqb (Method req) MethodPost).
      * destruct (http_ParseForm _) as [req2 perr].
        destruct (enforceQueryValues _ (PostForm req2)) as [[[v2 q2] found2] [err|]].
        { intros [= <-]. destruct perr as [perr|]; [|apply Hfail].
          destruct (enforceFailed_cases (prometheusAPIError w (Error perr) StatusBadRequest) err)
            as [->|[code ->]].
          - split; [eexists; reflexivity|]. right. left. apply H400.
          - split; [unfold prometheusAPIError; rewrite <- app_assoc; eexists; reflexivity|].
            right. left. unfold prometheusAPIError at 1.
            apply status_app_Some, H400. }
        destruct (negb found1 && negb found2); unfold upstream_ServeHTTP; intros [= <-].
        -- destruct perr as [perr|].
           ++ split; [eexists; reflexivity|]. right. left. apply H400.
           ++ split; [exists []; now rewrite app_nil_r|]. now left.
        -- rewrite status_upstream. destruct perr as [perr|].
           ++ split; [unfold prometheusAPIError; rewrite <- app_assoc; eexists; reflexivity|].
              right. left. apply H400.
           ++ split; [eexists; reflexivity|]. now left.
      * destruct (negb found1 && negb false); unfold upstream_ServeHTTP; intros [= <-].
        -- split; [exists []; now rewrite app_nil_r|]. now left.
        -- rewrite status_upstream. split; [eexists; reflexivity|]. now left.
  - unfold matcher.
    destruct (MustLabelValues req) as [vals|]; [|discriminate]. cbn [mbind option_bind].
    destruct (newLabelMatcher r vals) as [m|err].
    2:{ intros [= <-]. split; [eexists; reflexivity|]. right. apply H400. }
    destruct (injectMatcher (URL_Query req) m) as [q [err|]].
    { intros [= <-]. split; [eexists; reflexivity|]. right. apply H400. }
    cbn [Method set_RawQuery].
    destruct (String.eqb (Method req) MethodPost).
    + destruct (http_ParseForm _) as [req2 [perr|]].
      { intros [= <-]. split; [exists []; now rewrite app_nil_r|]. now left. }
      destruct (injectMatcher (PostForm req2) m) as [q2 [err|]].
      { intros [= <-]. split; [exists []; now rewrite app_nil_r|]. now left. }
      unfold upstream_ServeHTTP. intros [= <-]. rewrite status_upstream.
      split; [eexists; reflexivity|]. now left.
    + unfold upstream_ServeHTTP. intros [= <-]. rewrite status_upstream.
      split; [eexists; reflexivity|]. now left.
Qed.

(** A query that does not parse is answered 400 by the query handler. *)
Lemma handlers_status_codes_witness :
  let r := mkRoutes "tenant" false false false [] in
  let req := Sample.GET "query=up%7B" ["team-a"] in
  let w' := [WriteHeader 400; Write "parse error: up{"] in
  @query Sample.external r [] req = Some w'
  /\ (exists added, w' = [] ++ added)
  /\ (status w' = None \/ status w' = Some StatusBadRequest
      \/ status w' = Some StatusInternalServerError).
Proof.
  intros r req w'.
  assert (@query Sample.external r [] req = Some w') as Hq by (vm_compute; reflexivity).
  split; [exact Hq|].
  exact (proj1 (@handlers_status_codes Sample.external r [] w' req eq_refl) Hq).
Defined.

(** ** Sequences of registrations on the strict router *)

Lemma at_or_below_refl (p : string) : at_or_below p p.
Proof. apply HasPrefix_spec. exists "". now rewrite append_empty_r. Qed.

(** A sanitized pattern ends with a slash only when the pattern ended with
    two. *)
Lemma sanitize_ends_slash (p x : string) : sanitize p = x +:+ "/" -> p = x +:+ "//".
Proof.
  intros Hs. destruct (sanitize_cases p) as [Hp|Hp].
  - exfalso. rewrite Hp in Hs. rewrite Hs in Hp. rewrite sanitize_slash in Hp.
    now apply append_slash_neq in Hp.
  - rewrite Hp, Hs. now rewrite append_assoc.
Qed.

Lemma double_slash_length (p x : string) :
  p = x +:+ "//" -> String.length p = 2 + String.length (sanitize (sanitize p)).
Proof.
  intros ->. change "//" with ("/" +:+ "/"). rewrite <- append_assoc.
  rewrite !sanitize_slash, !length_append. simpl. lia.
Qed.

Lemma apart_nil : apart [].
Proof. intros i j p q _ Hi. discriminate. Qed.

Lemma apart_cons (p : string) (ps : list string) :
  apart (p :: ps) <->
  (forall q, q ∈ ps -> ~ at_or_below (sanitize q) (sanitize p)) /\ apart ps.
Proof.
  split.
  - intros Hap. split.
    + intros q Hq. apply list_elem_of_lookup in Hq as [j Hj].
      apply (Hap 0%nat (S j)); [lia | reflexivity | exact Hj].
    + intros i j p0 q Hij Hi Hj. apply (Hap (S i) (S j)); [lia | exact Hi | exact Hj].
  - intros [Hhead Hap] i j p0 q Hij Hi Hj.
    destruct j as [|j]; [lia|]. destruct i as [|i].
    + injection Hi as <-. apply Hhead. apply list_elem_of_lookup. now exists j.
    + apply (Hap i j); [lia | exact Hi | exact Hj].
Qed.

Section RouterFacts.

Context {Hdl : Type}.
Implicit Types (s : strictMux Hdl) (regs : list (string * Hdl)).

Lemma registrations_handed regs :
  (flat_map registrations regs).*1 = flat_map handed regs.*1.
Proof.
  induction regs as [|[p h] regs IH]; [reflexivity|].
  cbn [flat_map]. rewrite fmap_app, fmap_cons. cbn [flat_map fst]. now rewrite IH.
Qed.

Lemma collision_at_or_below s pattern :
  (forall p rest, p ∈ seen s -> sanitize pattern +:+ "/" <> (p +:+ "/") +:+ rest) <->
  (forall p, p ∈ seen s -> ~ at_or_below (sanitize pattern) p).
Proof.
  unfold at_or_below. split.
  - intros Hno p Hp Hpre. apply HasPrefix_spec in Hpre as [rest Hr].
    exact (Hno p rest Hp Hr).
  - intros Hno p rest Hp Heq. apply (Hno p Hp). apply HasPrefix_spec. eauto.
Qed.

(** A registration is accepted exactly when the strict router's check
    passes and the wrapped mux takes both patterns. *)
Lemma Handle_ok_iff s pattern (h : Hdl) :
  (exists s', Handle s pattern h = Some (s', None)) <->
  (forall p, p ∈ seen s -> ~ at_or_below (sanitize pattern) p)
  /\ sanitize pattern <> ""
  /\ (forall x, x ∈ handed pattern -> x ∉ (mux s).*1).
Proof.
  rewrite <- collision_at_or_below. unfold handed. split.
  - intros [s' Hh]. apply Handle_ok_state in Hh as (_ & _ & Hno & Hne & Hn1 & Hn2).
    split; [exact Hno|]. split; [exact Hne|]. intros x Hx.
    apply elem_of_cons in Hx as [-> | Hx]; [exact Hn1|].
    apply list_elem_of_singleton in Hx as ->. exact Hn2.
  - intros (Hno & Hne & Hnot). eexists. apply Handle_ok; auto.
    + apply Hnot. apply list_elem_of_here.
    + apply Hnot. apply list_elem_of_further, list_elem_of_here.
Qed.

(** A sequence of registrations is accepted exactly when no pattern is at or
    below a pattern seen before or registered earlier in the sequence, no
    sanitized pattern is empty, and the patterns handed to the wrapped mux
    are new to it and all different. *)
Lemma HandleAll_ok_general s regs :
  (exists s', HandleAll s regs = Some (s', None)) <->
  (forall q p0, q ∈ regs.*1 -> p0 ∈ seen s -> ~ at_or_below (sanitize q) p0)
  /\ apart regs.*1
  /\ (forall q, q ∈ regs.*1 -> sanitize q <> "")
  /\ (forall x, x ∈ flat_map handed regs.*1 -> x ∉ (mux s).*1)
  /\ NoDup (flat_map handed regs.*1).
Proof.
  revert s. induction regs as [|[p h] regs IH]; intros s.
  - cbn [HandleAll fmap list_fmap flat_map]. split; [|eauto]. intros _.
    split; [intros q p0 Hq; now apply elem_of_nil in Hq|].
    split; [apply apart_nil|].
    split; [intros q Hq; now apply elem_of_nil in Hq|].
    split; [intros x Hx; now apply elem_of_nil in Hx|apply NoDup_nil_2].
  - cbn [HandleAll]. rewrite fmap_cons. cbn [fst flat_map].
    rewrite apart_cons.
    assert (NoDup (handed p)) as Hhanded.
    { unfold handed. apply NoDup_cons. split; [|apply NoDup_singleton].
      rewrite list_elem_of_singleton. apply append_slash_neq. }
    split.
    + intros [s' Hall].
      destruct (Handle s p h) as [[s1 [e|]]|] eqn:Hh; cbn [mbind option_bind] in Hall;
        [discriminate| |discriminate].
      destruct (proj1 (Handle_ok_iff s p h) (ex_intro _ _ Hh)) as (Hno & Hne & Hnew).
      apply Handle_ok_state in Hh as (Hmux & Hseen & _).
      destruct (proj1 (IH s1) (ex_intro _ _ Hall)) as (Hs1 & Hap & Hnes & Hnew1 & Hnd).
      assert (forall x, x ∈ (mux s1).*1 <-> x ∈ (mux s).*1 \/ x ∈ handed p) as Hmux1.
      { intros x. rewrite Hmux, fmap_app, elem_of_app. reflexivity. }
      split; [|split; [split|split; [|split]]].
      * intros q p0 Hq Hp0. apply elem_of_cons in Hq as [-> | Hq]; [now apply Hno|].
        apply Hs1; [exact Hq|]. rewrite Hseen. now apply elem_of_union_r.
      * intros q Hq. apply Hs1; [exact Hq|]. rewrite Hseen.
        now apply elem_of_union_l, elem_of_singleton.
      * exact Hap.
      * intros q Hq. apply elem_of_cons in Hq as [-> | Hq]; [exact Hne | now apply Hnes].
      * intros x Hx. apply elem_of_app in Hx as [Hx|Hx]; [now apply Hnew|].
        intros Hin. apply (Hnew1 x Hx). apply Hmux1. now left.
      * apply NoDup_app. split; [exact Hhanded|]. split; [|exact Hnd].
        intros x Hx Hin. apply (Hnew1 x Hin). apply Hmux1. now right.
    + intros (Hs & [Hp Hap] & Hnes & Hnew & Hnd).
      apply NoDup_app in Hnd as (_ & Hdisj & Hnd).
      destruct (proj2 (Handle_ok_iff s p h)) as [s1 Hh].
      { split; [|split].
        - intros p0 Hp0. apply Hs; [apply list_elem_of_here|exact Hp0].
        - apply Hnes. apply list_elem_of_here.
        - intros x Hx. apply Hnew. apply elem_of_app. now left. }
      rewrite Hh. cbn [mbind option_bind].
      apply Handle_ok_state in Hh as (Hmux & Hseen & _).
      apply IH. split; [|split; [exact Hap|split; [|split; [|exact Hnd]]]].
      * intros q p0 Hq Hp0. rewrite Hseen in Hp0.
        apply elem_of_union in Hp0 as [Hp0|Hp0].
        -- apply elem_of_singleton in Hp0 as ->. now apply Hp.
        -- apply Hs; [now apply list_elem_of_further | exact Hp0].
      * intros q Hq. apply Hnes. now apply list_elem_of_further.
      * intros x Hx. rewrite Hmux, fmap_app, elem_of_app. intros [Hin|Hin].
        -- revert Hin. apply Hnew. apply elem_of_app. now right.
        -- exact (Hdisj x Hin Hx).
Qed.

(** What a sequence of accepted registrations hands to the wrapped mux. *)
Lemma HandleAll_mux s regs s' :
  HandleAll s regs = Some (s', None) -> mux s' = mux s ++ flat_map registrations regs.
Proof.
  revert s. induction regs as [|[p h] regs IH]; intros s; cbn [HandleAll flat_map].
  - intros [= <-]. now rewrite app_nil_r.
  - destruct (Handle s p h) as [[s1 [e|]]|] eqn:Hh; cbn [mbind option_bind];
      [discriminate| |discriminate].
    intros Hall. apply IH in Hall. apply Handle_ok_state in Hh as (Hmux & _).
    rewrite Hall, Hmux. now rewrite <- app_assoc.
Qed.

Lemma HandleAll_app s regs1 regs2 :
  HandleAll s (regs1 ++ regs2)
  = registered ← HandleAll s regs1;
    match registered with
    | (s1, None) => HandleAll s1 regs2
    | (s1, Some e) => Some (s1, Some e)
    end.
Proof.
  revert s. induction regs1 as [|[p h] regs1 IH]; intros s; cbn [HandleAll app].
  - reflexivity.
  - destruct (Handle s p h) as [[s1 [e|]]|]; cbn [mbind option_bind];
      [reflexivity| |reflexivity].
    apply IH.
Qed.

(** Collecting every error finds none exactly when stopping at the first
    error finds none, and the router is then the same. *)
Lemma HandleEach_nil_iff s regs s' :
  HandleEach s regs = Some (s', []) <-> HandleAll s regs = Some (s', None).
Proof.
  revert s. induction regs as [|[p h] regs IH]; intros s; cbn [HandleEach HandleAll].
  - split; intros [= <-]; reflexivity.
  - destruct (Handle s p h) as [[s1 [e|]]|]; cbn [mbind option_bind].
    + destruct (HandleEach s1 regs) as [[s2 errs]|]; cbn [mbind option_bind];
        split; discriminate.
    + rewrite <- IH.
      destruct (HandleEach s1 regs) as [[s2 errs]|]; cbn [mbind option_bind];
        [|split; discriminate].
      split; intros [= -> ->]; reflexivity.
    + split; discriminate.
Qed.

(** While no pattern ends in two slashes and no sanitized pattern is empty,
    the wrapped mux does not panic. *)
Lemma HandleAll_no_panic s regs :
  (forall x, x ∈ (mux s).*1 -> exists a, a ∈ seen s /\ (x = a \/ x = a +:+ "/")) ->
  (forall a x, a ∈ seen s -> a <> x +:+ "/") ->
  (forall p x, p ∈ regs.*1 -> p <> x +:+ "//") ->
  (forall p, p ∈ regs.*1 -> sanitize p <> "") ->
  HandleAll s regs <> None.
Proof.
  revert s. induction regs as [|[p h] regs IH]; intros s Hinv Hseen Hregs Hne;
    cbn [HandleAll]; [discriminate|].
  assert (forall x, sanitize p <> x +:+ "/") as Hp.
  { intros x Hx. apply sanitize_ends_slash in Hx.
    apply (Hregs p x); [|exact Hx]. rewrite fmap_cons. apply list_elem_of_here. }
  assert (sanitize p <> "") as Hpne
    by (apply Hne; rewrite fmap_cons; apply list_elem_of_here).
  destruct (Handle s p h) as [[s1 [e|]]|] eqn:Hh; cbn [mbind option_bind].
  - discriminate.
  - apply Handle_ok_state in Hh as (Hmux & Hseen1 & _).
    apply IH.
    + intros x. rewrite Hmux, fmap_app. cbn [fmap list_fmap fst].
      rewrite elem_of_app, !elem_of_cons.
      intros [Hx | [-> | [-> | Hx]]].
      * destruct (Hinv x Hx) as (a & Ha & Hxa). exists a. split; [|exact Hxa].
        rewrite Hseen1. now apply elem_of_union_r.
      * exists (sanitize p). split; [|now left].
        rewrite Hseen1. now apply elem_of_union_l, elem_of_singleton.
      * exists (sanitize p). split; [|now right].
        rewrite Hseen1. now apply elem_of_union_l, elem_of_singleton.
      * now apply elem_of_nil in Hx.
    + intros a x. rewrite Hseen1, elem_of_union, elem_of_singleton.
      intros [-> | Ha]; [apply Hp | now apply Hseen].
    + intros q x Hq. apply (Hregs q x). rewrite fmap_cons. now apply list_elem_of_further.
    + intros q Hq. apply Hne. rewrite fmap_cons. now apply list_elem_of_further.
  - exfalso.
    assert (forall a rest, a ∈ seen s -> sanitize p +:+ "/" <> (a +:+ "/") +:+ rest) as Hno.
    { intros a rest Ha Heq.
      destruct (proj2 (Handle_error_iff s p h)) as [e He]; [eauto|]. congruence. }
    rewrite Handle_ok in Hh; [discriminate|exact Hno|exact Hpne| |].
    + intros Hx. destruct (Hinv _ Hx) as (a & Ha & [Heq|Heq]).
      * apply (Hno a "" Ha). now rewrite append_empty_r, Heq.
      * now apply Hp in Heq.
    + intros Hx. destruct (Hinv _ Hx) as (a & Ha & [Heq|Heq]).
      * symmetry in Heq. now apply (Hseen a (sanitize p) Ha).
      * apply append_slash_inj in Heq. apply (Hno a "" Ha).
        now rewrite append_empty_r, Heq.
Qed.

(** The wrapped mux never holds a pattern twice. *)
Lemma HandleAll_NoDup s regs s' :
  HandleAll s regs = Some (s', None) -> NoDup (mux s).*1 -> NoDup (mux s').*1.
Proof.
  revert s. induction regs as [|[p h] regs IH]; intros s; cbn [HandleAll].
  - intros [= <-]. auto.
  - destruct (Handle s p h) as [[s1 [e|]]|] eqn:Hh; cbn [mbind option_bind];
      [discriminate| |discriminate].
    intros Hall Hnd. apply (IH s1 Hall).
    apply Handle_ok_state in Hh as (Hmux & _ & _ & _ & Hn1 & Hn2).
    rewrite Hmux, fmap_app. cbn [fmap list_fmap fst].
    apply NoDup_app. split; [exact Hnd|]. split.
    + intros x Hx. rewrite !elem_of_cons. intros [-> | [-> | Hnil]]; auto.
      now apply elem_of_nil in Hnil.
    + apply NoDup_cons. split; [|apply NoDup_singleton].
      rewrite list_elem_of_singleton. apply append_slash_neq.
Qed.

(** An error is returned only for a pattern at or below a pattern seen
    before or registered earlier in the sequence. *)
Lemma HandleAll_error_general s regs s' e :
  HandleAll s regs = Some (s', Some e) ->
  (exists q p0, q ∈ regs.*1 /\ p0 ∈ seen s /\ at_or_below (sanitize q) p0)
  \/ ~ apart regs.*1.
Proof.
  revert s. induction regs as [|[p h] regs IH]; intros s; cbn [HandleAll];
    [discriminate|].
  rewrite fmap_cons. cbn [fst].
  destruct (Handle s p h) as [[s1 [e1|]]|] eqn:Hh; cbn [mbind option_bind];
    [| |discriminate].
  - intros _. left.
    assert (s1 = s) as -> by exact (Handle_error_unchanged _ _ _ _ _ Hh).
    destruct (proj1 (Handle_error_iff s p h) (ex_intro _ _ Hh)) as (p0 & rest & Hp0 & Heq).
    exists p, p0. split; [apply list_elem_of_here|]. split; [exact Hp0|].
    apply HasPrefix_spec. eauto.
  - intros Hall. apply Handle_ok_state in Hh as (_ & Hseen & _).
    destruct (IH s1 Hall) as [(q & p0 & Hq & Hp0 & Hat)|Hnot].
    + rewrite Hseen in Hp0. apply elem_of_union in Hp0 as [Hp0|Hp0].
      * apply elem_of_singleton in Hp0 as ->. right. intros Hap.
        apply apart_cons in Hap as [Hhead _]. exact (Hhead q Hq Hat).
      * left. exists q, p0. split; [now apply list_elem_of_further|]. now split.
    + right. intros Hap. apply apart_cons in Hap as [_ Hap]. now apply Hnot.
Qed.

End RouterFacts.

(** X16.  A sequence of registrations on a fresh strict router is accepted
    exactly when no pattern is, once sanitized, equal to or below the
    sanitized form of a pattern registered before it (a pattern above an
    earlier one passes), no sanitized pattern is empty, and the patterns
    handed to the wrapped mux, each sanitized pattern and it followed by a
    slash, are all different: the strict router returns an error for the
    first, and the wrapped mux panics on an empty pattern or one it holds.
    When the sequence is accepted the wrapped mux holds, in order, the
    sanitized form of each pattern and that form followed by a slash, both
    bound to the pattern's handler. *)
Theorem HandleAll_ok_iff {Hdl : Type} (regs : list (string * Hdl)) :
  ((exists s', HandleAll (newStrictMux Hdl) regs = Some (s', None)) <->
   apart regs.*1
   /\ (forall q, q ∈ regs.*1 -> sanitize q <> "")
   /\ NoDup (flat_map handed regs.*1))
  /\ (forall s' e, HandleAll (newStrictMux Hdl) regs = Some (s', Some e) ->
        ~ apart regs.*1)
  /\ (forall s', HandleAll (newStrictMux Hdl) regs = Some (s', None) ->
        mux s' = flat_map registrations regs
        /\ forall p, p ∈ seen s' <-> exists q, q ∈ regs.*1 /\ p = sanitize q).
Proof.
  split; [|split].
  - rewrite HandleAll_ok_general. cbn [newStrictMux mux seen fmap list_fmap]. split.
    + intros (_ & Hap & Hne & _ & Hnd). auto.
    + intros (Hap & Hne & Hnd). split; [|split; [exact Hap|split; [exact Hne|split]]].
      * intros q p0 _ Hp0. now apply elem_of_empty in Hp0.
      * intros x _ Hx. now apply elem_of_nil in Hx.
      * exact Hnd.
  - intros s' e Hall.
    destruct (HandleAll_error_general _ _ _ _ Hall) as [(q & p0 & _ & Hp0 & _)|Hnot];
      [|exact Hnot].
    now apply elem_of_empty in Hp0.
  - intros s' Hall. split.
    + exact (HandleAll_mux _ _ _ Hall).
    + intros p. rewrite (HandleAll_seen _ _ _ Hall).
      rewrite elem_of_union, elem_of_list_to_set, list_elem_of_fmap. split.
      * intros [([q h] & -> & Hin)|Hempty]; [|now apply elem_of_empty in Hempty].
        exists q. split; [|reflexivity]. apply list_elem_of_fmap. now exists (q, h).
      * intros (q & Hq & ->). left. apply list_elem_of_fmap in Hq as ([q' h] & -> & Hin).
        now exists (q', h).
Qed.

(** X17.  When every registration of a sequence was accepted and no pattern
    ends in two slashes, the wrapped mux was never handed the same pattern
    twice, and it does not panic on further registrations whose patterns do
    not end in two slashes and are not empty once sanitized
    ([http.ServeMux] panics on an empty pattern and on a pattern it holds
    already). *)
Theorem HandleAll_distinct_patterns {Hdl : Type} (regs : list (string * Hdl))
    (s' : strictMux Hdl) :
  HandleAll (newStrictMux Hdl) regs = Some (s', None) ->
  (forall p x, p ∈ regs.*1 -> p <> x +:+ "//") ->
  NoDup (mux s').*1
  /\ forall more : list (string * Hdl),
       (forall p x, p ∈ more.*1 -> p <> x +:+ "//") ->
       (forall p, p ∈ more.*1 -> sanitize p <> "") ->
       HandleAll s' more <> None.
Proof.
  intros Hall Hregs. split.
  - apply (HandleAll_NoDup _ _ _ Hall). apply NoDup_nil_2.
  - intros more Hmore Hne. apply HandleAll_no_panic; [| |exact Hmore|exact Hne].
    + intros x Hx. apply (HandleAll_mux_elem _ _ _ Hall) in Hx as [Hx|(p0 & h0 & Hin & Hx)];
        [now apply elem_of_nil in Hx|].
      exists (sanitize p0). split; [|exact Hx].
      exact (HandleAll_seen_elem _ _ _ _ Hall Hin).
    + intros a x Ha Heq. rewrite (HandleAll_seen _ _ _ Hall) in Ha.
      apply elem_of_union in Ha as [Ha|Ha]; [|now apply elem_of_empty in Ha].
      apply elem_of_list_to_set, list_elem_of_fmap in Ha as ([p0 h0] & -> & Hin).
      cbn [fst] in Heq. apply sanitize_ends_slash in Heq.
      apply (Hregs p0 x); [|exact Heq]. apply list_elem_of_fmap. now exists (p0, h0).
Qed.

(** The hypothesis on double slashes is needed: after [p//], for a pattern
    [p] that does not end in a slash, registering [p] passes the strict
    router's check and makes the wrapped mux panic, on the empty pattern or
    on [p/], which it holds already. *)
Lemma Handle_base_after_double_slash {Hdl : Type} (base : string) (h h' : Hdl) :
  sanitize base = base ->
  HandleAll (newStrictMux Hdl) [(base +:+ "//", h); (base, h')] = None.
Proof.
  intros Hbase.
  assert (sanitize (base +:+ "//") = base +:+ "/") as Hdouble.
  { replace (base +:+ "//") with ((base +:+ "/") +:+ "/") by now rewrite append_assoc.
    apply sanitize_slash. }
  cbn [HandleAll]. rewrite Handle_ok; rewrite ?Hdouble.
  - cbn [mbind option_bind]. unfold Handle. cbn [seen mux newStrictMux app].
    rewrite Hbase. rewrite bool_decide_eq_false_2.
    2:{ rewrite union_empty_r_L, elem_of_singleton. apply append_slash_neq. }
    destruct (shares _ base) eqn:Hsh.
    { apply shares_spec in Hsh as (p & rest & Hp & Heq).
      rewrite union_empty_r_L in Hp. apply elem_of_singleton in Hp as ->.
      apply (f_equal String.length) in Heq. rewrite !length_append in Heq.
      simpl in Heq. lia. }
    destruct (ServeMux_Handle _ base h') as [m|] eqn:H1; [|reflexivity].
    cbn [mbind option_bind].
    apply ServeMux_Handle_Some in H1 as (_ & _ & ->).
    destruct (ServeMux_Handle _ (base +:+ "/") h') as [m|] eqn:H2; [|reflexivity].
    exfalso. apply ServeMux_Handle_Some in H2 as (_ & Hnot & _). apply Hnot.
    rewrite fmap_app. apply elem_of_app. left. cbn [fmap list_fmap fst].
    apply list_elem_of_here.
  - intros p rest Hp. now apply elem_of_empty in Hp.
  - now destruct base.
  - cbn [newStrictMux mux fmap list_fmap]. apply not_elem_of_nil.
  - cbn [newStrictMux mux fmap list_fmap]. apply not_elem_of_nil.
Qed.

Lemma HandleAll_distinct_patterns_witness :
  let regs := [("/api/v1/query", 1%nat); ("/api/v1/series/", 2%nat); ("/api", 3%nat)] in
  exists s', HandleAll (newStrictMux nat) regs = Some (s', None)
             /\ NoDup (mux s').*1
             /\ HandleAll s' [("/graph", 4%nat)] <> None.
Proof.
  intros regs.
  destruct (HandleAll (newStrictMux nat) regs) as [[s' e]|] eqn:Hall;
    [|vm_compute in Hall; discriminate].
  assert (e = None) as -> by (vm_compute in Hall; congruence).
  exists s'. split; [reflexivity|].
  destruct (HandleAll_distinct_patterns regs s' Hall) as [Hnd Hmore].
  { intros p x Hp Heq. apply double_slash_length in Heq.
    cbn [fmap list_fmap fst regs] in Hp. rewrite !elem_of_cons in Hp.
    destruct Hp as [-> | [-> | [-> | Hp]]]; [| | |now apply elem_of_nil in Hp];
      vm_compute in Heq; discriminate. }
  split; [exact Hnd|]. apply Hmore.
  - intros p x Hp Heq. apply double_slash_length in Heq.
    apply list_elem_of_singleton in Hp as ->. vm_compute in Heq. discriminate.
  - intros p Hp. apply list_elem_of_singleton in Hp as ->. discriminate.
Defined.

(** ** Route construction *)

Lemma fmap_fst_pair {A : Type} (a : A) (paths : list string) :
  (map (fun path => (path, a)) paths).*1 = paths.
Proof.
  induction paths as [|p paths IH]; [reflexivity|].
  cbn [map]. rewrite fmap_cons. cbn [fst]. now rewrite IH.
Qed.

(** Whether a sequence is accepted depends on its patterns only. *)
Lemma HandleAll_patterns {A B : Type} (regsA : list (string * A))
    (regsB : list (string * B)) :
  regsA.*1 = regsB.*1 ->
  (exists s', HandleAll (newStrictMux A) regsA = Some (s', None)) ->
  exists s', HandleAll (newStrictMux B) regsB = Some (s', None).
Proof.
  intros Heq HA. apply HandleAll_ok_general. apply HandleAll_ok_general in HA.
  now rewrite <- Heq.
Qed.

(** The sequences the examples register, run on handlers without content. *)
Lemma accepted_by_registration {B : Type} (regs : list (string * B)) :
  (if HandleAll (newStrictMux unit) (map (fun p => (p, tt)) regs.*1) is Some (_, None)
   then True else False) ->
  exists s', HandleAll (newStrictMux B) regs = Some (s', None).
Proof.
  intros Hrun. apply (HandleAll_patterns (map (fun p => (p, tt)) regs.*1)).
  - apply fmap_fst_pair.
  - destruct (HandleAll _ _) as [[s' [e|]]|]; [contradiction|eauto|contradiction].
Qed.

Section NewRoutesFacts.

Context `{External} `{Library} `{Package}.

Lemma routeTable_patterns (r : routes) (el : Handler -> Handler) (b : bool) :
  (routeTable r el b).*1
  = ["/federate"; "/api/v1/query"; "/api/v1/query_range"; "/api/v1/alerts";
     "/api/v1/rules"; "/api/v1/series"; "/api/v1/query_exemplars"]
    ++ (if b then ["/api/v1/labels"; "/api/v1/label/"] else [])
    ++ ["/api/v2/silences"; "/api/v2/silence/"; "/api/v2/alerts/groups";
        "/api/v2/alerts"; "/healthz"].
Proof. destruct b; reflexivity. Qed.

(** The built-in table is accepted, with and without the label APIs: the
    strict router raises no error and the wrapped mux does not panic. *)
Lemma routeTable_registers (r : routes) (el : Handler -> Handler) (b : bool) :
  exists s0, HandleAll (newStrictMux Handler) (routeTable r el b) = Some (s0, None).
Proof.
  apply accepted_by_registration. rewrite routeTable_patterns.
  destruct b; vm_compute; exact I.
Qed.

Lemma validatePaths_None_iff (paths : list string) :
  validatePaths paths = None <->
  Forall (fun path => url_Parse_Path ("http://example.com" +:+ path) = Ok path
                      /\ path <> "" /\ path <> "/") paths.
Proof.
  induction paths as [|path paths IH]; cbn [validatePaths].
  - split; [constructor|reflexivity].
  - rewrite Forall_cons.
    destruct (url_Parse_Path ("http://example.com" +:+ path)) as [u|err] eqn:Hu.
    2:{ split; [discriminate|]. intros [[Hp _] _]. discriminate. }
    destruct (String.eqb_spec u path) as [->|Hne]; cbn [negb].
    2:{ split; [discriminate|]. intros [[Hp _] _]. congruence. }
    destruct (String.eqb_spec path "") as [->|He]; cbn [orb].
    { split; [discriminate|]. intros [(_ & Hp & _) _]. congruence. }
    destruct (String.eqb_spec path "/") as [->|Hs].
    { split; [discriminate|]. intros [(_ & _ & Hp) _]. congruence. }
    rewrite IH. tauto.
Qed.

Lemma validatePaths_Some (paths : list string) (err : NewRoutesError) :
  validatePaths paths = Some err ->
  exists path, path ∈ paths /\ (err = NotAValidPath path \/ err = PathNotAllowed path).
Proof.
  induction paths as [|path paths IH]; cbn [validatePaths]; [discriminate|].
  destruct (url_Parse_Path ("http://example.com" +:+ path)) as [u|e].
  2:{ intros [= <-]. exists path. split; [apply list_elem_of_here|now left]. }
  destruct (String.eqb_spec u path) as [->|Hne]; cbn [negb].
  2:{ intros [= <-]. exists path. split; [apply list_elem_of_here|now left]. }
  destruct (String.eqb path "" || String.eqb path "/").
  { intros [= <-]. exists path. split; [apply list_elem_of_here|now right]. }
  intros Hrest. destruct (IH Hrest) as (p & Hin & Hp).
  exists p. split; [now apply list_elem_of_further|exact Hp].
Qed.

(** [NewRoutes] after the built-in registrations, which raise no error. *)
Lemma NewRoutes_spec (label : string) (el : Handler -> Handler) (opts : list Option) :
  let opt := fold_left (fun o apply => apply o) opts options.zero in
  let r := mkRoutes label (options.errorOnReplace opt) (options.regexMatch opt)
                    (options.rulesWithActiveAlerts opt) (options.bypassQueries opt) in
  exists s0,
    HandleAll (newStrictMux Handler) (routeTable r el (options.enableLabelAPIs opt))
    = Some (s0, None)
    /\ NewRoutes label el opts
       = match validatePaths (options.passthroughPaths opt) with
         | Some err => Some (inr err)
         | None =>
             registered ← HandleAll s0 (map (fun path => (path, passthrough))
                                            (options.passthroughPaths opt));
             match registered with
             | (_, Some e) => Some (inr (RegistrationFailed [e]))
             | (mux, None) => Some (inl (r, mux))
             end
         end.
Proof.
  intros opt r.
  destruct (routeTable_registers r el (options.enableLabelAPIs opt)) as [s0 Hs0].
  exists s0. split; [exact Hs0|].
  unfold NewRoutes. fold opt. fold r.
  now rewrite (proj2 (HandleEach_nil_iff _ _ _) Hs0).
Qed.

(** Valid passthrough paths that the router accepts after the built-in
    patterns give the routes. *)
Lemma NewRoutes_inl (label : string) (el : Handler -> Handler) (opts : list Option) :
  let opt := fold_left (fun o apply => apply o) opts options.zero in
  let r := mkRoutes label (options.errorOnReplace opt) (options.regexMatch opt)
                    (options.rulesWithActiveAlerts opt) (options.bypassQueries opt) in
  validatePaths (options.passthroughPaths opt) = None ->
  (exists s', HandleAll (newStrictMux Handler)
                (routeTable r el (options.enableLabelAPIs opt)
                 ++ map (fun path => (path, passthrough)) (options.passthroughPaths opt))
              = Some (s', None)) ->
  exists s, NewRoutes label el opts = Some (inl (r, s)).
Proof.
  intros opt r Hvalid [s' Hall].
  destruct (NewRoutes_spec label el opts) as (s0 & Hs0 & ->).
  fold opt. fold r. rewrite Hvalid.
  rewrite HandleAll_app in Hall. fold opt in Hs0. fold r in Hs0. rewrite Hs0 in Hall.
  cbn [mbind option_bind] in Hall. rewrite Hall. cbn [mbind option_bind]. now exists s'.
Qed.

End NewRoutesFacts.

(** X18.  Without passthrough paths route construction never fails,
    whatever the label, the label extractor and the other options: the
    strict router accepts the whole built-in table, with and without the
    label APIs (where /api/v2/alerts follows its child
    /api/v2/alerts/groups), the routes carry the options as given, and
    every built-in pattern is registered as it is sanitized and with a
    trailing slash. *)
Theorem NewRoutes_without_passthrough `{External} `{Library} `{Package}
    (label : string) (el : Handler -> Handler) (opts : list Option) :
  let opt := fold_left (fun o apply => apply o) opts options.zero in
  let r := mkRoutes label (options.errorOnReplace opt) (options.regexMatch opt)
                    (options.rulesWithActiveAlerts opt) (options.bypassQueries opt) in
  options.passthroughPaths opt = [] ->
  exists s,
    NewRoutes label el opts = Some (inl (r, s))
    /\ mux s = flat_map registrations (routeTable r el (options.enableLabelAPIs opt)).
Proof.
  intros opt r Hnone.
  destruct (NewRoutes_spec label el opts) as (s0 & Hs0 & ->).
  fold opt. fold opt in Hs0. fold r. fold r in Hs0.
  rewrite Hnone. cbn [validatePaths map HandleAll mbind option_bind].
  exists s0. split; [reflexivity|]. exact (HandleAll_mux _ _ _ Hs0).
Qed.

Lemma NewRoutes_without_passthrough_witness :
  exists s,
    @NewRoutes Sample.external SampleText.library SampleText.package
               "tenant" (StaticLabelEnforcer_ExtractLabel ["team-a"])
               [WithEnabledLabelsAPI; WithRegexMatch; WithBypassQueries ["up"]]
    = Some (inl (mkRoutes "tenant" false true false ["up"], s)).
Proof.
  destruct (@NewRoutes_without_passthrough Sample.external SampleText.library
              SampleText.package "tenant" (StaticLabelEnforcer_ExtractLabel ["team-a"])
              [WithEnabledLabelsAPI; WithRegexMatch; WithBypassQueries ["up"]] eq_refl)
    as (s & Hs & _).
  exists s. exact Hs.
Defined.

(** X19.  A passthrough list that holds the empty path, the root, or a path
    that [url.Parse] does not give back unchanged as the path of
    [http://example.com] followed by it, is refused with a validation error
    naming one of its paths, before any passthrough path is registered. *)
Theorem NewRoutes_rejects_invalid_path `{External} `{Library} `{Package}
    (label : string) (el : Handler -> Handler) (opts : list Option) (path : string) :
  let paths := options.passthroughPaths
                 (fold_left (fun o apply => apply o) opts options.zero) in
  path ∈ paths ->
  path = "" \/ path = "/" \/ url_Parse_Path ("http://example.com" +:+ path) <> Ok path ->
  exists path', path' ∈ paths
    /\ (NewRoutes label el opts = Some (inr (NotAValidPath path'))
        \/ NewRoutes label el opts = Some (inr (PathNotAllowed path'))).
Proof.
  intros paths Hin Hbad.
  destruct (NewRoutes_spec label el opts) as (s0 & _ & ->). fold paths.
  destruct (validatePaths paths) as [err|] eqn:Hv.
  - apply validatePaths_Some in Hv as (path' & Hin' & [-> | ->]); eauto.
  - exfalso. apply validatePaths_None_iff in Hv.
    rewrite Forall_forall in Hv. destruct (Hv path Hin) as (Hp & He & Hs).
    destruct Hbad as [Hb|[Hb|Hb]]; contradiction.
Qed.

Lemma NewRoutes_rejects_invalid_path_witness :
  @NewRoutes Sample.external SampleText.library SampleText.package
             "tenant" (StaticLabelEnforcer_ExtractLabel ["team-a"])
             [WithPassthroughPaths ["/graph"; "/"]]
  = Some (inr (PathNotAllowed "/")).
Proof.
  destruct (@NewRoutes_rejects_invalid_path Sample.external SampleText.library
              SampleText.package "tenant" (StaticLabelEnforcer_ExtractLabel ["team-a"])
              [WithPassthroughPaths ["/graph"; "/"]] "/")
    as (path' & Hin & Hres).
  - apply list_elem_of_further, list_elem_of_here.
  - right. now left.
  - cbn [fold_left WithPassthroughPaths options.passthroughPaths] in Hin.
    rewrite !elem_of_cons in Hin.
    destruct Hin as [-> | [-> | Hin]]; [| |now apply elem_of_nil in Hin].
    + destruct Hres as [Hres|Hres]; exfalso; revert Hres;
        destruct (NewRoutes_spec (H := Sample.external) (H0 := SampleText.library)
                    (H1 := SampleText.package) "tenant"
                    (StaticLabelEnforcer_ExtractLabel ["team-a"])
                    [WithPassthroughPaths ["/graph"; "/"]]) as (s0 & _ & ->);
        vm_compute; discriminate.
    + destruct Hres as [Hres|Hres]; [exfalso|exact Hres].
      revert Hres.
      destruct (NewRoutes_spec (H := Sample.external) (H0 := SampleText.library)
                  (H1 := SampleText.package) "tenant"
                  (StaticLabelEnforcer_ExtractLabel ["team-a"])
                  [WithPassthroughPaths ["/graph"; "/"]]) as (s0 & _ & ->).
      vm_compute. discriminate.
Defined.

(** X20.  When route construction succeeds, the routes carry the label and
    the options as given; every passthrough path is one [url.Parse] gives
    back unchanged and is neither empty nor the root; in the sequence of the
    built-in patterns followed by the passthrough paths no pattern is equal
    to or below an earlier one, so that no passthrough path is at or below an
    enforced endpoint; and the router holds, in that order, every built-in
    pattern with its handler and every passthrough path with the
    pass-through handler, each as it is sanitized and with a trailing
    slash. *)
Theorem NewRoutes_ok `{External} `{Library} `{Package}
    (label : string) (el : Handler -> Handler) (opts : list Option)
    (r : routes) (s : strictMux Handler) :
  let opt := fold_left (fun o apply => apply o) opts options.zero in
  NewRoutes label el opts = Some (inl (r, s)) ->
  r = mkRoutes label (options.errorOnReplace opt) (options.regexMatch opt)
               (options.rulesWithActiveAlerts opt) (options.bypassQueries opt)
  /\ Forall (fun path => url_Parse_Path ("http://example.com" +:+ path) = Ok path
                         /\ path <> "" /\ path <> "/")
            (options.passthroughPaths opt)
  /\ apart ((routeTable r el (options.enableLabelAPIs opt)).*1
            ++ options.passthroughPaths opt)
  /\ mux s = flat_map registrations
               (routeTable r el (options.enableLabelAPIs opt)
                ++ map (fun path => (path, passthrough)) (options.passthroughPaths opt)).
Proof.
  intros opt.
  destruct (NewRoutes_spec label el opts) as (s0 & Hs0 & ->). fold opt. fold opt in Hs0.
  destruct (validatePaths (options.passthroughPaths opt)) eqn:Hv; [discriminate|].
  destruct (HandleAll s0 _) as [[s1 [e|]]|] eqn:Hpass; cbn [mbind option_bind];
    [discriminate| |discriminate].
  intros [= <- <-]. split; [reflexivity|].
  split; [now apply validatePaths_None_iff|].
  match goal with
  | |- context [routeTable ?r0 el _] => set (r := r0) in *
  end.
  assert (HandleAll (newStrictMux Handler)
            (routeTable r el (options.enableLabelAPIs opt)
             ++ map (fun path => (path, passthrough)) (options.passthroughPaths opt))
          = Some (s1, None)) as Hall.
  { rewrite HandleAll_app, Hs0. exact Hpass. }
  split.
  - destruct (proj1 (HandleAll_ok_general _ _) (ex_intro _ _ Hall)) as (_ & Hap & _).
    now rewrite fmap_app, fmap_fst_pair in Hap.
  - exact (HandleAll_mux _ _ _ Hall).
Qed.

(** The label APIs enabled and two passthrough paths beside the built-in
    endpoints. *)
Lemma NewRoutes_ok_witness :
  let opts := [WithEnabledLabelsAPI; WithErrorOnReplace;
               WithPassthroughPaths ["/graph"; "/api/v1/status/"]] in
  let el := StaticLabelEnforcer_ExtractLabel ["team-a"] in
  let r := mkRoutes "tenant" true false false [] in
  exists s,
    @NewRoutes Sample.external SampleText.library SampleText.package "tenant" el opts
    = Some (inl (r, s))
    /\ apart ((@routeTable Sample.external SampleText.package r el true).*1
              ++ ["/graph"; "/api/v1/status/"])
    /\ mux s = flat_map registrations
                 (@routeTable Sample.external SampleText.package r el true
                  ++ [("/graph", passthrough); ("/api/v1/status/", passthrough)]).
Proof.
  intros opts el r.
  destruct (@NewRoutes_inl Sample.external SampleText.library SampleText.package
              "tenant" el opts) as [s Hs].
  - vm_compute. reflexivity.
  - apply accepted_by_registration. rewrite fmap_app, fmap_fst_pair, routeTable_patterns.
    vm_compute. exact I.
  - exists s. split; [exact Hs|].
    destruct (@NewRoutes_ok Sample.external SampleText.library SampleText.package
                "tenant" el opts r s Hs) as (_ & _ & Hap & Hmux).
    split; [exact Hap | exact Hmux].
Defined.
